(** * AI-Traveller: the response-recovery pipeline of [server.js] and
      [netlify/functions/generate.js]

    A shallow embedding of the two request handlers, of their helpers
    [extractJsonFromText] and [sanitizeJsonString], and of the JavaScript
    built-ins they call ([JSON.parse], [String.prototype.trim], [indexOf],
    [lastIndexOf], [slice], [exec] and [replace] on their regular
    expressions).

    A JavaScript string is a sequence of UTF-16 code units; it is modelled as
    a list of code units of type [N]. *)

From Stdlib Require Import String Ascii NArith ZArith Bool Arith Lia List.
Import ListNotations.

Set Implicit Arguments.
Set Warnings "-register-all".

(* ================================================================== *)
(** * Strings *)
(* ================================================================== *)

Module Js.

Definition jsstring := list N.

(** An ASCII literal as a JavaScript string. *)
Definition js (s : string) : jsstring :=
  map N_of_ascii (list_ascii_of_string s).

Local Open Scope N_scope.

Definition c_lf : N := 10.
Definition c_dquote : N := 34.
Definition c_squote : N := 39.
Definition c_star : N := 42.
Definition c_comma : N := 44.
Definition c_slash : N := 47.
Definition c_colon : N := 58.
Definition c_lbracket : N := 91.
Definition c_backslash : N := 92.
Definition c_rbracket : N := 93.
Definition c_backtick : N := 96.
Definition c_lbrace : N := 123.
Definition c_rbrace : N := 125.
(** The curly quotation marks U+201C, U+201D, U+2018 and U+2019. *)
Definition c_ldquo : N := 8220.
Definition c_rdquo : N := 8221.
Definition c_lsquo : N := 8216.
Definition c_rsquo : N := 8217.

(** A double-quoted piece of text, and a line feed. *)
Definition dq : jsstring := [c_dquote].
Definition q (s : string) : jsstring := dq ++ js s ++ dq.
Definition nl : jsstring := [c_lf].

Definition str_eqb (a b : jsstring) : bool :=
  if list_eq_dec N.eq_dec a b then true else false.

(** [LineTerminator] of ECMA-262: LF, CR, U+2028, U+2029. The regular
    expression atom [.] (without the [s] flag) matches every code unit but
    these. *)
Definition is_line_terminator (c : N) : bool :=
  (c =? 10) || (c =? 13) || (c =? 8232) || (c =? 8233).

(** [WhiteSpace] and [LineTerminator] of ECMA-262: what [\s] matches and what
    [trim] strips. *)
Definition is_space (c : N) : bool :=
  (c =? 9) || (c =? 10) || (c =? 11) || (c =? 12) || (c =? 13) || (c =? 32)
  || (c =? 160) || (c =? 5760) || ((8192 <=? c) && (c <=? 8202))
  || (c =? 8232) || (c =? 8233) || (c =? 8239) || (c =? 8287)
  || (c =? 12288) || (c =? 65279).

(** Greedy [\s*]: the text after the leading run of white space. *)
Fixpoint skip_spaces (s : jsstring) : jsstring :=
  match s with
  | c :: s' => if is_space c then skip_spaces s' else s
  | [] => []
  end.

(** [s.trim()]. *)
Definition trim_start (s : jsstring) : jsstring := skip_spaces s.
Definition trim_end (s : jsstring) : jsstring := rev (skip_spaces (rev s)).
Definition trim (s : jsstring) : jsstring := trim_end (trim_start s).

(** [s.startsWith(p)], and the text after the prefix. *)
Fixpoint strip_prefix (p s : jsstring) : option jsstring :=
  match p, s with
  | [], _ => Some s
  | a :: p', b :: s' => if a =? b then strip_prefix p' s' else None
  | _ :: _, [] => None
  end.

(** [s.indexOf(c)] for a one-character needle; [None] stands for -1. *)
Fixpoint indexOf (c : N) (s : jsstring) : option nat :=
  match s with
  | [] => None
  | x :: s' => if x =? c then Some O else option_map S (indexOf c s')
  end.

(** [s.lastIndexOf(c)] for a one-character needle; [None] stands for -1. *)
Fixpoint lastIndexOf (c : N) (s : jsstring) : option nat :=
  match s with
  | [] => None
  | x :: s' =>
      match lastIndexOf c s' with
      | Some i => Some (S i)
      | None => if x =? c then Some O else None
      end
  end.

(** [s.slice(a, b)] for [0 <= a] and [0 <= b]. *)
Definition slice (a b : nat) (s : jsstring) : jsstring :=
  firstn (b - a) (skipn a s).

End Js.
Import Js.

(* ================================================================== *)
(** * JSON values and [JSON.parse] *)
(* ================================================================== *)

Module Json.

Local Open Scope N_scope.

(** The value [JSON.parse] builds. A number is kept as its lexeme: the
    IEEE-754 double it denotes is outside this embedding. An object is the
    list of its own properties in enumeration order. *)
Inductive json : Type :=
| JNull
| JBool (b : bool)
| JNumber (lexeme : jsstring)
| JString (s : jsstring)
| JArray (elems : list json)
| JObject (props : list (jsstring * json)).

(** The outcome of a parser run with a recursion budget. [OutOfFuel] is an
    artefact of the budget (excluded by [parse_value_fuel] below); [Err] is
    the [SyntaxError] of [JSON.parse]. *)
Inductive res (A : Type) : Type :=
| OutOfFuel
| Err
| Ok (a : A).
Arguments OutOfFuel {A}.
Arguments Err {A}.
Arguments Ok {A} a.

Definition bind {A B} (r : res A) (k : A -> res B) : res B :=
  match r with
  | OutOfFuel => OutOfFuel
  | Err => Err
  | Ok a => k a
  end.

Notation "'let*' x ':=' r 'in' k" := (bind r (fun x => k))
  (at level 10, x pattern, r at level 100, k at level 200).

(** JSON white space: tab, line feed, carriage return, space. *)
Definition is_json_ws (c : N) : bool :=
  (c =? 9) || (c =? 10) || (c =? 13) || (c =? 32).

Fixpoint skip_ws (s : jsstring) : jsstring :=
  match s with
  | c :: s' => if is_json_ws c then skip_ws s' else s
  | [] => []
  end.

Definition is_digit (c : N) : bool := (48 <=? c) && (c <=? 57).

(** The leading run of decimal digits, and what follows it. *)
Fixpoint span_digits (s : jsstring) : jsstring * jsstring :=
  match s with
  | c :: s' =>
      if is_digit c then let '(d, r) := span_digits s' in (c :: d, r)
      else ([], s)
  | [] => ([], [])
  end.

Definition hex_val (c : N) : option N :=
  if (48 <=? c) && (c <=? 57) then Some (c - 48)
  else if (97 <=? c) && (c <=? 102) then Some (c - 87)
  else if (65 <=? c) && (c <=? 70) then Some (c - 55)
  else None.

Definition hex4 (a b c d : N) : option N :=
  match hex_val a, hex_val b, hex_val c, hex_val d with
  | Some x, Some y, Some z, Some w => Some (((x * 16 + y) * 16 + z) * 16 + w)
  | _, _, _, _ => None
  end.

(** The character a single-character escape stands for: the escapes of the
    double quote, the backslash and the slash, and b, f, n, r, t. *)
Definition unescape (c : N) : option N :=
  if c =? 34 then Some 34
  else if c =? 92 then Some 92
  else if c =? 47 then Some 47
  else if c =? 98 then Some 8
  else if c =? 102 then Some 12
  else if c =? 110 then Some 10
  else if c =? 114 then Some 13
  else if c =? 116 then Some 9
  else None.

(** The characters of a JSON string after its opening quote, up to and
    including the closing quote: the string value and the rest of the text. *)
Fixpoint parse_string_chars (s : jsstring) : option (jsstring * jsstring) :=
  match s with
  | [] => None
  | c :: s' =>
      if c =? 34 then Some ([], s')
      else if c =? 92 then
        match s' with
        | [] => None
        | e :: s'' =>
            if e =? 117 then
              match s'' with
              | h1 :: h2 :: h3 :: h4 :: s3 =>
                  match hex4 h1 h2 h3 h4, parse_string_chars s3 with
                  | Some u, Some (str, rest) => Some (u :: str, rest)
                  | _, _ => None
                  end
              | _ => None
              end
            else
              match unescape e, parse_string_chars s'' with
              | Some u, Some (str, rest) => Some (u :: str, rest)
              | _, _ => None
              end
        end
      else if c <? 32 then None
      else
        match parse_string_chars s' with
        | Some (str, rest) => Some (c :: str, rest)
        | None => None
        end
  end.

(** A JSON number at the head of the text: its lexeme and the rest. *)
Definition parse_number (s : jsstring) : option (jsstring * jsstring) :=
  let '(sign, s1) :=
    match s with
    | c :: s' => if c =? 45 then ([c], s') else ([], s)
    | [] => ([], s)
    end in
  let '(int, s2) := span_digits s1 in
  match int with
  | [] => None
  | d :: ds =>
      if (d =? 48) && negb (match ds with [] => true | _ => false end) then
        (* a leading zero ends the integer part *)
        None
      else
        let frac :=
          match s2 with
          | c :: s' =>
              if c =? 46 then
                let '(fd, r) := span_digits s' in
                match fd with
                | [] => None
                | _ => Some (c :: fd, r)
                end
              else Some ([], s2)
          | [] => Some ([], s2)
          end in
        match frac with
        | None => None
        | Some (fr, s3) =>
            let expo :=
              match s3 with
              | c :: s' =>
                  if (c =? 101) || (c =? 69) then
                    let '(sg, s'') :=
                      match s' with
                      | x :: t =>
                          if (x =? 43) || (x =? 45) then ([x], t) else ([], s')
                      | [] => ([], s')
                      end in
                    let '(ed, r) := span_digits s'' in
                    match ed with
                    | [] => None
                    | _ => Some (c :: sg ++ ed, r)
                    end
                  else Some ([], s3)
              | [] => Some ([], s3)
              end in
            match expo with
            | None => None
            | Some (ex, s4) => Some (sign ++ int ++ fr ++ ex, s4)
            end
        end
  end.

(** An array index: the canonical decimal text of an integer below
    2^32 - 1. Own properties whose keys are array indices are enumerated
    first, in ascending order; the others follow in creation order. *)
Definition digits_value (ds : jsstring) : N :=
  fold_left (fun a c => a * 10 + (c - 48)) ds 0.

Definition array_index (k : jsstring) : option N :=
  match k with
  | [] => None
  | d :: ds =>
      if forallb is_digit k
         && (negb (d =? 48) || match ds with [] => true | _ => false end)
         && (Nat.leb (length k) 10)
         && (digits_value k <? 4294967295)
      then Some (digits_value k)
      else None
  end.

Definition props := list (jsstring * json).

Fixpoint has_key (k : jsstring) (o : props) : bool :=
  match o with
  | [] => false
  | (k', _) :: o' => str_eqb k k' || has_key k o'
  end.

Fixpoint replace_key (k : jsstring) (v : json) (o : props) : props :=
  match o with
  | [] => []
  | (k', v') :: o' =>
      if str_eqb k k' then (k', v) :: o' else (k', v') :: replace_key k v o'
  end.

(** Insert a new property with array index [i] at its place. *)
Fixpoint insert_index (i : N) (k : jsstring) (v : json) (o : props) : props :=
  match o with
  | [] => [(k, v)]
  | (k', v') :: o' =>
      match array_index k' with
      | Some j => if j <? i then (k', v') :: insert_index i k v o'
                  else (k, v) :: o
      | None => (k, v) :: o
      end
  end.

(** [CreateDataProperty(obj, k, v)]: a duplicate key overwrites the value and
    keeps its place. *)
Definition obj_set (k : jsstring) (v : json) (o : props) : props :=
  if has_key k o then replace_key k v o
  else match array_index k with
       | Some i => insert_index i k v o
       | None => o ++ [(k, v)]
       end.

(** [obj[k]]: the own property [k], if any. *)
Fixpoint obj_get (k : jsstring) (o : props) : option json :=
  match o with
  | [] => None
  | (k', v) :: o' => if str_eqb k k' then Some v else obj_get k o'
  end.

(** A string, a number or one of the three literals at the head of the
    text. *)
Definition parse_scalar (s : jsstring) : option (json * jsstring) :=
  match s with
  | [] => None
  | c :: s' =>
      if c =? 34 then
        match parse_string_chars s' with
        | Some (str, rest) => Some (JString str, rest)
        | None => None
        end
      else if is_digit c || (c =? 45) then
        match parse_number s with
        | Some (lexeme, rest) => Some (JNumber lexeme, rest)
        | None => None
        end
      else
        match strip_prefix (js "true") s with
        | Some rest => Some (JBool true, rest)
        | None =>
            match strip_prefix (js "false") s with
            | Some rest => Some (JBool false, rest)
            | None =>
                match strip_prefix (js "null") s with
                | Some rest => Some (JNull, rest)
                | None => None
                end
            end
        end
  end.

(** The JSON value grammar of ECMA-262 (sec. JSON.parse), by recursive
    descent. [parse_value] expects the value at the head of the text;
    [parse_elements] and [parse_members] expect the first character of an
    array element, resp. of a member's key. All return the rest of the
    text. *)
Fixpoint parse_value (fuel : nat) (s : jsstring) : res (json * jsstring) :=
  match fuel with
  | O => OutOfFuel
  | S fuel' =>
      match s with
      | [] => Err
      | c :: s' =>
          if c =? 123 then
            match skip_ws s' with
            | [] => Err
            | x :: r =>
                if x =? 125 then Ok (JObject [], r)
                else
                  let* (o, rest) := parse_members fuel' (skip_ws s') [] in
                  Ok (JObject o, rest)
            end
          else if c =? 91 then
            match skip_ws s' with
            | [] => Err
            | x :: r =>
                if x =? 93 then Ok (JArray [], r)
                else
                  let* (vs, rest) := parse_elements fuel' (skip_ws s') in
                  Ok (JArray vs, rest)
            end
          else
            match parse_scalar s with
            | Some r => Ok r
            | None => Err
            end
      end
  end

with parse_elements (fuel : nat) (s : jsstring) : res (list json * jsstring) :=
  match fuel with
  | O => OutOfFuel
  | S fuel' =>
      let* (v, r1) := parse_value fuel' s in
      match skip_ws r1 with
      | [] => Err
      | x :: r2 =>
          if x =? 44 then
            let* (vs, r3) := parse_elements fuel' (skip_ws r2) in
            Ok (v :: vs, r3)
          else if x =? 93 then Ok ([v], r2)
          else Err
      end
  end

with parse_members (fuel : nat) (s : jsstring) (acc : props)
  : res (props * jsstring) :=
  match fuel with
  | O => OutOfFuel
  | S fuel' =>
      match s with
      | [] => Err
      | c :: s1 =>
          if c =? 34 then
            match parse_string_chars s1 with
            | None => Err
            | Some (k, r1) =>
                match skip_ws r1 with
                | [] => Err
                | y :: r2 =>
                    if y =? 58 then
                      let* (v, r3) := parse_value fuel' (skip_ws r2) in
                      let acc' := obj_set k v acc in
                      match skip_ws r3 with
                      | [] => Err
                      | x :: r4 =>
                          if x =? 44 then
                            parse_members fuel' (skip_ws r4) acc'
                          else if x =? 125 then Ok (acc', r4)
                          else Err
                      end
                    else Err
                end
            end
          else Err
      end
  end.

(** The budget [JSON_parse] runs with; [parse_value_fuel] shows that it is
    never exhausted and that a larger one changes nothing. *)
Definition parse_fuel (text : jsstring) : nat := 2 * length text + 1.

(** [JSON.parse(text)] for a string [text]; [None] is a thrown
    [SyntaxError]. *)
Definition JSON_parse (text : jsstring) : option json :=
  match parse_value (parse_fuel text) (skip_ws text) with
  | Ok (v, rest) =>
      match skip_ws rest with
      | [] => Some v
      | _ :: _ => None
      end
  | _ => None
  end.

End Json.
Import Json.

(* ================================================================== *)
(** * The regular expressions of the two helpers *)
(* ================================================================== *)

Module Regex.

Local Open Scope N_scope.

(** The fence marker: three backticks. *)
Definition fence : jsstring := [c_backtick; c_backtick; c_backtick].

(** [json] under the [i] flag. Without the [u] flag a character above
    U+007F never folds to an ASCII letter, so only the eight ASCII letters
    match. *)
Definition match_json_ci (s : jsstring) : option jsstring :=
  match s with
  | j :: s0 :: o :: n :: rest =>
      if ((j =? 106) || (j =? 74)) && ((s0 =? 115) || (s0 =? 83))
         && ((o =? 111) || (o =? 79)) && ((n =? 110) || (n =? 78))
      then Some rest else None
  | _ => None
  end.

(** Does [\s*```] match at the head of the text? *)
Definition closes_fence (s : jsstring) : bool :=
  match strip_prefix fence (skip_spaces s) with
  | Some _ => true
  | None => false
  end.

(** [([\s\S]*?)\s*```] at the head of the text: the lazy group takes the
    shortest prefix after which [\s*```] matches. *)
Fixpoint lazy_until_fence (s : jsstring) : option jsstring :=
  if closes_fence s then Some []
  else match s with
       | [] => None
       | c :: s' => option_map (cons c) (lazy_until_fence s')
       end.

(** [re.exec(s)]: the match at the leftmost position that has one. *)
Fixpoint exec_first (A : Type) (m : jsstring -> option A) (s : jsstring)
  : option A :=
  match m s with
  | Some r => Some r
  | None =>
      match s with
      | [] => None
      | _ :: s' => exec_first m s'
      end
  end.

(** Group 1 of [/```json\s*([\s\S]*?)\s*```/i] matched at the head of
    the text. The greedy [\s*] takes the whole run of white space: giving
    some of it back only moves the group's start over white space and cannot
    turn a failure into a match. *)
Definition fencedJson_at (s : jsstring) : option jsstring :=
  match strip_prefix fence s with
  | None => None
  | Some s1 =>
      match match_json_ci s1 with
      | None => None
      | Some s2 => lazy_until_fence (skip_spaces s2)
      end
  end.

(** Group 1 of [/```\s*([\s\S]*?)\s*```/] matched at the head of the
    text. *)
Definition fencedAny_at (s : jsstring) : option jsstring :=
  match strip_prefix fence s with
  | None => None
  | Some s1 => lazy_until_fence (skip_spaces s1)
  end.

(** [s.replace(re, ...)] without the [g] flag: the leftmost match only. A
    matcher gives the replacement text and the text after the match. *)
Fixpoint replace_first (m : jsstring -> option (jsstring * jsstring))
  (s : jsstring) : jsstring :=
  match m s with
  | Some (repl, rest) => repl ++ rest
  | None =>
      match s with
      | [] => []
      | c :: s' => c :: replace_first m s'
      end
  end.

(** [s.replace(re, ...)] with the [g] flag: matches are looked for from left
    to right, each search resuming where the previous match ended. [skip]
    counts the characters of the current match still to be passed over;
    [at_start] tells index 0, where [^] matches. No expression used here
    matches the empty string. *)
Fixpoint replace_global_from
  (m : bool -> jsstring -> option (jsstring * jsstring))
  (at_start : bool) (skip : nat) (s : jsstring) : jsstring :=
  match s with
  | [] => []
  | c :: s' =>
      match skip with
      | S k => replace_global_from m false k s'
      | O =>
          match m at_start s with
          | Some (repl, rest) =>
              repl ++ replace_global_from m false
                        (List.length s - List.length rest - 1) s'
          | None => c :: replace_global_from m false O s'
          end
      end
  end.

Definition replace_global
  (m : bool -> jsstring -> option (jsstring * jsstring)) (s : jsstring)
  : jsstring :=
  replace_global_from m true O s.

(** [/```\s*json/i], replaced by three backticks. *)
Definition fence_hint_at (s : jsstring) : option (jsstring * jsstring) :=
  match strip_prefix fence s with
  | None => None
  | Some s1 =>
      match match_json_ci (skip_spaces s1) with
      | None => None
      | Some rest => Some (fence, rest)
      end
  end.

(** [/```/g], replaced by the empty string. *)
Definition fence_at (_ : bool) (s : jsstring) : option (jsstring * jsstring) :=
  match strip_prefix fence s with
  | None => None
  | Some rest => Some ([], rest)
  end.

(** The text after the first occurrence of [p]. *)
Fixpoint after_first (p s : jsstring) : option jsstring :=
  match strip_prefix p s with
  | Some r => Some r
  | None =>
      match s with
      | [] => None
      | _ :: s' => after_first p s'
      end
  end.

(** [/\/\*[\s\S]*?\*\//g], replaced by the empty string: from an
    opening marker to the first closing marker after it. *)
Definition block_comment_at (_ : bool) (s : jsstring)
  : option (jsstring * jsstring) :=
  match strip_prefix [c_slash; c_star] s with
  | None => None
  | Some s1 =>
      match after_first [c_star; c_slash] s1 with
      | None => None
      | Some rest => Some ([], rest)
      end
  end.

(** Greedy [.*]: the text from the first line terminator on. *)
Fixpoint skip_line (s : jsstring) : jsstring :=
  match s with
  | c :: s' => if is_line_terminator c then s else skip_line s'
  | [] => []
  end.

(** [/(^|[^:\\])\/\/.*/g], replaced by group 1. The alternative [^] is
    tried first and matches at index 0 only (no [m] flag); the class matches
    any one character, line terminators included, but the colon and the
    backslash. *)
Definition line_comment_at (at_start : bool) (s : jsstring)
  : option (jsstring * jsstring) :=
  match (if at_start then strip_prefix [c_slash; c_slash] s else None) with
  | Some s1 => Some ([], skip_line s1)
  | None =>
      match s with
      | [] => None
      | c :: s' =>
          if (c =? c_colon) || (c =? c_backslash) then None
          else match strip_prefix [c_slash; c_slash] s' with
               | Some s1 => Some ([c], skip_line s1)
               | None => None
               end
      end
  end.

(** [/,\s*([}\]])/g], replaced by group 1. *)
Definition trailing_comma_at (_ : bool) (s : jsstring)
  : option (jsstring * jsstring) :=
  match s with
  | c :: s' =>
      if c =? c_comma then
        match skip_spaces s' with
        | x :: rest =>
            if (x =? c_rbrace) || (x =? c_rbracket) then Some ([x], rest)
            else None
        | [] => None
        end
      else None
  | [] => None
  end.

(** The class of U+201C and U+201D, replaced under [g] by the ASCII double
    quote, then the class of U+2018 and U+2019, replaced by the ASCII
    apostrophe. *)
Definition straighten (c : N) : N :=
  if (c =? c_ldquo) || (c =? c_rdquo) then c_dquote
  else if (c =? c_lsquo) || (c =? c_rsquo) then c_squote
  else c.

(** A matcher consumes at least one character and returns what follows its
    match. *)
Definition shrinking (m : bool -> jsstring -> option (jsstring * jsstring))
  : Prop :=
  forall st s repl rest,
    m st s = Some (repl, rest) -> exists pre, pre <> [] /\ s = pre ++ rest.


(** [p] occurs in [s]. *)
Definition occurs (p s : jsstring) : Prop :=
  exists pre suf, s = pre ++ p ++ suf.

(** In [a] every two slashes follow a colon or a backslash; when [a] opens
    the text, where [^] matches, it does not open with two slashes. These
    are the slashes that [/(^|[^:\\])\/\/.*/] passes over. *)
Definition slashes_protected (at_start : bool) (a : jsstring) : Prop :=
  (forall pre x suf,
      a = pre ++ x :: c_slash :: c_slash :: suf ->
      x = c_colon \/ x = c_backslash)
  /\ (at_start = true -> forall suf, a <> c_slash :: c_slash :: suf).

(** [s'] is [s] without some of its commas that white space and a closing
    brace or bracket follow, and without that white space. *)
Inductive commas_removed : jsstring -> jsstring -> Prop :=
| commas_removed_nil : commas_removed [] []
| commas_removed_keep c s s' :
    commas_removed s s' -> commas_removed (c :: s) (c :: s')
| commas_removed_drop ws x s s' :
    Forall (fun c => is_space c = true) ws ->
    x = c_rbrace \/ x = c_rbracket ->
    commas_removed s s' ->
    commas_removed (c_comma :: ws ++ x :: s) (x :: s').


End Regex.
Import Regex.

(* ================================================================== *)
(** * The helpers [extractJsonFromText] and [sanitizeJsonString] *)
(* ================================================================== *)

Module Helpers.

Local Open Scope N_scope.

(** One iteration of the brace-counting loop on character [ch]: the new
    [inString] and [depth]. *)
Definition scan_step (ch : N) (depth : Z) (inString : bool)
  (lastChar : option N) : Z * bool :=
  let inString' :=
    if (ch =? c_dquote)
       && negb (match lastChar with
                | Some l => l =? c_backslash
                | None => false
                end)
    then negb inString else inString in
  let depth' :=
    if inString' then depth
    else if ch =? c_lbrace then (depth + 1)%Z
    else if ch =? c_rbrace then (depth - 1)%Z
    else depth in
  (depth', inString').

(** The loop [for (; i < s.length; i++)] of [extractJsonFromText], on the
    text from index [i] on: the index at which it returns, if it does. *)
Fixpoint scan (s : jsstring) (i firstBrace : nat) (depth : Z)
  (inString : bool) (lastChar : option N) : option nat :=
  match s with
  | [] => None
  | ch :: s' =>
      let '(depth', inString') := scan_step ch depth inString lastChar in
      if (depth' =? 0)%Z && (firstBrace <? i)%nat then Some i
      else scan s' (S i) firstBrace depth' inString' (Some ch)
  end.

(** The variables [depth], [inString] and [lastChar] of the loop after it
    has gone through the characters of [s] without returning. *)
Fixpoint scan_state (s : jsstring) (depth : Z) (inString : bool)
  (lastChar : option N) : Z * bool * option N :=
  match s with
  | [] => (depth, inString, lastChar)
  | ch :: s' =>
      let '(depth', inString') := scan_step ch depth inString lastChar in
      scan_state s' depth' inString' (Some ch)
  end.





(** The same as a proposition: a run of an even number of backslashes, two
    at least, that stands before a double quote follows a backslash. *)
Definition quotes_scanned (t : jsstring) : Prop :=
  forall pre x k suf,
    t = pre ++ x :: repeat c_backslash (2 * k + 2) ++ c_dquote :: suf ->
    x = c_backslash.




Definition fencedJson (s : jsstring) : option jsstring :=
  exec_first fencedJson_at s.

Definition fencedAny (s : jsstring) : option jsstring :=
  exec_first fencedAny_at s.

(** The third strategy of [extractJsonFromText]. *)
Definition braceScan (s : jsstring) : option jsstring :=
  match indexOf c_lbrace s with
  | None => None
  | Some firstBrace =>
      match scan (skipn firstBrace s) firstBrace firstBrace 0%Z false None with
      | Some i => Some (trim (slice firstBrace (i + 1) s))
      | None => None
      end
  end.

(** [extractJsonFromText(s)] for a string [s]; [None] is [null]. A group
    that matched the empty string is falsy and lets the next strategy run. *)
Definition extractJsonFromText (s : jsstring) : option jsstring :=
  match s with
  | [] => None
  | _ :: _ =>
      match fencedJson s with
      | Some (c :: g) => Some (trim (c :: g))
      | _ =>
          match fencedAny s with
          | Some (c :: g) => Some (trim (c :: g))
          | _ => braceScan s
          end
      end
  end.

(** [sanitizeJsonString(s)] for a string [s]. *)
Definition sanitizeJsonString (s : jsstring) : jsstring :=
  match s with
  | [] => s
  | _ :: _ =>
      let out := trim s in
      let out := replace_first fence_hint_at out in
      let out := replace_global fence_at out in
      let out := map straighten out in
      let out := replace_global block_comment_at out in
      let out := replace_global line_comment_at out in
      let out := replace_global trailing_comma_at out in
      trim out
  end.

End Helpers.
Import Helpers.

(* ================================================================== *)
(** * The request handlers *)
(* ================================================================== *)

Module Handlers.

Local Open Scope N_scope.

(** What is appended to [logs/ai_responses.log]; the time stamp and the
    error message of the entry are left out. *)
Inductive log_entry : Type :=
| ExtractedParseFailure (original extracted sanitized : jsstring)
| JsonParseError (output : jsstring).

(** The calls a handler makes, in the order it makes them. *)
Inductive event : Type :=
| GenerateContent (prompt : jsstring)
| JsonParse (text : jsstring)
| ExtractJson (text : jsstring)
| SanitizeJson (text : jsstring)
| AppendLog (entry : log_entry).

(** A computation that records its calls. *)
Definition M (A : Type) : Type := (list event * A)%type.

Definition ret (A : Type) (a : A) : M A := ([], a).

Definition bindM (A B : Type) (m : M A) (k : A -> M B) : M B :=
  let '(t1, a) := m in
  let '(t2, b) := k a in
  (t1 ++ t2, b).

Notation "x <- m ;; k" := (bindM m (fun x => k))
  (at level 61, m at next level, right associativity).
Notation "m ;;; k" := (bindM m (fun _ => k))
  (at level 61, right associativity).

Definition trace (A : Type) (m : M A) : list event := fst m.
Definition value (A : Type) (m : M A) : A := snd m.

Definition jsonParse (text : jsstring) : M (option json) :=
  ([JsonParse text], JSON_parse text).

Definition extractJson (text : jsstring) : M (option jsstring) :=
  ([ExtractJson text], extractJsonFromText text).

Definition sanitizeJson (text : jsstring) : M jsstring :=
  ([SanitizeJson text], sanitizeJsonString text).

Definition appendLog (e : log_entry) : M unit := ([AppendLog e], tt).

(** The provider: [None] when any of [getGenerativeModel],
    [generateContent], [result.response] or [response.text()] throws. *)
Definition provider : Type := jsstring -> option jsstring.

Definition generateContent (model : provider) (prompt : jsstring)
  : M (option jsstring) :=
  ([GenerateContent prompt], model prompt).

Record response : Type := { status : nat; body : json }.

Definition error (msg : string) : json :=
  JObject [(js "error", JString (js msg))].

(** The error responses of [server.js]. *)
Definition server_not_configured : response :=
  {| status := 503;
     body := error ("AI service not configured. "
                    ++ "Please set GEMINI_API_KEY on the server.") |}.

Definition server_failure : response :=
  {| status := 500;
     body := error "Failed to generate itinerary. Please try again." |}.

(** The error responses of [generate.js]. *)
Definition method_not_allowed : response :=
  {| status := 405; body := error "Method not allowed" |}.

Definition function_not_configured : response :=
  {| status := 503;
     body := error "AI service not configured. Set GEMINI_API_KEY." |}.

Definition function_failure : response :=
  {| status := 500; body := error "Internal server error" |}.

(** [{ itinerary: text, places: [] }]. *)
Definition fallback (text : jsstring) : json :=
  JObject [(js "itinerary", JString text); (js "places", JArray [])].

(** The retry of both cascades: the text from the first opening brace to
    the last closing brace, when the latter comes after the former. *)
Definition outerBraces (sanitized : jsstring) : option jsstring :=
  match indexOf c_lbrace sanitized, lastIndexOf c_rbrace sanitized with
  | Some first, Some last =>
      if (first <? last)%nat then Some (slice first (last + 1) sanitized)
      else None
  | _, _ => None
  end.

Section Engine.

(** Whether [JSON.stringify(v)], which [res.json(v)] calls, returns: it
    throws a [RangeError] for a value nested deeper than the call stack
    allows, and for one whose text would be longer than the longest string.
    Where the limits are depends on the engine; the test is taken as
    given. *)
Variable serialises : json -> bool.

(** A step of a cascade, [try { parsed = JSON.parse(t); return
    res.json(parsed) } catch ...]: the value when the text parses and the
    value is serialised, nothing when either of the two throws. *)
Definition accepted (parsed : option json) : option json :=
  match parsed with
  | Some v => if serialises v then Some v else None
  | None => None
  end.

(** The cascade of [server.js] (lines 138-188) on the provider's text: the
    value that is handed to [res.json] last. *)
Definition server_cascade (text : jsstring) : M json :=
  parsed <- jsonParse text ;;
  match accepted parsed with
  | Some v => ret v
  | None =>
      maybe <- extractJson text ;;
      early <-
        match maybe with
        | Some (c :: m) =>
            let maybe := c :: m in
            sanitized <- sanitizeJson maybe ;;
            parsed2 <- jsonParse sanitized ;;
            match accepted parsed2 with
            | Some v => ret (Some v)
            | None =>
                parsed3 <-
                  match outerBraces sanitized with
                  | Some candidate => jsonParse candidate
                  | None => ret None
                  end ;;
                match accepted parsed3 with
                | Some v => ret (Some v)
                | None =>
                    appendLog (ExtractedParseFailure
                                 (slice 0 2000 text) (slice 0 2000 maybe)
                                 (slice 0 2000 sanitized)) ;;;
                    ret None
                end
            end
        | _ => ret None
        end ;;
      match early with
      | Some v => ret v
      | None =>
          appendLog (JsonParseError (slice 0 2000 text)) ;;;
          ret (fallback text)
      end
  end.

(** The cascade of [netlify/functions/generate.js] (lines 71-94): the
    value that is handed to [JSON.stringify] last. *)
Definition netlify_cascade (text : jsstring) : M json :=
  parsed <- jsonParse text ;;
  match accepted parsed with
  | Some v => ret v
  | None =>
      maybe <- extractJson text ;;
      early <-
        match maybe with
        | Some (c :: m) =>
            sanitized <- sanitizeJson (c :: m) ;;
            parsed2 <- jsonParse sanitized ;;
            match accepted parsed2 with
            | Some v => ret (Some v)
            | None =>
                parsed3 <-
                  match outerBraces sanitized with
                  | Some candidate => jsonParse candidate
                  | None => ret None
                  end ;;
                ret (accepted parsed3)
            end
        | _ => ret None
        end ;;
      match early with
      | Some v => ret v
      | None => ret (fallback text)
      end
  end.

(** The two deployments of the pipeline. *)
Inductive deployment : Type := Server | Netlify.

Definition cascade (d : deployment) (text : jsstring) : M json :=
  match d with
  | Server => server_cascade text
  | Netlify => netlify_cascade text
  end.

(** The result of the response-recovery pipeline. *)
Definition pipeline (d : deployment) (text : jsstring) : json :=
  value (cascade d text).

(** The double a number lexeme denotes is not modelled; its two
    observations used by a template literal are taken as given:
    [ToString] of the number and whether it is zero. *)
Variable number_to_string : jsstring -> jsstring.
Variable number_is_zero : jsstring -> bool.

(** [ToBoolean(v)]. *)
Definition truthy (v : json) : bool :=
  match v with
  | JNull => false
  | JBool b => b
  | JNumber lexeme => negb (number_is_zero lexeme)
  | JString s => match s with [] => false | _ :: _ => true end
  | JArray _ => true
  | JObject _ => true
  end.

(** [ToString(v)]; [None] is a thrown [TypeError]. An object goes through
    [OrdinaryToPrimitive]: with an own property [toString], which a value
    built by [JSON.parse] never has as a function, neither [toString] nor
    [valueOf] gives a primitive and the conversion throws; without one it
    is the text of [Object.prototype.toString]. An array is joined with
    commas, [null] elements being empty and the others converted in
    turn. *)
Fixpoint to_string (v : json) : option jsstring :=
  match v with
  | JNull => Some (js "null")
  | JBool true => Some (js "true")
  | JBool false => Some (js "false")
  | JNumber lexeme => Some (number_to_string lexeme)
  | JString s => Some s
  | JArray l =>
      (fix join (l : list json) : option jsstring :=
         match l with
         | [] => Some []
         | x :: l' =>
             match match x with JNull => Some [] | _ => to_string x end with
             | None => None
             | Some first =>
                 match l' with
                 | [] => Some first
                 | _ :: _ =>
                     match join l' with
                     | None => None
                     | Some rest => Some (first ++ c_comma :: rest)
                     end
                 end
             end
         end) l
  | JObject o =>
      if has_key (js "toString") o then None
      else Some (js "[object Object]")
  end.

(** [${v}] for a destructured field, [undefined] when absent. *)
Definition interpolate (v : option json) : option jsstring :=
  match v with
  | Some x => to_string x
  | None => Some (js "undefined")
  end.

(** [${v || d}]. *)
Definition or_default (v : option json) (d : jsstring) : option jsstring :=
  match v with
  | Some x => if truthy x then to_string x else Some d
  | None => Some d
  end.

(** The five substitutions of both template literals, in the order in
    which they are evaluated; [None] when one of them throws. *)
Definition substitutions (field : string -> option json)
  : option (jsstring * jsstring * jsstring * jsstring * jsstring) :=
  match or_default (field "startCity"%string) (js "Not specified"),
        interpolate (field "destination"%string),
        interpolate (field "dates"%string),
        interpolate (field "interests"%string),
        interpolate (field "style"%string) with
  | Some a, Some b, Some c, Some d, Some e => Some (a, b, c, d, e)
  | _, _, _, _, _ => None
  end.

(** The template literal of [server.js] (lines 49-68). *)
Definition server_prompt (field : string -> option json) : option jsstring :=
  match substitutions field with
  | None => None
  | Some (startCity, destination, dates, interests, style) =>
  Some (concat
    [ nl;
      js "      You are an expert travel planner. Generate a personali";
      js "zed, day-wise travel itinerary and a list of recommended pla";
      js "ces with addresses based on the following user preferences.";
      nl;
      js "      ";
      nl;
      js "      User Inputs:";
      nl;
      js "      Start City: ";
      startCity;
      nl;
      js "      Destination: ";
      destination;
      nl;
      js "      Travel Dates: ";
      dates;
      nl;
      js "      Interests: ";
      interests;
      nl;
      js "      Travel Style: ";
      style;
      nl;
      nl;
      js "      Your Task:";
      nl;
      js "      1) Create a clear day-wise itinerary as Markdown in th";
      js "e field ";
      dq;
      js "itinerary";
      dq;
      js ". Use the start city in Day 0 or Day 1 travel notes or trans";
      js "it suggestions where appropriate.";
      nl;
      js "      2) Produce a ";
      dq;
      js "places";
      dq;
      js " array containing recommended attractions. Each place must i";
      js "nclude these fields: name (string), address (string), short_";
      js "description (string), image (url or empty string), rating (n";
      js "umber from 0 to 5 or null), latitude (number or null), longi";
      js "tude (number or null).";
      nl;
      nl;
      js "      Output Requirements:";
      nl;
      js "      - RETURN ONLY a single valid JSON object, with exactly";
      js " two keys: ";
      dq;
      js "itinerary";
      dq;
      js " and ";
      dq;
      js "places";
      dq;
      js ".";
      nl;
      js "      - ";
      dq;
      js "itinerary";
      dq;
      js " should be a Markdown string (may contain headings, lists, t";
      js "ips).";
      nl;
      js "      - ";
      dq;
      js "places";
      dq;
      js " should be an array of objects as described above.";
      nl;
      js "      - Do not include any extra commentary or text outside ";
      js "the JSON.";
      nl;
      js "    " ])
  end.

(** The template literal of [generate.js] (line 63). *)
Definition netlify_prompt (field : string -> option json) : option jsstring :=
  match substitutions field with
  | None => None
  | Some (startCity, destination, dates, interests, style) =>
  Some (concat
    [ js "You are an expert travel planner. Generate a personalized, d";
      js "ay-wise travel itinerary and a list of recommended places wi";
      js "th addresses based on the following user preferences.";
      nl;
      js "Start City: ";
      startCity;
      nl;
      js "Destination: ";
      destination;
      nl;
      js "Travel Dates: ";
      dates;
      nl;
      js "Interests: ";
      interests;
      nl;
      js "Travel Style: ";
      style;
      nl;
      nl;
      js "Output: Return a single valid JSON object with keys ";
      dq;
      js "itinerary";
      dq;
      js " (Markdown string) and ";
      dq;
      js "places";
      dq;
      js " (array of {name,address,short_description,image,rating,lati";
      js "tude,longitude})." ])
  end.

(** The fields that [const { startCity, ... } = body] reads from a value
    other than [undefined] and [null]: the own properties of an object;
    an array, a string, a number and a boolean have none of the five. *)
Definition fields_of (b : json) (k : string) : option json :=
  match b with
  | JObject o => obj_get (js k) o
  | _ => None
  end.

(** What a handler does with the provider's text: the cascade, then the
    response, which is serialised last; when that throws, as the fallback
    can for a text too long to be written, the outer [catch] answers. *)
Definition respond (d : deployment) (failure : response) (text : jsstring)
  : M response :=
  v <- cascade d text ;;
  ret (if serialises v then {| status := 200; body := v |} else failure).

(** [app.post('/generate', ...)] of [server.js]. [reqBody] is [req.body]:
    [None] when it is [undefined], as it is for a request without a JSON
    body in Express 5. The destructuring of line 42 comes first and throws
    on [undefined] and [null]; the test of the client follows, then the
    template literal. *)
Definition server_handler (genAI : option provider) (reqBody : option json)
  : M response :=
  match reqBody with
  | None | Some JNull => ret server_failure
  | Some b =>
      match genAI with
      | None => ret server_not_configured
      | Some model =>
          match server_prompt (fields_of b) with
          | None => ret server_failure
          | Some prompt =>
              text <- generateContent model prompt ;;
              match text with
              | None => ret server_failure
              | Some text => respond Server server_failure text
              end
          end
      end
  end.

(** The event a Netlify function receives; [eventBody] is [None] for a
    body that is [null] or [undefined]. *)
Record Event : Type := { httpMethod : jsstring; eventBody : option jsstring }.

(** [exports.handler] of [generate.js]. The body of a 200 response is the
    value that [JSON.stringify] serialises. *)
Definition handler (genAI : option provider) (event : Event) : M response :=
  if negb (str_eqb (httpMethod event) (js "POST")) then
    ret method_not_allowed
  else
    match genAI with
    | None => ret function_not_configured
    | Some model =>
        parsedBody <-
          jsonParse (match eventBody event with
                     | Some (c :: b) => c :: b
                     | _ => js "{}"
                     end) ;;
        match parsedBody with
        | None => ret function_failure
        | Some JNull => ret function_failure
        | Some b =>
            match netlify_prompt (fields_of b) with
            | None => ret function_failure
            | Some prompt =>
                text <- generateContent model prompt ;;
                match text with
                | None => ret function_failure
                | Some text => respond Netlify function_failure text
                end
            end
        end
    end.

End Engine.

End Handlers.
Import Handlers.

(* ================================================================== *)
(** * The pipeline as the specification words it *)
(* ================================================================== *)

Module Spec.

(** The ItineraryResult shape: an object whose [itinerary] is a string and
    whose [places] is an array. *)
Definition is_itinerary_result (v : json) : bool :=
  match v with
  | JObject o =>
      match obj_get (js "itinerary") o, obj_get (js "places") o with
      | Some (JString _), Some (JArray _) => true
      | _, _ => false
      end
  | _ => false
  end.


(** Steps 2 and 3: the interior of a fence labelled json, else the interior
    of any fence, else the balanced-brace scan. An empty interior counts as
    no interior. *)
Definition interior (g : option jsstring) : option jsstring :=
  match g with
  | Some (c :: g') => Some (c :: g')
  | _ => None
  end.

Definition candidate (text : jsstring) : option jsstring :=
  match interior (fencedJson text) with
  | Some g => Some g
  | None =>
      match interior (fencedAny text) with
      | Some g => Some g
      | None => braceScan text
      end
  end.

(** The texts handed to the parser, in order: the raw text (step 1), the
    sanitized candidate (steps 4 and 5), its outer braces (step 6). [None]
    is a strategy that does not apply. *)
Definition strategies (text : jsstring) : list (option jsstring) :=
  [ Some text;
    option_map sanitizeJsonString (candidate text);
    match candidate text with
    | Some c => outerBraces (sanitizeJsonString c)
    | None => None
    end ].

Section Engine.

Variable serialises : json -> bool.

(** Try the texts in order and stop at the first success, a text that
    parses to a value that is serialised: the texts tried and the value
    found. *)
Fixpoint first_success (l : list (option jsstring))
  : list jsstring * option json :=
  match l with
  | [] => ([], None)
  | None :: l' => first_success l'
  | Some c :: l' =>
      match accepted serialises (JSON_parse c) with
      | Some v => ([c], Some v)
      | None => let '(tried, r) := first_success l' in (c :: tried, r)
      end
  end.

(** Step 7: the fallback when nothing succeeded. *)
Definition recover (text : jsstring) : json :=
  match snd (first_success (strategies text)) with
  | Some v => v
  | None => fallback text
  end.

End Engine.

(** The texts a run handed to [JSON.parse], in order. *)
Fixpoint parse_attempts (t : list event) : list jsstring :=
  match t with
  | [] => []
  | JsonParse s :: t' => s :: parse_attempts t'
  | _ :: t' => parse_attempts t'
  end.

End Spec.
Import Spec.


(* ================================================================== *)
(** * Texts and values the claims name *)
(* ================================================================== *)

Module Examples.

(** An object text with the two keys [itinerary] and [places], the latter an
    empty array, and the value it denotes. *)
Definition result_json (itinerary : jsstring) : jsstring :=
  js "{" ++ q "itinerary" ++ js ":" ++ dq ++ itinerary ++ dq ++ js ","
    ++ q "places" ++ js ":[]}".

Definition result (itinerary : jsstring) : json :=
  JObject [(js "itinerary", JString itinerary); (js "places", JArray [])].

(** Prose, then a fence labelled json around the Day 1 object. *)
Definition fenced_plan : jsstring :=
  js "Here is your plan:" ++ nl ++ fence ++ js "json" ++ nl
    ++ result_json (js "Day 1") ++ nl ++ fence ++ nl.


(** An object with an [itinerary] and no [places]. *)
Definition itinerary_only : jsstring :=
  js "{" ++ q "itinerary" ++ js ":" ++ q "Day 1" ++ js "}".




(** Prose before an object whose string value ends with an escaped
    backslash. *)
Definition path_c_json : jsstring :=
  result_json (js "Path C:" ++ [c_backslash; c_backslash]).

Definition path_c : jsstring := js "Here is your plan: " ++ path_c_json.




(** An object whose [image] is a protocol-relative URL, and one whose
    [note] holds a block comment. *)
Definition cdn_image : jsstring :=
  js "{" ++ q "image" ++ js ":" ++ q "//cdn.example.com/a.png" ++ js "}".

Definition note_comment : jsstring :=
  js "{" ++ q "note" ++ js ":" ++ q "a /* b */ c" ++ js "}".








(** An object with a URL and, after it, a value that opens with two
    slashes. *)
Definition url_then_cdn : jsstring :=
  js "{" ++ q "site" ++ js ":" ++ q "http://a.b/c" ++ js "," ++ q "image"
    ++ js ":" ++ q "//cdn.example.com/a.png" ++ js "}".

(** Two line comments on two lines. *)
Definition two_comments : jsstring :=
  js "{ // one" ++ nl ++ q "a" ++ js ":1 // two" ++ nl ++ js "}".


(** A request body whose [destination] is an object with a property
    [toString]. *)
Definition destination_object : json :=
  JObject [(js "destination", JObject [(js "toString", JNull)])].

(** The depth of the arrays and objects of a value. *)
Fixpoint depth (v : json) : nat :=
  match v with
  | JArray l =>
      S ((fix deepest (l : list json) : nat :=
            match l with
            | [] => O
            | x :: l' => Nat.max (depth x) (deepest l')
            end) l)
  | JObject o =>
      S ((fix deepest (o : props) : nat :=
            match o with
            | [] => O
            | (_, x) :: o' => Nat.max (depth x) (deepest o')
            end) o)
  | _ => O
  end.

(** An engine that serialises the values nested no deeper than [n]; one
    with [n = 100], which every engine goes beyond, stands for the engine
    in the examples. *)
Definition within_depth (n : nat) (v : json) : bool := Nat.leb (depth v) n.

Definition engine : json -> bool := within_depth 100.

(** The identity and the constant false, for the two observations of a
    number that the prompts take as given. *)
Definition lexeme_text (lexeme : jsstring) : jsstring := lexeme.
Definition never_zero (_ : jsstring) : bool := false.



(** The prompt of [server.js] for a request whose body is the empty
    object. *)
Definition empty_request_prompt : jsstring :=
  match server_prompt lexeme_text never_zero (fields_of (JObject [])) with
  | Some prompt => prompt
  | None => []
  end.

End Examples.
Import Examples.

(* ================================================================== *)
(** * [JSON.stringify] and the request of the frontend *)
(* ================================================================== *)

Module Stringify.

Local Open Scope N_scope.

(** A lowercase hexadecimal digit. *)
Definition hexdigit (d : N) : N := if d <? 10 then 48 + d else 87 + d.

(** [UnicodeEscape(c)]: a backslash, the letter u and four hexadecimal
    digits. *)
Definition unicode_escape (c : N) : jsstring :=
  [ c_backslash; 117; hexdigit (c / 4096); hexdigit ((c / 256) mod 16);
    hexdigit ((c / 16) mod 16); hexdigit (c mod 16) ].

(** The characters that have a two-character escape: backspace, tab, line
    feed, form feed, carriage return, the double quote and the backslash. *)
Definition short_escape (c : N) : option N :=
  if c =? 8 then Some 98
  else if c =? 9 then Some 116
  else if c =? 10 then Some 110
  else if c =? 12 then Some 102
  else if c =? 13 then Some 114
  else if c =? 34 then Some 34
  else if c =? 92 then Some 92
  else None.

Definition is_high_surrogate (c : N) : bool := (55296 <=? c) && (c <=? 56319).
Definition is_low_surrogate (c : N) : bool := (56320 <=? c) && (c <=? 57343).

(** The body of [QuoteJSONString]: the text is read by code points, so that
    a surrogate pair is kept and a lone surrogate is escaped. *)
Fixpoint quote_chars (s : jsstring) : jsstring :=
  match s with
  | [] => []
  | c :: s' =>
      match short_escape c with
      | Some e => c_backslash :: e :: quote_chars s'
      | None =>
          if c <? 32 then unicode_escape c ++ quote_chars s'
          else if is_high_surrogate c then
            match s' with
            | d :: s'' =>
                if is_low_surrogate d then c :: d :: quote_chars s''
                else unicode_escape c ++ quote_chars s'
            | [] => unicode_escape c
            end
          else if is_low_surrogate c then unicode_escape c ++ quote_chars s'
          else c :: quote_chars s'
      end
  end.

(** [QuoteJSONString(s)]. *)
Definition quote (s : jsstring) : jsstring :=
  c_dquote :: quote_chars s ++ [c_dquote].

(** The texts of a list joined by commas. *)
Fixpoint join_commas (l : list jsstring) : jsstring :=
  match l with
  | [] => []
  | [x] => x
  | x :: l' => x ++ c_comma :: join_commas l'
  end.

Section Numbers.

(** What [JSON.stringify] writes for the number a lexeme denotes: its
    [ToString] when it is finite, [null] otherwise. The double itself is
    not modelled. *)
Variable number_to_json : jsstring -> jsstring.

(** [JSON.stringify(v)] of a value built by [JSON.parse] or by an object
    literal of such values, without indentation: the text it writes when
    it returns. Whether it returns is the engine's [serialises]. *)
Fixpoint JSON_stringify (v : json) : jsstring :=
  match v with
  | JNull => js "null"
  | JBool true => js "true"
  | JBool false => js "false"
  | JNumber lexeme => number_to_json lexeme
  | JString s => quote s
  | JArray l =>
      c_lbracket
        :: join_commas
             ((fix each (l : list json) : list jsstring :=
                 match l with
                 | [] => []
                 | x :: l' => JSON_stringify x :: each l'
                 end) l)
        ++ [c_rbracket]
  | JObject o =>
      c_lbrace
        :: join_commas
             ((fix each (o : props) : list jsstring :=
                 match o with
                 | [] => []
                 | (k, x) :: o' =>
                     (quote k ++ c_colon :: JSON_stringify x) :: each o'
                 end) o)
        ++ [c_rbrace]
  end.

(** What [JSON.stringify] writes for one property of an object. *)
Definition member_text (kv : jsstring * json) : jsstring :=
  quote (fst kv) ++ c_colon :: JSON_stringify (snd kv).

(** The parser on the text written for a value gives the value back and
    stops where that text ends, whatever follows it and with any budget
    from some budget on. *)
Definition reads_back (v : json) : Prop :=
  forall rest,
    exists n, forall m, (n <= m)%nat ->
      parse_value m (JSON_stringify v ++ rest) = Ok (v, rest).

(** The text a handler sends: [res.json(body)] and
    [JSON.stringify(body)]. *)
Definition response_text (r : response) : jsstring :=
  JSON_stringify (body r).

End Numbers.

(** A value without numbers. *)
Fixpoint number_free (v : json) : Prop :=
  match v with
  | JNumber _ => False
  | JArray l =>
      (fix all (l : list json) : Prop :=
         match l with
         | [] => True
         | x :: l' => number_free x /\ all l'
         end) l
  | JObject o =>
      (fix all (o : props) : Prop :=
         match o with
         | [] => True
         | (_, x) :: o' => number_free x /\ all o'
         end) o
  | _ => True
  end.

(** The object that defining the properties of [o] one after the other
    builds. *)
Definition obj_build (o : props) : props :=
  fold_left (fun acc kv => obj_set (fst kv) (snd kv) acc) o [].

(** A value whose objects list their properties as an object lists them:
    building an object from the list gives the list. *)
Fixpoint canonical (v : json) : Prop :=
  match v with
  | JArray l =>
      (fix all (l : list json) : Prop :=
         match l with
         | [] => True
         | x :: l' => canonical x /\ all l'
         end) l
  | JObject o =>
      obj_build o = o
      /\ (fix all (o : props) : Prop :=
            match o with
            | [] => True
            | (_, x) :: o' => canonical x /\ all o'
            end) o
  | _ => True
  end.

(** A character that is no JSON white space and closes neither an array
    nor an object. *)
Definition opens_value (c : N) : Prop :=
  is_json_ws c = false /\ c <> 93 /\ c <> 125.

(** The key [k] is no array index or an index above [i]. *)
Definition index_after (i : N) (k : jsstring) : Prop :=
  match array_index k with
  | Some j => i < j
  | None => True
  end.

(** Keys in the order of enumeration: the array indices first, ascending,
    then the other keys. *)
Fixpoint in_order (ks : list jsstring) : Prop :=
  match ks with
  | [] => True
  | k :: ks' =>
      match array_index k with
      | Some i => Forall (index_after i) ks'
      | None => Forall (fun k' => array_index k' = None) ks'
      end
      /\ in_order ks'
  end.

(** The properties of an object as it enumerates them: no key twice, the
    keys in order. *)
Definition enumerated (o : props) : Prop :=
  NoDup (map fst o) /\ in_order (map fst o).

End Stringify.
Import Stringify.

Module Frontend.

(** The values of the form fields that the submit listener reads. *)
Record form : Type :=
  { startCity : jsstring; destination : jsstring; startDate : jsstring;
    endDate : jsstring; interests : jsstring; style : jsstring }.

(** The object literal the listener serialises. *)
Definition request_object (f : form) : props :=
  [ (js "startCity", JString (startCity f));
    (js "destination", JString (destination f));
    (js "dates", JString (startDate f ++ js " - " ++ endDate f));
    (js "interests", JString (interests f));
    (js "style", JString (style f)) ].

(** The [fetch] of the listener, as the event the function receives. *)
Definition request_event (number_to_json : jsstring -> jsstring) (f : form)
  : Event :=
  {| httpMethod := js "POST";
     eventBody := Some (JSON_stringify number_to_json
                          (JObject (request_object f))) |}.

(** [response.ok]: a status from 200 to 299. *)
Definition response_ok (r : response) : bool :=
  (200 <=? status r)%nat && (status r <=? 299)%nat.

End Frontend.
Import Frontend.

Module Observations.

(** The calls of a run that are not log writes. *)
Fixpoint without_logs (t : list event) : list event :=
  match t with
  | [] => []
  | AppendLog _ :: t' => without_logs t'
  | e :: t' => e :: without_logs t'
  end.

(** The entries a run appended to the log. *)
Fixpoint logged (t : list event) : list log_entry :=
  match t with
  | [] => []
  | AppendLog e :: t' => e :: logged t'
  | _ :: t' => logged t'
  end.

(** The prompts a run sent to the provider. *)
Fixpoint prompts_sent (t : list event) : list jsstring :=
  match t with
  | [] => []
  | GenerateContent p :: t' => p :: prompts_sent t'
  | _ :: t' => prompts_sent t'
  end.

(** The snippets of text an entry holds. *)
Definition snippets (e : log_entry) : list jsstring :=
  match e with
  | ExtractedParseFailure a b c => [a; b; c]
  | JsonParseError a => [a]
  end.

(** [a] is [b] with some of its characters left out. *)
Inductive subseq : jsstring -> jsstring -> Prop :=
| subseq_nil : subseq [] []
| subseq_skip a c b : subseq a b -> subseq a (c :: b)
| subseq_keep c a b : subseq a b -> subseq (c :: a) (c :: b).

(** A matcher whose replacement text is the matched text with some of its
    characters left out. *)
Definition deleting (m : bool -> jsstring -> option (jsstring * jsstring))
  : Prop :=
  forall st s repl rest,
    m st s = Some (repl, rest) ->
    exists matched, s = matched ++ rest /\ subseq repl matched.

End Observations.
Import Observations.
(* ================================================================== *)
(** * Facts about strings *)
(* ================================================================== *)

Unset Implicit Arguments.

Lemma str_eqb_eq a b : str_eqb a b = true <-> a = b.
Proof.
  unfold str_eqb. destruct (list_eq_dec N.eq_dec a b); split; congruence.
Qed.

Lemma strip_prefix_app p : forall s r, strip_prefix p s = Some r <-> s = p ++ r.
Proof.
  induction p as [|a p IH]; intros s r; simpl.
  - split; congruence.
  - destruct s as [|b s]; [split; discriminate|].
    destruct (N.eqb_spec a b) as [->|Hne].
    + rewrite IH. split; congruence.
    + split; [discriminate | intros H; injection H; congruence].
Qed.

Lemma skip_spaces_split s :
  exists pre,
    s = pre ++ skip_spaces s /\ Forall (fun c => is_space c = true) pre.
Proof.
  induction s as [|c s [pre [H1 H2]]]; simpl.
  - exists []. split; auto.
  - destruct (is_space c) eqn:E.
    + exists (c :: pre). split; [simpl; congruence | constructor; auto].
    + exists []. split; auto.
Qed.

Lemma skip_spaces_head s c r : skip_spaces s = c :: r -> is_space c = false.
Proof.
  induction s as [|x s IH]; simpl; [discriminate|].
  destruct (is_space x) eqn:E; auto. intros H; injection H; congruence.
Qed.

Lemma skip_spaces_app_spaces ws s :
  Forall (fun c => is_space c = true) ws ->
  skip_spaces (ws ++ s) = skip_spaces s.
Proof.
  induction 1 as [|c ws Hc _ IH]; simpl; auto. now rewrite Hc.
Qed.

Lemma skip_spaces_nonspace c s :
  is_space c = false -> skip_spaces (c :: s) = c :: s.
Proof. intros H; simpl; now rewrite H. Qed.

Lemma skip_spaces_incl s : incl (skip_spaces s) s.
Proof.
  destruct (skip_spaces_split s) as [pre [H _]].
  intros c Hc. rewrite H. apply in_or_app; auto.
Qed.

Lemma skip_spaces_keeps c s :
  In c s -> is_space c = false -> In c (skip_spaces s).
Proof.
  induction s as [|x s IH]; simpl; auto.
  intros [->|Hin] Hc.
  - rewrite Hc. now left.
  - destruct (is_space x); [auto | now right].
Qed.


Lemma trim_keeps c s : In c s -> is_space c = false -> In c (trim s).
Proof.
  intros Hin Hc. unfold trim, trim_end, trim_start.
  rewrite <- in_rev. apply skip_spaces_keeps; auto.
  rewrite <- in_rev. apply skip_spaces_keeps; auto.
Qed.

(** Trimming leaves alone a text that neither starts nor ends with white
    space. *)
Lemma trim_id_ends c m z :
  is_space c = false -> is_space z = false ->
  trim (c :: m ++ [z]) = c :: m ++ [z].
Proof.
  intros Hc Hz. unfold trim, trim_end, trim_start.
  rewrite skip_spaces_nonspace by assumption.
  replace (rev (c :: m ++ [z])) with (z :: rev (c :: m)).
  - rewrite skip_spaces_nonspace by assumption.
    simpl. rewrite rev_app_distr, rev_involutive. reflexivity.
  - change (c :: m ++ [z]) with ((c :: m) ++ [z]).
    now rewrite rev_app_distr.
Qed.


Lemma indexOf_None c s : indexOf c s = None <-> ~ In c s.
Proof.
  induction s as [|x s IH]; simpl.
  - tauto.
  - destruct (N.eqb_spec x c) as [->|Hne].
    + split; [discriminate | intros H; exfalso; apply H; now left].
    + destruct (indexOf c s); simpl.
      * split; [discriminate|]. intros H. exfalso. apply H. right.
        destruct (in_dec N.eq_dec c s) as [Hi|Hn]; auto.
        apply IH in Hn. discriminate.
      * split; auto. intros _ [H|H]; [congruence | now apply IH in H].
Qed.

Lemma indexOf_Some c s i :
  indexOf c s = Some i ->
  exists pre post, s = pre ++ c :: post /\ List.length pre = i /\ ~ In c pre.
Proof.
  revert i. induction s as [|x s IH]; simpl; intros i; [discriminate|].
  destruct (N.eqb_spec x c) as [->|Hne].
  - intros H; injection H as <-. exists [], s. auto.
  - destruct (indexOf c s) as [j|]; simpl; [|discriminate].
    intros H; injection H as <-.
    destruct (IH j eq_refl) as [pre [post [H1 [H2 H3]]]].
    exists (x :: pre), post. simpl. repeat split; try congruence.
    intros [H|H]; auto.
Qed.

Lemma firstn_incl (n : nat) (s : jsstring) : incl (firstn n s) s.
Proof.
  intros c Hc. rewrite <- (firstn_skipn n s). apply in_or_app; auto.
Qed.

Lemma skipn_incl (n : nat) (s : jsstring) : incl (skipn n s) s.
Proof.
  intros c Hc. rewrite <- (firstn_skipn n s). apply in_or_app; auto.
Qed.

Lemma slice_incl a b s : incl (slice a b s) s.
Proof.
  unfold slice. intros c Hc.
  apply firstn_incl in Hc. now apply skipn_incl in Hc.
Qed.
(* ================================================================== *)
(** * Facts about the regular-expression operations *)
(* ================================================================== *)

Lemma skipn_length_app (pre rest : jsstring) :
  skipn (List.length pre) (pre ++ rest) = rest.
Proof. induction pre; simpl; auto. Qed.

Lemma firstn_length_app (pre rest : jsstring) :
  firstn (List.length pre) (pre ++ rest) = pre.
Proof. induction pre; simpl; congruence. Qed.

(** Normalise nested appends. *)
Ltac app_norm :=
  repeat (cbn [app]; rewrite <- ?app_assoc); try reflexivity.

Section ReplaceGlobal.

Variable m : bool -> jsstring -> option (jsstring * jsstring).

Lemma replace_global_skip k : forall s,
  replace_global_from m false k s = replace_global_from m false O (skipn k s).
Proof.
  induction k as [|k IH]; intros s; [reflexivity|].
  destruct s as [|c s]; [reflexivity|]. simpl. apply IH.
Qed.

Hypothesis Hshrink : shrinking m.

Lemma replace_global_cons st c s :
  replace_global_from m st O (c :: s) =
  match m st (c :: s) with
  | Some (repl, rest) =>
      repl ++ replace_global_from m false
                (List.length (c :: s) - List.length rest - 1) s
  | None => c :: replace_global_from m false O s
  end.
Proof. reflexivity. Qed.

Lemma replace_global_match st s repl rest :
  m st s = Some (repl, rest) ->
  replace_global_from m st O s = repl ++ replace_global_from m false O rest.
Proof.
  intros Hm. destruct (Hshrink _ _ _ _ Hm) as [pre [Hne Hs]].
  destruct pre as [|c pre]; [congruence|]. subst s.
  change ((c :: pre) ++ rest) with (c :: (pre ++ rest)) in *.
  rewrite replace_global_cons, Hm. f_equal.
  rewrite replace_global_skip. f_equal.
  replace (List.length (c :: pre ++ rest) - List.length rest - 1)%nat
    with (List.length pre)
    by (change (List.length (c :: pre ++ rest))
          with (S (List.length (pre ++ rest))); rewrite length_app; lia).
  apply skipn_length_app.
Qed.

Lemma replace_global_nomatch st c s :
  m st (c :: s) = None ->
  replace_global_from m st O (c :: s) = c :: replace_global_from m false O s.
Proof. intros Hm. now rewrite replace_global_cons, Hm. Qed.

Lemma replace_global_nil st : replace_global_from m st O [] = [].
Proof. reflexivity. Qed.


End ReplaceGlobal.

Lemma after_first_split p : forall s r,
  after_first p s = Some r -> exists pre, s = pre ++ p ++ r.
Proof.
  induction s as [|c s IH]; intros r; simpl.
  - destruct (strip_prefix p []) eqn:E; [|discriminate].
    intros H; injection H as ->. apply strip_prefix_app in E.
    exists []. exact E.
  - destruct (strip_prefix p (c :: s)) eqn:E.
    + intros H; injection H as ->. apply strip_prefix_app in E.
      exists []. exact E.
    + intros H. destruct (IH _ H) as [pre ->]. now exists (c :: pre).
Qed.

Lemma skip_line_split s :
  exists pre, s = pre ++ skip_line s
              /\ Forall (fun c => is_line_terminator c = false) pre.
Proof.
  induction s as [|c s [pre [H1 H2]]]; simpl.
  - exists []. auto.
  - destruct (is_line_terminator c) eqn:E.
    + exists []. auto.
    + exists (c :: pre). split; [simpl; congruence | constructor; auto].
Qed.

Lemma fence_at_shrinking : shrinking fence_at.
Proof.
  intros st s repl rest. unfold fence_at.
  destruct (strip_prefix fence s) eqn:E; [|discriminate].
  intros H; injection H as <- <-. apply strip_prefix_app in E.
  exists fence. split; [discriminate | exact E].
Qed.

Lemma block_comment_at_shrinking : shrinking block_comment_at.
Proof.
  intros st s repl rest. unfold block_comment_at.
  destruct (strip_prefix _ s) as [s1|] eqn:E; [|discriminate].
  destruct (after_first _ s1) as [r|] eqn:E2; [|discriminate].
  intros H; injection H as <- <-.
  apply strip_prefix_app in E. apply after_first_split in E2.
  destruct E2 as [pre ->].
  exists ([c_slash; c_star] ++ pre ++ [c_star; c_slash]).
  split; [discriminate|]. rewrite E. app_norm.
Qed.

Lemma line_comment_at_shrinking : shrinking line_comment_at.
Proof.
  intros st s repl rest. unfold line_comment_at.
  destruct (if st then strip_prefix _ s else None) as [s1|] eqn:E.
  - intros H; injection H as <- <-.
    destruct st; [|discriminate]. apply strip_prefix_app in E.
    destruct (skip_line_split s1) as [pre [H1 _]].
    exists ([c_slash; c_slash] ++ pre). split; [discriminate|].
    rewrite E. rewrite H1 at 1. app_norm.
  - destruct s as [|c s]; [discriminate|].
    destruct (_ || _); [discriminate|].
    destruct (strip_prefix _ s) as [s1|] eqn:E2; [|discriminate].
    intros H; injection H as <- <-. apply strip_prefix_app in E2.
    destruct (skip_line_split s1) as [pre [H1 _]].
    exists (c :: [c_slash; c_slash] ++ pre). split; [discriminate|].
    rewrite E2. rewrite H1 at 1. app_norm.
Qed.

Lemma trailing_comma_at_shrinking : shrinking trailing_comma_at.
Proof.
  intros st s repl rest. unfold trailing_comma_at.
  destruct s as [|c s]; [discriminate|].
  destruct (c =? c_comma)%N; [|discriminate].
  destruct (skip_spaces s) as [|x r] eqn:E; [discriminate|].
  destruct (_ || _); [|discriminate].
  intros H; injection H as <- <-.
  destruct (skip_spaces_split s) as [pre [H1 _]]. rewrite E in H1.
  exists (c :: pre ++ [x]). split; [discriminate|].
  rewrite H1 at 1. app_norm.
Qed.






Lemma exec_first_split (A : Type) (m : jsstring -> option A) : forall s r,
  exec_first m s = Some r -> exists pre suf, s = pre ++ suf /\ m suf = Some r.
Proof.
  induction s as [|c s IH]; intros r; simpl.
  - destruct (m []) eqn:E; [|discriminate].
    intros H; injection H as ->. now exists [], [].
  - destruct (m (c :: s)) eqn:E.
    + intros H; injection H as ->. now exists [], (c :: s).
    + intros H. destruct (IH _ H) as [pre [suf [-> Hm]]].
      now exists (c :: pre), suf.
Qed.

Lemma closes_fence_space c s :
  is_space c = true -> closes_fence (c :: s) = closes_fence s.
Proof. intros H. unfold closes_fence. simpl. now rewrite H. Qed.

Lemma lazy_until_fence_split : forall s g,
  lazy_until_fence s = Some g ->
  exists rest, s = g ++ rest /\ closes_fence rest = true.
Proof.
  induction s as [|c s IH]; intros g; simpl.
  - discriminate.
  - destruct (closes_fence (c :: s)) eqn:E.
    + intros H; injection H as <-. now exists (c :: s).
    + destruct (lazy_until_fence s) as [g'|]; [|discriminate].
      simpl. intros H; injection H as <-.
      destruct (IH _ eq_refl) as [rest [-> Hr]]. now exists rest.
Qed.

(** The lazy group never ends with white space: a shorter group would have
    matched. *)
Lemma lazy_until_fence_last : forall s g,
  lazy_until_fence s = Some g ->
  g = [] \/ exists m z, g = m ++ [z] /\ is_space z = false.
Proof.
  induction s as [|c s IH]; intros g; simpl.
  - discriminate.
  - destruct (closes_fence (c :: s)) eqn:E.
    + intros H; injection H as <-. now left.
    + destruct (lazy_until_fence s) as [g'|] eqn:Eg; [|discriminate].
      simpl. intros H; injection H as <-. right.
      destruct (IH _ eq_refl) as [->|[m [z [-> Hz]]]].
      * exists [], c. split; auto.
        destruct (is_space c) eqn:Hc; auto.
        rewrite (closes_fence_space _ _ Hc) in E.
        destruct s as [|x s]; simpl in Eg.
        -- discriminate.
        -- destruct (closes_fence (x :: s)); [congruence|].
           destruct (lazy_until_fence s); discriminate.
      * now exists (c :: m), z.
Qed.

Lemma trim_fixed g :
  skip_spaces g = g -> skip_spaces (rev g) = rev g -> trim g = g.
Proof.
  intros H1 H2. unfold trim, trim_end, trim_start.
  now rewrite H1, H2, rev_involutive.
Qed.

(** A group taken after the greedy white space is already trimmed. *)
Lemma lazy_group_trimmed s g :
  lazy_until_fence (skip_spaces s) = Some g -> trim g = g.
Proof.
  intros H. apply trim_fixed.
  - destruct (lazy_until_fence_split _ _ H) as [rest [Hs _]].
    destruct g as [|c g]; [reflexivity|].
    apply skip_spaces_nonspace.
    simpl in Hs. now apply skip_spaces_head in Hs.
  - destruct (lazy_until_fence_last _ _ H) as [->|[m [z [-> Hz]]]];
      [reflexivity|].
    rewrite rev_app_distr. simpl. now rewrite Hz.
Qed.

Lemma fencedJson_at_group s g : fencedJson_at s = Some g ->
  exists s2, lazy_until_fence (skip_spaces s2) = Some g /\ incl s2 s.
Proof.
  unfold fencedJson_at.
  destruct (strip_prefix fence s) as [s1|] eqn:E1; [|discriminate].
  destruct (match_json_ci s1) as [s2|] eqn:E2; [|discriminate].
  intros H. exists s2. split; auto.
  apply strip_prefix_app in E1. subst s.
  unfold match_json_ci in E2.
  destruct s1 as [|j [|s0 [|o [|n r]]]]; try discriminate.
  destruct (_ && _); [|discriminate]. injection E2 as ->.
  intros x Hx. apply in_or_app. right. do 4 right. exact Hx.
Qed.

Lemma fencedAny_at_group s g : fencedAny_at s = Some g ->
  exists s1, lazy_until_fence (skip_spaces s1) = Some g /\ incl s1 s.
Proof.
  unfold fencedAny_at.
  destruct (strip_prefix fence s) as [s1|] eqn:E1; [|discriminate].
  intros H. exists s1. split; auto.
  apply strip_prefix_app in E1. subst s.
  intros x Hx. apply in_or_app. now right.
Qed.

Lemma lazy_group_incl s g :
  lazy_until_fence (skip_spaces s) = Some g -> incl g s.
Proof.
  intros H. destruct (lazy_until_fence_split _ _ H) as [rest [Hs _]].
  intros x Hx. apply skip_spaces_incl. rewrite Hs. apply in_or_app. now left.
Qed.

Lemma fencedJson_group s g : fencedJson s = Some g -> trim g = g /\ incl g s.
Proof.
  unfold fencedJson. intros H.
  destruct (exec_first_split _ _ _ _ H) as [pre [suf [-> Hm]]].
  destruct (fencedJson_at_group _ _ Hm) as [s2 [Hl Hi]].
  split; [eapply lazy_group_trimmed; eauto|].
  intros x Hx. apply in_or_app. right. apply Hi.
  eapply lazy_group_incl; eauto.
Qed.

Lemma fencedAny_group s g : fencedAny s = Some g -> trim g = g /\ incl g s.
Proof.
  unfold fencedAny. intros H.
  destruct (exec_first_split _ _ _ _ H) as [pre [suf [-> Hm]]].
  destruct (fencedAny_at_group _ _ Hm) as [s2 [Hl Hi]].
  split; [eapply lazy_group_trimmed; eauto|].
  intros x Hx. apply in_or_app. right. apply Hi.
  eapply lazy_group_incl; eauto.
Qed.

(* ================================================================== *)
(** * Facts about the brace scan *)
(* ================================================================== *)

Lemma scan_step_cases ch d b l :
  let '(d', b') := scan_step ch d b l in
  (b' = true /\ d' = d)
  \/ (b' = false /\ ch = c_lbrace /\ d' = (d + 1)%Z)
  \/ (b' = false /\ ch = c_rbrace /\ d' = (d - 1)%Z)
  \/ (b' = false /\ ch <> c_lbrace /\ ch <> c_rbrace /\ d' = d).
Proof.
  unfold scan_step.
  destruct (if (ch =? c_dquote)%N && _ then negb b else b); [now left|].
  destruct (N.eqb_spec ch c_lbrace); [right; left; auto|].
  destruct (N.eqb_spec ch c_rbrace); [right; right; left; auto|].
  right; right; right; auto.
Qed.

(** A brace does not change [inString]. *)
Lemma scan_step_brace ch d b l :
  ch = c_lbrace \/ ch = c_rbrace -> snd (scan_step ch d b l) = b.
Proof. intros [-> | ->]; reflexivity. Qed.

Lemma scan_state_app s1 : forall s2 d b l,
  scan_state (s1 ++ s2) d b l =
  let '(d', b', l') := scan_state s1 d b l in scan_state s2 d' b' l'.
Proof.
  induction s1 as [|ch s1 IH]; intros s2 d b l; simpl; [reflexivity|].
  destruct (scan_step ch d b l) as [d' b']. apply IH.
Qed.

(** Past the first brace, with a positive depth, the loop returns only on a
    closing brace read outside string mode at depth 1. *)
Lemma scan_returns_at_close : forall s i firstBrace d b l j,
  (firstBrace < i)%nat -> (0 < d)%Z ->
  scan s i firstBrace d b l = Some j ->
  exists pre post l',
    s = pre ++ c_rbrace :: post /\ j = (i + List.length pre)%nat
    /\ scan_state pre d b l = (1%Z, false, l').
Proof.
  induction s as [|ch s IH]; intros i fb d b l j Hi Hd H; [discriminate|].
  cbn [scan] in H.
  pose proof (scan_step_cases ch d b l) as Hc.
  destruct (scan_step ch d b l) as [d' b'] eqn:Es.
  destruct (Z.eqb_spec d' 0) as [Hz|Hz]; cbn [andb] in H.
  - rewrite (proj2 (Nat.ltb_lt _ _) Hi) in H. injection H as <-.
    destruct Hc as [[_ ->]|[[_ [_ ->]]|[[Hb [-> ->]]|[_ [_ [_ ->]]]]]];
      try lia.
    exists [], s, l. cbn [app List.length scan_state].
    repeat split; auto.
    assert (d = 1%Z) as -> by lia.
    pose proof (scan_step_brace c_rbrace 1 b l (or_intror eq_refl)) as Hs.
    rewrite Es in Hs. cbn [snd] in Hs. congruence.
  - apply IH in H; [|lia|].
    + destruct H as [pre [post [l' [-> [-> Hst]]]]].
      exists (ch :: pre), post, l'. cbn [app List.length scan_state].
      rewrite Es. repeat split; auto; lia.
    + destruct Hc as [[_ ->]|[[_ [_ ->]]|[[_ [_ ->]]|[_ [_ [_ ->]]]]]]; lia.
Qed.

Lemma braces_not_space :
  is_space c_lbrace = false /\ is_space c_rbrace = false.
Proof. split; reflexivity. Qed.

(** What the brace scan returns: the text from the first opening brace to a
    closing brace that the loop reads at depth 1 outside string mode. *)
Lemma braceScan_shape s c :
  braceScan s = Some c ->
  exists p pre post l',
    s = p ++ c_lbrace :: pre ++ c_rbrace :: post
    /\ ~ In c_lbrace p
    /\ c = c_lbrace :: pre ++ [c_rbrace]
    /\ scan_state pre 1%Z false (Some c_lbrace) = (1%Z, false, l').
Proof.
  unfold braceScan.
  destruct (indexOf c_lbrace s) as [fb|] eqn:Ei; [|discriminate].
  destruct (indexOf_Some _ _ _ Ei) as [p [rest [-> [Hlen Hp]]]]. subst fb.
  rewrite skipn_length_app.
  cbn [scan]. change (scan_step c_lbrace 0 false None) with (1%Z, false).
  cbn match. rewrite Bool.andb_false_l.
  destruct (scan rest _ _ _ _ _) as [j|] eqn:Es; [|discriminate].
  intros H; injection H as <-.
  apply scan_returns_at_close in Es; [|lia|lia].
  destruct Es as [pre [post [l' [-> [-> Hst]]]]].
  exists p, pre, post, l'. repeat split; auto.
  unfold slice. rewrite skipn_length_app.
  replace (S (List.length p) + List.length pre + 1 - List.length p)%nat
    with (List.length (c_lbrace :: pre ++ [c_rbrace]))
    by (cbn [List.length]; rewrite length_app; cbn [List.length]; lia).
  replace (c_lbrace :: pre ++ c_rbrace :: post)
    with ((c_lbrace :: pre ++ [c_rbrace]) ++ post) by app_norm.
  rewrite firstn_length_app.
  apply trim_id_ends; reflexivity.
Qed.



(* ================================================================== *)
(** * Facts about the two helpers *)
(* ================================================================== *)

(** [extractJsonFromText] is the candidate of steps 2 and 3: its trimming
    changes nothing. *)
Lemma extractJsonFromText_candidate text :
  extractJsonFromText text = candidate text.
Proof.
  unfold extractJsonFromText, candidate, interior.
  destruct text as [|c text]; [reflexivity|].
  destruct (fencedJson (c :: text)) as [[|x g]|] eqn:E1.
  - destruct (fencedAny (c :: text)) as [[|y g]|] eqn:E2; auto.
    apply fencedAny_group in E2. now rewrite (proj1 E2).
  - apply fencedJson_group in E1. now rewrite (proj1 E1).
  - destruct (fencedAny (c :: text)) as [[|y g]|] eqn:E2; auto.
    apply fencedAny_group in E2. now rewrite (proj1 E2).
Qed.

Lemma candidate_nonempty text c : candidate text = Some c -> c <> [].
Proof.
  unfold candidate, interior.
  destruct (fencedJson text) as [[|x g]|].
  2: { intros H; injection H as <-. discriminate. }
  all: destruct (fencedAny text) as [[|y g]|];
    try (intros H; injection H as <-; discriminate).
  all: intros H; apply braceScan_shape in H;
    destruct H as [p [pre [post [l' [_ [_ [-> _]]]]]]]; discriminate.
Qed.






(* ================================================================== *)
(** * Facts about the cascades *)
(* ================================================================== *)

(** Case analysis along a cascade: the direct parse, the candidate, the
    parse of the sanitized candidate, the outer braces and their parse. *)
Ltac cascade_cases ser text :=
  destruct (accepted ser (JSON_parse text)); cbn -[accepted]; auto;
  let Ec := fresh "Ec" in
  destruct (candidate text) as [[|? ?]|] eqn:Ec; cbn -[accepted]; auto;
  try (now apply candidate_nonempty in Ec);
  repeat match goal with
         | |- context [accepted ser (JSON_parse ?t)] =>
             destruct (accepted ser (JSON_parse t)); cbn -[accepted]; auto
         | |- context [outerBraces ?t] =>
             destruct (outerBraces t); cbn -[accepted]; auto
         end.

(** Both cascades compute the value the specification's ordered strategies
    give. *)
Lemma pipeline_recover ser d text : pipeline ser d text = recover ser text.
Proof.
  unfold pipeline, recover, strategies, value.
  destruct d; cbn [cascade];
    unfold server_cascade, netlify_cascade, jsonParse, extractJson,
      sanitizeJson, appendLog, bindM, ret; cbn [first_success];
    rewrite extractJsonFromText_candidate;
    cascade_cases ser text.
Qed.

(** The texts a cascade hands to the parser are those of the ordered
    strategies, up to the first success. *)
Lemma cascade_attempts ser d text :
  parse_attempts (trace (cascade ser d text))
  = fst (first_success ser (strategies text)).
Proof.
  unfold strategies, trace.
  destruct d; cbn [cascade];
    unfold server_cascade, netlify_cascade, jsonParse, extractJson,
      sanitizeJson, appendLog, bindM, ret; cbn [first_success];
    rewrite extractJsonFromText_candidate;
    cascade_cases ser text.
Qed.

(* ================================================================== *)
(** * The recursion budget of [JSON_parse] *)
(* ================================================================== *)

Lemma skip_ws_length s : (List.length (skip_ws s) <= List.length s)%nat.
Proof.
  induction s as [|c s IH]; simpl; auto.
  destruct (is_json_ws c); simpl; lia.
Qed.

Lemma skip_ws_cons_length s x r :
  skip_ws s = x :: r -> (List.length r < List.length s)%nat.
Proof.
  intros H. pose proof (skip_ws_length s) as Hl. rewrite H in Hl.
  simpl in Hl. lia.
Qed.

Lemma parse_string_chars_length : forall s str rest,
  parse_string_chars s = Some (str, rest) ->
  (List.length rest < List.length s)%nat.
Proof.
  induction s as [s IH] using (well_founded_induction
                                 (Wf_nat.well_founded_ltof _ (@List.length N))).
  unfold Wf_nat.ltof in IH.
  intros str rest. destruct s as [|c s]; [discriminate|].
  cbn [parse_string_chars].
  destruct (c =? 34)%N.
  { intros H; injection H as <- <-. simpl; lia. }
  destruct (c =? 92)%N.
  - destruct s as [|e s]; [discriminate|].
    destruct (e =? 117)%N.
    + destruct s as [|h1 [|h2 [|h3 [|h4 s]]]]; try discriminate.
      destruct (hex4 h1 h2 h3 h4); [|discriminate].
      destruct (parse_string_chars s) as [[str' rest']|] eqn:E; [|discriminate].
      intros H; injection H as <- <-.
      apply IH in E; simpl in *; lia.
    + destruct (unescape e); [|discriminate].
      destruct (parse_string_chars s) as [[str' rest']|] eqn:E; [|discriminate].
      intros H; injection H as <- <-.
      apply IH in E; simpl in *; lia.
  - destruct (c <? 32)%N; [discriminate|].
    destruct (parse_string_chars s) as [[str' rest']|] eqn:E; [|discriminate].
    intros H; injection H as <- <-.
    apply IH in E; simpl in *; lia.
Qed.

Lemma span_digits_length s d r :
  span_digits s = (d, r) -> List.length s = (List.length d + List.length r)%nat.
Proof.
  revert d r. induction s as [|c s IH]; intros d r; simpl.
  - intros H; injection H as <- <-. reflexivity.
  - destruct (is_digit c).
    + destruct (span_digits s) as [d' r'].
      intros H; injection H as <- <-. simpl. now rewrite (IH _ _ eq_refl).
    + intros H; injection H as <- <-. reflexivity.
Qed.

Lemma parse_number_length s lexeme rest :
  parse_number s = Some (lexeme, rest) ->
  (List.length rest < List.length s)%nat.
Proof.
  unfold parse_number.
  set (p := match s with
            | c :: s' => if (c =? 45)%N then ([c], s') else ([], s)
            | [] => ([], s)
            end).
  assert (Hp : (List.length (snd p) <= List.length s)%nat).
  { subst p. destruct s as [|c s]; simpl; auto.
    destruct (c =? 45)%N; simpl; lia. }
  destruct p as [sign s1]. simpl in Hp.
  destruct (span_digits s1) as [int s2] eqn:E1.
  apply span_digits_length in E1.
  destruct int as [|d ds]; [discriminate|].
  destruct (_ && _); [discriminate|].
  simpl in E1.
  set (frac := match s2 with
               | c :: s' =>
                   if (c =? 46)%N then
                     let '(fd, r) := span_digits s' in
                     match fd with [] => None | _ => Some (c :: fd, r) end
                   else Some ([], s2)
               | [] => Some ([], s2)
               end).
  assert (Hf : forall fr s3, frac = Some (fr, s3) ->
                             (List.length s3 <= List.length s2)%nat).
  { subst frac. intros fr s3. destruct s2 as [|c s']; simpl.
    - intros H; injection H as <- <-. auto.
    - destruct (c =? 46)%N.
      + destruct (span_digits s') as [fd r] eqn:E2.
        apply span_digits_length in E2.
        destruct fd; [discriminate|]. intros H; injection H as <- <-.
        simpl in *. lia.
      + intros H; injection H as <- <-. simpl. lia. }
  destruct frac as [[fr s3]|]; [|discriminate].
  specialize (Hf _ _ eq_refl).
  set (expo := match s3 with
               | c :: s' =>
                   if ((c =? 101)%N || (c =? 69)%N)%bool then
                     let '(sg, s'') :=
                       match s' with
                       | x :: t =>
                           if ((x =? 43)%N || (x =? 45)%N)%bool
                           then ([x], t) else ([], s')
                       | [] => ([], s')
                       end in
                     let '(ed, r) := span_digits s'' in
                     match ed with [] => None | _ => Some (c :: sg ++ ed, r) end
                   else Some ([], s3)
               | [] => Some ([], s3)
               end).
  assert (He : forall ex s4, expo = Some (ex, s4) ->
                             (List.length s4 <= List.length s3)%nat).
  { subst expo. intros ex s4. destruct s3 as [|c s']; simpl.
    - intros H; injection H as <- <-. auto.
    - destruct (_ || _).
      + set (pp := match s' with
                   | x :: t =>
                       if ((x =? 43)%N || (x =? 45)%N)%bool
                       then ([x], t) else ([], s')
                   | [] => ([], s')
                   end).
        assert (Hpp : (List.length (snd pp) <= List.length s')%nat).
        { subst pp. destruct s' as [|x t]; simpl; auto.
          destruct (_ || _); simpl; lia. }
        destruct pp as [sg s'']. simpl in Hpp.
        destruct (span_digits s'') as [ed r] eqn:E2.
        apply span_digits_length in E2.
        destruct ed; [discriminate|]. intros H; injection H as <- <-.
        simpl in *. lia.
      + intros H; injection H as <- <-. simpl. lia. }
  destruct expo as [[ex s4]|]; [|discriminate].
  specialize (He _ _ eq_refl).
  intros H; injection H as <- <-. lia.
Qed.

Lemma strip_prefix_length p s r :
  strip_prefix p s = Some r ->
  List.length s = (List.length p + List.length r)%nat.
Proof. intros H. apply strip_prefix_app in H. subst. apply length_app. Qed.

Lemma parse_scalar_length s v rest :
  parse_scalar s = Some (v, rest) -> (List.length rest < List.length s)%nat.
Proof.
  unfold parse_scalar. destruct s as [|c s]; [discriminate|].
  destruct (c =? 34)%N.
  { destruct (parse_string_chars s) as [[str r]|] eqn:E; [|discriminate].
    intros H; injection H as <- <-.
    apply parse_string_chars_length in E. simpl; lia. }
  destruct (_ || _).
  { destruct (parse_number (c :: s)) as [[lx r]|] eqn:E; [|discriminate].
    intros H; injection H as <- <-. now apply parse_number_length in E. }
  destruct (strip_prefix (js "true") (c :: s)) eqn:E1.
  { intros H; injection H as <- <-.
    apply strip_prefix_length in E1. rewrite E1. simpl; lia. }
  destruct (strip_prefix (js "false") (c :: s)) eqn:E2.
  { intros H; injection H as <- <-.
    apply strip_prefix_length in E2. rewrite E2. simpl; lia. }
  destruct (strip_prefix (js "null") (c :: s)) eqn:E3; [|discriminate].
  intros H; injection H as <- <-.
  apply strip_prefix_length in E3. rewrite E3. simpl; lia.
Qed.

Lemma bind_Ok (A B : Type) (r : res A) (k : A -> res B) b :
  bind r k = Ok b -> exists a, r = Ok a /\ k a = Ok b.
Proof. destruct r; simpl; try discriminate. eauto. Qed.

Lemma bind_not_OutOfFuel (A B : Type) (r : res A) (k : A -> res B) :
  bind r k <> OutOfFuel -> r <> OutOfFuel.
Proof. destruct r; simpl; congruence. Qed.

(** Every parser consumes at least one character. *)
Lemma parse_shrinks n :
  (forall s v rest, parse_value n s = Ok (v, rest) ->
                    (List.length rest < List.length s)%nat)
  /\ (forall s vs rest, parse_elements n s = Ok (vs, rest) ->
                        (List.length rest < List.length s)%nat)
  /\ (forall s acc o rest, parse_members n s acc = Ok (o, rest) ->
                           (List.length rest < List.length s)%nat).
Proof.
  induction n as [|n [IHv [IHe IHm]]]; [repeat split; discriminate|].
  repeat split.
  - intros s v rest. cbn [parse_value].
    destruct s as [|c s]; [discriminate|].
    destruct (c =? 123)%N.
    { destruct (skip_ws s) as [|x r] eqn:E; [discriminate|].
      pose proof (skip_ws_length s) as Hl. rewrite E in Hl.
      destruct (x =? 125)%N.
      - intros H; injection H as <- <-. simpl in *; lia.
      - intros H. apply bind_Ok in H. destruct H as [[o r'] [H1 H2]].
        injection H2 as <- <-. apply IHm in H1. simpl in *; lia. }
    destruct (c =? 91)%N.
    { destruct (skip_ws s) as [|x r] eqn:E; [discriminate|].
      pose proof (skip_ws_length s) as Hl. rewrite E in Hl.
      destruct (x =? 93)%N.
      - intros H; injection H as <- <-. simpl in *; lia.
      - intros H. apply bind_Ok in H. destruct H as [[o r'] [H1 H2]].
        injection H2 as <- <-. apply IHe in H1. simpl in *; lia. }
    destruct (parse_scalar (c :: s)) as [[v' r']|] eqn:E; [|discriminate].
    intros H; injection H as <- <-. now apply parse_scalar_length in E.
  - intros s vs rest. cbn [parse_elements]. intros H.
    apply bind_Ok in H. destruct H as [[v r1] [H1 H2]].
    apply IHv in H1.
    destruct (skip_ws r1) as [|x r2] eqn:E; [discriminate|].
    apply skip_ws_cons_length in E.
    destruct (x =? 44)%N.
    + apply bind_Ok in H2. destruct H2 as [[vs' r3] [H2 H3]].
      injection H3 as <- <-. apply IHe in H2.
      pose proof (skip_ws_length r2). lia.
    + destruct (x =? 93)%N; [|discriminate].
      injection H2 as <- <-. lia.
  - intros s acc o rest. cbn [parse_members].
    destruct s as [|c s]; [discriminate|].
    destruct (c =? 34)%N; [|discriminate].
    destruct (parse_string_chars s) as [[k r1]|] eqn:Ek; [|discriminate].
    apply parse_string_chars_length in Ek.
    destruct (skip_ws r1) as [|y r2] eqn:E1; [discriminate|].
    apply skip_ws_cons_length in E1.
    destruct (y =? 58)%N; [|discriminate].
    intros H. apply bind_Ok in H. destruct H as [[v r3] [H1 H2]].
    apply IHv in H1. pose proof (skip_ws_length r2).
    destruct (skip_ws r3) as [|x r4] eqn:E3; [discriminate|].
    apply skip_ws_cons_length in E3.
    destruct (x =? 44)%N.
    + apply IHm in H2. pose proof (skip_ws_length r4). simpl; lia.
    + destruct (x =? 125)%N; [|discriminate].
      injection H2 as <- <-. simpl; lia.
Qed.

(** More budget never changes a result that did not run out of it. *)
Lemma parse_fuel_mono n :
  (forall s m, (n <= m)%nat -> parse_value n s <> OutOfFuel ->
               parse_value m s = parse_value n s)
  /\ (forall s m, (n <= m)%nat -> parse_elements n s <> OutOfFuel ->
                  parse_elements m s = parse_elements n s)
  /\ (forall s acc m, (n <= m)%nat -> parse_members n s acc <> OutOfFuel ->
                      parse_members m s acc = parse_members n s acc).
Proof.
  induction n as [|n [IHv [IHe IHm]]];
    [repeat split; intros; cbn in *; congruence|].
  repeat split.
  - intros s m Hm. destruct m as [|m]; [lia|]. apply le_S_n in Hm.
    cbn [parse_value].
    destruct s as [|c s]; auto.
    destruct (c =? 123)%N.
    { destruct (skip_ws s) as [|x r] eqn:E; auto. rewrite <- E.
      destruct (x =? 125)%N; auto.
      intros H. apply bind_not_OutOfFuel in H. now rewrite (IHm _ _ m Hm H). }
    destruct (c =? 91)%N; auto.
    destruct (skip_ws s) as [|x r] eqn:E; auto. rewrite <- E.
    destruct (x =? 93)%N; auto.
    intros H. apply bind_not_OutOfFuel in H. now rewrite (IHe _ m Hm H).
  - intros s m Hm. destruct m as [|m]; [lia|]. apply le_S_n in Hm.
    cbn [parse_elements]. intros H.
    pose proof (bind_not_OutOfFuel _ _ _ _ H) as Hv.
    rewrite (IHv _ m Hm Hv).
    destruct (parse_value n s) as [| |[v r1]]; auto. cbn [bind] in *.
    destruct (skip_ws r1) as [|x r2]; auto.
    destruct (x =? 44)%N; auto.
    apply bind_not_OutOfFuel in H. now rewrite (IHe _ m Hm H).
  - intros s acc m Hm. destruct m as [|m]; [lia|]. apply le_S_n in Hm.
    cbn [parse_members].
    destruct s as [|c s]; auto.
    destruct (c =? 34)%N; auto.
    destruct (parse_string_chars s) as [[k r1]|]; auto.
    destruct (skip_ws r1) as [|y r2]; auto.
    destruct (y =? 58)%N; auto.
    intros H. pose proof (bind_not_OutOfFuel _ _ _ _ H) as Hv.
    rewrite (IHv _ m Hm Hv).
    destruct (parse_value n (skip_ws r2)) as [| |[v r3]]; auto.
    cbn [bind] in *.
    destruct (skip_ws r3) as [|x r4]; auto.
    destruct (x =? 44)%N; auto.
Qed.

(** A budget of twice the length of the text, plus one, is never
    exhausted. *)
Lemma parse_fuel_enough n :
  (forall s, (2 * List.length s + 1 <= n)%nat -> parse_value n s <> OutOfFuel)
  /\ (forall s, (2 * List.length s + 2 <= n)%nat ->
                parse_elements n s <> OutOfFuel)
  /\ (forall s acc, (2 * List.length s + 1 <= n)%nat ->
                    parse_members n s acc <> OutOfFuel).
Proof.
  induction n as [|n [IHv [IHe IHm]]]; [repeat split; intros; lia|].
  repeat split.
  - intros s Hn. cbn [parse_value].
    destruct s as [|c s]; [discriminate|].
    cbn [List.length] in Hn.
    destruct (c =? 123)%N.
    { destruct (skip_ws s) as [|x r] eqn:E; [discriminate|]. rewrite <- E.
      pose proof (skip_ws_length s) as Hl.
      destruct (x =? 125)%N; [discriminate|].
      specialize (IHm (skip_ws s) [] ltac:(lia)).
      destruct (parse_members n (skip_ws s) []) as [| |[o r']];
        cbn [bind]; congruence. }
    destruct (c =? 91)%N.
    { destruct (skip_ws s) as [|x r] eqn:E; [discriminate|]. rewrite <- E.
      pose proof (skip_ws_length s) as Hl.
      destruct (x =? 93)%N; [discriminate|].
      specialize (IHe (skip_ws s) ltac:(lia)).
      destruct (parse_elements n (skip_ws s)) as [| |[o r']];
        cbn [bind]; congruence. }
    destruct (parse_scalar (c :: s)); discriminate.
  - intros s Hn. cbn [parse_elements].
    specialize (IHv s ltac:(lia)).
    destruct (parse_value n s) as [| |[v r1]] eqn:Ev; cbn [bind];
      [congruence | discriminate |].
    apply (proj1 (parse_shrinks n)) in Ev.
    destruct (skip_ws r1) as [|x r2] eqn:E; [discriminate|].
    apply skip_ws_cons_length in E. pose proof (skip_ws_length r2).
    destruct (x =? 44)%N.
    + specialize (IHe (skip_ws r2) ltac:(lia)).
      destruct (parse_elements n (skip_ws r2)) as [| |[vs r3]];
        cbn [bind]; congruence.
    + destruct (x =? 93)%N; discriminate.
  - intros s acc Hn. cbn [parse_members].
    destruct s as [|c s]; [discriminate|]. cbn [List.length] in Hn.
    destruct (c =? 34)%N; [|discriminate].
    destruct (parse_string_chars s) as [[k r1]|] eqn:Ek; [|discriminate].
    apply parse_string_chars_length in Ek.
    destruct (skip_ws r1) as [|y r2] eqn:E1; [discriminate|].
    apply skip_ws_cons_length in E1. pose proof (skip_ws_length r2).
    destruct (y =? 58)%N; [|discriminate].
    specialize (IHv (skip_ws r2) ltac:(lia)).
    destruct (parse_value n (skip_ws r2)) as [| |[v r3]] eqn:Ev; cbn [bind];
      [congruence | discriminate |].
    apply (proj1 (parse_shrinks n)) in Ev.
    destruct (skip_ws r3) as [|x r4] eqn:E3; [discriminate|].
    apply skip_ws_cons_length in E3. pose proof (skip_ws_length r4).
    destruct (x =? 44)%N.
    + apply IHm. lia.
    + destruct (x =? 125)%N; discriminate.
Qed.

(** The budget of [JSON_parse] is adequate: it is never exhausted, and any
    larger budget gives the same result. *)
Lemma parse_value_fuel text n :
  (parse_fuel text <= n)%nat ->
  parse_value (parse_fuel text) (skip_ws text) <> OutOfFuel
  /\ parse_value n (skip_ws text)
     = parse_value (parse_fuel text) (skip_ws text).
Proof.
  intros Hn. unfold parse_fuel in *. pose proof (skip_ws_length text) as Hl.
  assert (H : parse_value (2 * List.length text + 1) (skip_ws text)
              <> OutOfFuel)
    by (apply parse_fuel_enough; lia).
  split; auto. now apply parse_fuel_mono.
Qed.

Lemma accepted_Some ser parsed v :
  accepted ser parsed = Some v <-> parsed = Some v /\ ser v = true.
Proof.
  unfold accepted. destruct parsed as [w|]; [|split; [discriminate|]].
  - destruct (ser w) eqn:E; split.
    + intros H; injection H as <-. auto.
    + intros [H _]. exact H.
    + discriminate.
    + intros [H1 H2]. injection H1 as <-. congruence.
  - intros [H _]. discriminate.
Qed.

Lemma accepted_parsed ser text v :
  JSON_parse text = Some v -> ser v = true ->
  accepted ser (JSON_parse text) = Some v.
Proof. intros H1 H2. now apply accepted_Some. Qed.

Lemma accepted_unparsed ser text :
  JSON_parse text = None -> accepted ser (JSON_parse text) = None.
Proof. intros ->. reflexivity. Qed.

(** What the ordered strategies give: the value of the last text tried, or
    nothing when every text tried failed. *)
Lemma first_success_Some ser l tried v :
  first_success ser l = (tried, Some v) ->
  exists c, In c tried /\ In (Some c) l /\ JSON_parse c = Some v
            /\ ser v = true.
Proof.
  revert tried. induction l as [|[c|] l IH]; intros tried; cbn [first_success].
  - discriminate.
  - destruct (accepted ser (JSON_parse c)) as [w|] eqn:E.
    + intros H; injection H as <- <-. apply accepted_Some in E.
      exists c. simpl; tauto.
    + destruct (first_success ser l) as [tr r].
      intros H; injection H as <- ->.
      destruct (IH _ eq_refl) as [c' [H1 [H2 H3]]].
      exists c'. simpl; auto.
  - intros H. destruct (IH _ H) as [c' [H1 [H2 H3]]].
    exists c'. simpl; auto.
Qed.

Lemma first_success_None ser l tried :
  first_success ser l = (tried, None) ->
  forall c, In (Some c) l -> accepted ser (JSON_parse c) = None.
Proof.
  revert tried. induction l as [|[c|] l IH]; intros tried; cbn [first_success].
  - intros _ c [].
  - destruct (accepted ser (JSON_parse c)) as [w|] eqn:E; [discriminate|].
    destruct (first_success ser l) as [tr r].
    intros H; injection H as <- ->.
    intros c' [Hc|Hc]; [congruence | eauto].
  - intros H c' [Hc|Hc]; [discriminate | eauto].
Qed.

(** The result of the pipeline is the fallback or the value of a text that
    a cascade handed to the parser. *)
Lemma pipeline_cases ser d text :
  pipeline ser d text = fallback text
  \/ exists c, In c (parse_attempts (trace (cascade ser d text)))
               /\ JSON_parse c = Some (pipeline ser d text).
Proof.
  rewrite cascade_attempts, pipeline_recover. unfold recover.
  destruct (first_success ser (strategies text)) as [tried [v|]] eqn:E;
    cbn [fst snd].
  - right. apply first_success_Some in E.
    destruct E as [c [H1 [_ [H3 _]]]]. eauto.
  - now left.
Qed.

(** A value that the pipeline gives for a parsed text is serialised. *)
Lemma pipeline_serialises ser d text :
  pipeline ser d text = fallback text \/ ser (pipeline ser d text) = true.
Proof.
  rewrite pipeline_recover. unfold recover.
  destruct (first_success ser (strategies text)) as [tried [v|]] eqn:E;
    cbn [fst snd].
  - right. apply first_success_Some in E.
    destruct E as [c [_ [_ [_ H]]]]. exact H.
  - now left.
Qed.


(** The whole cascade on the candidate: the direct parse, then the
    sanitized candidate, then its outer braces, then the fallback. *)
Lemma pipeline_steps ser d text :
  pipeline ser d text
  = match accepted ser (JSON_parse text) with
    | Some v => v
    | None =>
        match extractJsonFromText text with
        | Some c =>
            match accepted ser (JSON_parse (sanitizeJsonString c)) with
            | Some v => v
            | None =>
                match outerBraces (sanitizeJsonString c) with
                | Some o =>
                    match accepted ser (JSON_parse o) with
                    | Some v => v
                    | None => fallback text
                    end
                | None => fallback text
                end
            end
        | None => fallback text
        end
    end.
Proof.
  rewrite pipeline_recover, extractJsonFromText_candidate.
  unfold recover, strategies. cbn [first_success].
  destruct (accepted ser (JSON_parse text)); [reflexivity|].
  destruct (candidate text) as [c|]; [|reflexivity].
  cbn [option_map first_success].
  destruct (accepted ser (JSON_parse (sanitizeJsonString c))); [reflexivity|].
  destruct (outerBraces (sanitizeJsonString c)) as [o|]; [|reflexivity].
  cbn [first_success].
  destruct (accepted ser (JSON_parse o)); reflexivity.
Qed.


Lemma pipeline_candidate ser d text c v :
  accepted ser (JSON_parse text) = None ->
  extractJsonFromText text = Some c ->
  JSON_parse (sanitizeJsonString c) = Some v -> ser v = true ->
  pipeline ser d text = v.
Proof.
  intros H1 H2 H3 H4.
  now rewrite pipeline_steps, H1, H2, (accepted_parsed _ _ _ H3 H4).
Qed.

(* ================================================================== *)
(** * Facts about the sanitization steps *)
(* ================================================================== *)





(** A matcher that does not look at the position flag. *)
Lemma replace_global_flag m s :
  (forall t, m true t = m false t) ->
  replace_global m s = replace_global_from m false O s.
Proof.
  intros H. unfold replace_global. destruct s as [|c s]; [reflexivity|].
  now rewrite !replace_global_cons, H.
Qed.







Lemma option_none_of_not_some (A : Type) (o : option A) :
  (forall r, o = Some r -> False) -> o = None.
Proof. destruct o; intros H; [exfalso; eauto | reflexivity]. Qed.




Lemma not_occurs_tail p c s : ~ occurs p (c :: s) -> ~ occurs p s.
Proof.
  intros H [pre [suf ->]]. apply H. now exists (c :: pre), suf.
Qed.

Lemma not_occurs_head p s : ~ occurs p s -> forall r, s <> p ++ r.
Proof. intros H r ->. apply H. now exists [], r. Qed.

(** The first closing marker after a text that holds none. *)
Lemma after_first_here x y m b :
  x <> y -> ~ occurs [x; y] m -> after_first [x; y] (m ++ [x; y] ++ b) = Some b.
Proof.
  intros Hxy. induction m as [|c m IH]; intros Hm.
  - cbn. now rewrite !N.eqb_refl.
  - cbn [app after_first].
    destruct (strip_prefix [x; y] _) as [r|] eqn:E.
    + exfalso. apply strip_prefix_app in E.
      destruct m as [|d m]; cbn in E.
      * injection E as -> E. congruence.
      * injection E as -> -> E. apply Hm. now exists [], m.
    + apply IH. eapply not_occurs_tail; eauto.
Qed.

(** The block-comment step: a comment that opens after a text without an
    opening marker is deleted up to its first closing marker, and the text
    after it is treated on its own. Quotes play no part. *)
Lemma block_comment_removed m b :
  ~ occurs [c_star; c_slash] m ->
  forall a,
    ~ occurs [c_slash; c_star] a ->
    replace_global_from block_comment_at false O
      (a ++ [c_slash; c_star] ++ m ++ [c_star; c_slash] ++ b)
    = a ++ replace_global_from block_comment_at false O b.
Proof.
  intros Hm. induction a as [|c a IH]; intros Ha.
  - cbn [app].
    assert (E : block_comment_at false
                  (c_slash :: c_star :: m ++ c_star :: c_slash :: b)
                = Some ([], b)).
    { unfold block_comment_at. cbn [strip_prefix]. rewrite !N.eqb_refl.
      change (m ++ c_star :: c_slash :: b)
        with (m ++ [c_star; c_slash] ++ b).
      rewrite after_first_here; auto. discriminate. }
    now rewrite (replace_global_match _ block_comment_at_shrinking _ _ _ _ E).
  - cbn [app].
    rewrite replace_global_nomatch.
    + f_equal. apply IH. eapply not_occurs_tail; eauto.
    + unfold block_comment_at.
      destruct (strip_prefix [c_slash; c_star] _) as [r|] eqn:E; auto.
      exfalso. apply strip_prefix_app in E.
      destruct a as [|d a]; cbn in E.
      * injection E as -> E. discriminate.
      * injection E as -> -> E. apply Ha. now exists [], a.
Qed.

Lemma skip_line_app l rest :
  Forall (fun c => is_line_terminator c = false) l ->
  rest = [] \/ (exists t r, rest = t :: r /\ is_line_terminator t = true) ->
  skip_line (l ++ rest) = rest.
Proof.
  intros Hl Hr. induction Hl as [|c l Hc _ IH]; cbn [app skip_line].
  - destruct Hr as [->|[t [r [-> Ht]]]]; [reflexivity|].
    cbn [skip_line]. now rewrite Ht.
  - now rewrite Hc.
Qed.

(** The start of a text that opens with two slashes, seen in a longer
    text. *)
Lemma two_slashes_prefix a p y r :
  strip_prefix [c_slash; c_slash] ((a ++ [p; c_slash]) ++ y) = Some r ->
  exists suf, a ++ [p; c_slash] = c_slash :: c_slash :: suf.
Proof.
  intros E. apply strip_prefix_app in E.
  destruct a as [|c [|e a]]; cbn [app] in E |- *.
  - injection E as -> _. now exists [].
  - injection E as -> -> _. now exists [c_slash].
  - injection E as -> -> _. now exists (a ++ [p; c_slash]).
Qed.

Lemma slashes_protected_tail st c a :
  slashes_protected st (c :: a) -> slashes_protected false a.
Proof.
  intros [H _]. split; [|discriminate].
  intros pre x suf E. apply (H (c :: pre) x suf). now rewrite E.
Qed.

(** The line-comment step: two slashes that follow a character other than a
    colon and a backslash are deleted with the rest of their line, the
    character before them is kept, and the text from the line terminator on
    is treated on its own, provided the two slashes that come earlier are
    all passed over. Quotes play no part. *)
Lemma line_comment_removed p l rest :
  p <> c_colon -> p <> c_backslash ->
  Forall (fun c => is_line_terminator c = false) l ->
  rest = [] \/ (exists t r, rest = t :: r /\ is_line_terminator t = true) ->
  forall a st,
    slashes_protected st (a ++ [p; c_slash]) ->
    replace_global_from line_comment_at st O
      (a ++ p :: [c_slash; c_slash] ++ l ++ rest)
    = a ++ p :: replace_global_from line_comment_at false O rest.
Proof.
  intros Hp1 Hp2 Hl Hr.
  induction a as [|c a IH]; intros st Ha.
  - cbn [app].
    assert (E : line_comment_at st (p :: c_slash :: c_slash :: l ++ rest)
                = Some ([p], rest)).
    { unfold line_comment_at.
      assert (E1 : (if st
                    then strip_prefix [c_slash; c_slash]
                           (p :: c_slash :: c_slash :: l ++ rest)
                    else None) = None).
      { destruct st; [|reflexivity].
        apply option_none_of_not_some. intros r E.
        apply strip_prefix_app in E. cbn [app] in E. injection E as -> _.
        destruct Ha as [_ Ha]. now apply (Ha eq_refl []). }
      rewrite E1.
      apply N.eqb_neq in Hp1, Hp2. rewrite Hp1, Hp2. cbn [orb].
      cbn [strip_prefix]. rewrite !N.eqb_refl.
      now rewrite skip_line_app. }
    now rewrite (replace_global_match _ line_comment_at_shrinking _ _ _ _ E).
  - cbn [app].
    rewrite replace_global_nomatch.
    + f_equal. apply IH. eapply slashes_protected_tail; eauto.
    + unfold line_comment_at.
      replace (c :: a ++ p :: c_slash :: c_slash :: l ++ rest)
        with (((c :: a) ++ [p; c_slash]) ++ c_slash :: l ++ rest)
        by app_norm.
      assert (E1 : (if st
                    then strip_prefix [c_slash; c_slash]
                           (((c :: a) ++ [p; c_slash])
                              ++ c_slash :: l ++ rest)
                    else None) = None).
      { destruct st; [|reflexivity].
        apply option_none_of_not_some. intros r E.
        apply two_slashes_prefix in E. destruct E as [suf E].
        destruct Ha as [_ Ha]. now apply (Ha eq_refl suf). }
      rewrite E1. cbn [app].
      destruct ((c =? c_colon)%N || (c =? c_backslash)%N) eqn:Ec;
        [reflexivity|].
      assert (E2 : strip_prefix [c_slash; c_slash]
                     (a ++ [p; c_slash] ++ c_slash :: l ++ rest) = None).
      { apply option_none_of_not_some. intros r E.
        rewrite app_assoc in E.
        apply two_slashes_prefix in E. destruct E as [suf E].
        destruct Ha as [Ha _].
        apply orb_false_elim in Ec. destruct Ec as [Ec1 Ec2].
        apply N.eqb_neq in Ec1, Ec2.
        destruct (Ha [] c suf) as [Hc|Hc]; [|congruence|congruence].
        cbn [app]. now rewrite E. }
      cbn [app] in E2. now rewrite E2.
Qed.

(** A text in which two slashes occur nowhere, and one in which they only
    follow colons and backslashes. *)
Lemma slashes_protected_none st a :
  ~ occurs [c_slash; c_slash] a -> slashes_protected st a.
Proof.
  intros H. split.
  - intros pre x suf E. exfalso. apply H. exists (pre ++ [x]), suf.
    rewrite E. app_norm.
  - intros _ suf E. apply H. exists [], suf. now rewrite E.
Qed.

Lemma slashes_protected_snoc st a p :
  p <> c_slash -> slashes_protected st a ->
  slashes_protected st (a ++ [p; c_slash]).
Proof.
  intros Hp [H1 H2]. split.
  - intros pre x suf E. apply (H1 pre x (removelast (removelast suf))).
    assert (L : exists suf', suf = suf' ++ [p; c_slash]).
    { destruct (exists_last (l := suf)) as [s1 [z1 E1]].
      { intros ->. apply (f_equal (@rev N)) in E.
        rewrite !rev_app_distr in E. cbn in E. injection E as E _ . congruence. }
      subst suf.
      destruct (exists_last (l := s1)) as [s2 [z2 E2]].
      { intros ->. apply (f_equal (@rev N)) in E.
        rewrite !rev_app_distr in E. cbn in E.
        injection E as E3 E4 _. congruence. }
      subst s1. exists s2.
      apply (f_equal (@rev N)) in E.
      rewrite !rev_app_distr in E. cbn in E.
      rewrite !rev_app_distr in E. cbn in E.
      injection E as E3 E4 _. subst. now rewrite <- app_assoc. }
    destruct L as [suf' ->].
    replace (pre ++ x :: c_slash :: c_slash :: suf' ++ [p; c_slash])
      with ((pre ++ x :: c_slash :: c_slash :: suf') ++ [p; c_slash]) in E
      by app_norm.
    apply app_inv_tail in E. rewrite E. do 4 f_equal.
    replace (suf' ++ [p; c_slash]) with ((suf' ++ [p]) ++ [c_slash])
      by app_norm.
    now rewrite !removelast_last.
  - intros Hst suf E. destruct a as [|c [|e a]]; cbn [app] in E.
    + injection E as -> _. congruence.
    + injection E as -> -> _. congruence.
    + injection E as -> -> _. now apply (H2 Hst a).
Qed.

(** Two slashes at the very start of the text. *)
Lemma line_comment_removed_at_start l rest :
  Forall (fun c => is_line_terminator c = false) l ->
  rest = [] \/ (exists t r, rest = t :: r /\ is_line_terminator t = true) ->
  replace_global line_comment_at ([c_slash; c_slash] ++ l ++ rest)
  = replace_global_from line_comment_at false O rest.
Proof.
  intros Hl Hr. unfold replace_global.
  assert (E : line_comment_at true ([c_slash; c_slash] ++ l ++ rest)
              = Some ([], rest)).
  { unfold line_comment_at. cbn [app strip_prefix]. rewrite !N.eqb_refl.
    now rewrite skip_line_app. }
  now rewrite (replace_global_match _ line_comment_at_shrinking _ _ _ _ E).
Qed.

Lemma block_comment_at_flag t :
  block_comment_at true t = block_comment_at false t.
Proof. reflexivity. Qed.


(* ================================================================== *)
(** * The brace scan on JSON text *)
(* ================================================================== *)













Lemma no_backslash_scanned t : ~ In c_backslash t -> quotes_scanned t.
Proof.
  intros Hn pre x k suf E. exfalso. apply Hn. rewrite E.
  apply in_or_app. right. right.
  replace (2 * k + 2)%nat with (S (2 * k + 1)) by lia.
  cbn [repeat app]. now left.
Qed.























Lemma indexOf_first c p r :
  ~ In c p -> indexOf c (p ++ c :: r) = Some (List.length p).
Proof.
  induction p as [|x p IH]; intros Hp; cbn [app indexOf List.length].
  - now rewrite N.eqb_refl.
  - destruct (N.eqb_spec x c) as [->|_]; [exfalso; apply Hp; now left|].
    rewrite IH; [reflexivity|]. intros H. apply Hp. now right.
Qed.


Lemma skip_spaces_length s : (List.length (skip_spaces s) <= List.length s)%nat.
Proof.
  destruct (skip_spaces_split s) as [pre [H _]].
  rewrite H at 2. rewrite length_app. lia.
Qed.

Lemma skip_spaces_length_eq s :
  List.length (skip_spaces s) = List.length s -> skip_spaces s = s.
Proof.
  destruct (skip_spaces_split s) as [pre [H _]]. intros E.
  rewrite H in E at 2. rewrite length_app in E.
  destruct pre; [now rewrite H at 2 | cbn in E; lia].
Qed.

(** A trimmed text neither starts nor ends with white space. *)
Lemma trim_eq_inv s :
  trim s = s -> skip_spaces s = s /\ skip_spaces (rev s) = rev s.
Proof.
  unfold trim, trim_end, trim_start. intros E.
  pose proof (skip_spaces_length s) as L1.
  pose proof (skip_spaces_length (rev (skip_spaces s))) as L2.
  apply (f_equal (@List.length N)) in E as EL.
  rewrite length_rev in EL. rewrite length_rev in L2.
  assert (E1 : skip_spaces s = s) by (apply skip_spaces_length_eq; lia).
  split; auto. rewrite E1 in *.
  apply skip_spaces_length_eq. rewrite length_rev. lia.
Qed.



Lemma exec_first_none (A : Type) (m : jsstring -> option A) : forall s,
  (forall pre suf, s = pre ++ suf -> m suf = None) -> exec_first m s = None.
Proof.
  induction s as [|c s IH]; intros H; cbn [exec_first].
  - now rewrite (H [] [] eq_refl).
  - rewrite (H [] (c :: s) eq_refl). apply IH.
    intros pre suf ->. apply (H (c :: pre)). reflexivity.
Qed.




Lemma not_in_indexOf c s : indexOf c s = None -> ~ In c s.
Proof. apply indexOf_None. Qed.


Lemma not_occurs_short p c : (1 < List.length p)%nat -> ~ occurs p [c].
Proof.
  intros Hp [pre [suf E]]. apply (f_equal (@List.length N)) in E.
  rewrite !length_app in E. cbn in E. lia.
Qed.
(* ================================================================== *)
(** * Trailing commas and the brace scan *)
(* ================================================================== *)




Lemma commas_removed_nonempty s s' :
  commas_removed s s' -> s <> [] -> s' <> [].
Proof. intros H Hs. destruct H; congruence. Qed.














(* ================================================================== *)
(** * The brace scan on a text without double quotes *)
(* ================================================================== *)



(* ================================================================== *)
(** * The handlers from the provider's text on *)
(* ================================================================== *)

Lemma respond_value ser d failure text :
  value (respond ser d failure text)
  = if ser (pipeline ser d text)
    then {| status := 200; body := pipeline ser d text |}
    else failure.
Proof.
  unfold respond, pipeline, bindM, ret, value.
  destruct (cascade ser d text) as [t v]. reflexivity.
Qed.

Lemma respond_trace ser d failure text :
  trace (respond ser d failure text) = trace (cascade ser d text).
Proof.
  unfold respond, bindM, ret, trace.
  destruct (cascade ser d text) as [t v]. cbn [fst]. apply app_nil_r.
Qed.

(** With a fallback that is serialised the answer is 200 and the result of
    the pipeline. *)
Lemma respond_ok ser d failure text :
  ser (fallback text) = true ->
  value (respond ser d failure text)
  = {| status := 200; body := pipeline ser d text |}.
Proof.
  intros H. rewrite respond_value.
  destruct (pipeline_serialises ser d text) as [E|E].
  - now rewrite E, H.
  - now rewrite E.
Qed.

Lemma server_handler_text ser nts niz model b prompt text :
  b <> JNull ->
  server_prompt nts niz (fields_of b) = Some prompt ->
  model prompt = Some text ->
  server_handler ser nts niz (Some model) (Some b)
  = (GenerateContent prompt :: trace (cascade ser Server text),
     value (respond ser Server server_failure text)).
Proof.
  intros Hb Hp Hm. unfold server_handler. rewrite Hp.
  unfold generateContent, bindM. rewrite Hm.
  pose proof (respond_trace ser Server server_failure text) as Et.
  unfold trace, value in *.
  destruct (respond ser Server server_failure text) as [t r].
  cbn [fst snd] in *. subst t. destruct b; try congruence; reflexivity.
Qed.

Lemma handler_text ser nts niz model event b prompt text :
  httpMethod event = js "POST" ->
  JSON_parse (match eventBody event with
              | Some (c :: r) => c :: r
              | _ => js "{}"
              end) = Some b ->
  b <> JNull ->
  netlify_prompt nts niz (fields_of b) = Some prompt ->
  model prompt = Some text ->
  value (handler ser nts niz (Some model) event)
  = value (respond ser Netlify function_failure text)
  /\ exists t0,
       trace (handler ser nts niz (Some model) event)
       = t0 :: GenerateContent prompt :: trace (cascade ser Netlify text).
Proof.
  intros Hm0 Hj Hb Hp Hm. unfold handler. rewrite Hm0.
  replace (negb (str_eqb (js "POST") (js "POST"))) with false by reflexivity.
  cbn iota. unfold jsonParse, generateContent, bindM. rewrite Hj.
  pose proof (respond_trace ser Netlify function_failure text) as Et.
  unfold trace, value in *.
  destruct b; try congruence; rewrite Hp, Hm;
    destruct (respond ser Netlify function_failure text) as [t r];
    cbn [fst snd] in *; subst t;
    (split; [reflexivity | eexists; reflexivity]).
Qed.
(** The result of the pipeline is the fallback or the value of a text that
    a cascade handed to the parser, a value that is serialised. *)
Lemma pipeline_cases_serialised ser d text :
  pipeline ser d text = fallback text
  \/ exists c, In c (parse_attempts (trace (cascade ser d text)))
               /\ JSON_parse c = Some (pipeline ser d text)
               /\ ser (pipeline ser d text) = true.
Proof.
  rewrite cascade_attempts, pipeline_recover. unfold recover.
  destruct (first_success ser (strategies text)) as [tried [v|]] eqn:E;
    cbn [fst snd].
  - right. apply first_success_Some in E.
    destruct E as [c [H1 [_ [H3 H4]]]]. eauto.
  - now left.
Qed.

(** Without a direct parse and without a candidate the result is the
    fallback. *)
Lemma pipeline_no_candidate ser d text :
  JSON_parse text = None -> extractJsonFromText text = None ->
  pipeline ser d text = fallback text.
Proof.
  intros H1 H2. now rewrite pipeline_steps, H1, H2.
Qed.


(** Two slashes that follow a colon or a backslash are left alone. *)
Lemma line_comment_protected a :
  forall st, slashes_protected st a ->
             replace_global_from line_comment_at st O a = a.
Proof.
  induction a as [|c a IH]; intros st Ha; [reflexivity|].
  rewrite replace_global_nomatch.
  - f_equal. apply IH. eapply slashes_protected_tail; eauto.
  - unfold line_comment_at.
    assert (E1 : (if st then strip_prefix [c_slash; c_slash] (c :: a)
                  else None) = None).
    { destruct st; [|reflexivity].
      apply option_none_of_not_some. intros r E.
      apply strip_prefix_app in E. destruct Ha as [_ Ha].
      now apply (Ha eq_refl r). }
    rewrite E1.
    destruct ((c =? c_colon)%N || (c =? c_backslash)%N) eqn:Ec;
      [reflexivity|].
    destruct (strip_prefix [c_slash; c_slash] a) as [r|] eqn:E;
      [|reflexivity].
    exfalso. apply strip_prefix_app in E. destruct Ha as [Ha _].
    apply orb_false_elim in Ec. destruct Ec as [Ec1 Ec2].
    apply N.eqb_neq in Ec1, Ec2.
    destruct (Ha [] c r) as [Hc|Hc]; [|congruence|congruence].
    cbn [app]. now rewrite E.
Qed.
(* ================================================================== *)
(** * The claims *)
(* ================================================================== *)

(** C1. For every raw text the pipeline returns one result, which is the
    fallback object holding the raw text or the value that [JSON.parse]
    gave for one of the texts the cascade tried and that the response
    serialised; no failure of a parse or of a serialisation in the cascade
    escapes it. This holds in both deployments and for every engine. From
    the provider's text on a handler answers 200 with that result; only a
    fallback object that the engine does not serialise is answered by the
    outer [catch]. The empty text, white space, prose and a truncated
    object all give the fallback. *)
Theorem C1_pipeline_returns_parse_or_fallback :
  (forall ser d text,
      pipeline ser d text = fallback text
      \/ exists c, In c (parse_attempts (trace (cascade ser d text)))
                   /\ JSON_parse c = Some (pipeline ser d text)
                   /\ ser (pipeline ser d text) = true)
  /\ (forall ser d failure text,
         value (respond ser d failure text)
         = if ser (pipeline ser d text)
           then {| status := 200; body := pipeline ser d text |}
           else failure)
  /\ (forall ser d failure text,
         ser (fallback text) = true ->
         value (respond ser d failure text)
         = {| status := 200; body := pipeline ser d text |})
  /\ (forall ser nts niz model b prompt text,
         b <> JNull ->
         server_prompt nts niz (fields_of b) = Some prompt ->
         model prompt = Some text ->
         value (server_handler ser nts niz (Some model) (Some b))
         = value (respond ser Server server_failure text))
  /\ (forall ser nts niz model event b prompt text,
         httpMethod event = js "POST" ->
         JSON_parse (match eventBody event with
                     | Some (c :: r) => c :: r
                     | _ => js "{}"
                     end) = Some b ->
         b <> JNull ->
         netlify_prompt nts niz (fields_of b) = Some prompt ->
         model prompt = Some text ->
         value (handler ser nts niz (Some model) event)
         = value (respond ser Netlify function_failure text))
  /\ (forall ser d,
         pipeline ser d [] = fallback []
         /\ pipeline ser d (js "  ") = fallback (js "  ")
         /\ pipeline ser d (js "Sorry, I cannot help.")
            = fallback (js "Sorry, I cannot help.")
         /\ pipeline ser d (js "{" ++ q "itinerary" ++ js ": ")
            = fallback (js "{" ++ q "itinerary" ++ js ": ")).
Proof.
  split; [|split; [|split; [|split; [|split]]]].
  - apply pipeline_cases_serialised.
  - apply respond_value.
  - apply respond_ok.
  - intros ser nts niz model b prompt text Hb Hp Hm.
    now rewrite (server_handler_text _ _ _ _ _ _ _ Hb Hp Hm).
  - intros ser nts niz model event b prompt text Hm0 Hj Hb Hp Hm.
    exact (proj1 (handler_text _ _ _ _ _ _ _ _ Hm0 Hj Hb Hp Hm)).
  - intros ser d.
    repeat split; apply pipeline_no_candidate; vm_compute; reflexivity.
Qed.

Lemma C1_pipeline_returns_parse_or_fallback_witness :
  (engine (fallback fenced_plan) = true
   /\ value (respond engine Server server_failure fenced_plan)
      = {| status := 200; body := pipeline engine Server fenced_plan |})
  /\ (JObject [] <> JNull
      /\ server_prompt lexeme_text never_zero (fields_of (JObject []))
         = Some empty_request_prompt
      /\ value (server_handler engine lexeme_text never_zero
                  (Some (fun _ => Some fenced_plan)) (Some (JObject [])))
         = value (respond engine Server server_failure fenced_plan))
  /\ (httpMethod {| httpMethod := js "POST"; eventBody := None |} = js "POST"
      /\ JSON_parse (js "{}") = Some (JObject [])
      /\ value (handler engine lexeme_text never_zero
                  (Some (fun _ => Some fenced_plan))
                  {| httpMethod := js "POST"; eventBody := None |})
         = value (respond engine Netlify function_failure fenced_plan)).
Proof.
  destruct C1_pipeline_returns_parse_or_fallback as [_ [_ [T3 [T4 [T5 _]]]]].
  assert (A1 : engine (fallback fenced_plan) = true)
    by (vm_compute; reflexivity).
  assert (B1 : JObject [] <> JNull) by discriminate.
  assert (B2 : server_prompt lexeme_text never_zero (fields_of (JObject []))
               = Some empty_request_prompt)
    by (vm_compute; reflexivity).
  assert (C1 : httpMethod {| httpMethod := js "POST"; eventBody := None |}
               = js "POST") by reflexivity.
  assert (C2 : JSON_parse (js "{}") = Some (JObject []))
    by (vm_compute; reflexivity).
  assert (C3 : netlify_prompt lexeme_text never_zero (fields_of (JObject []))
               = Some (match netlify_prompt lexeme_text never_zero
                               (fields_of (JObject [])) with
                       | Some p => p
                       | None => []
                       end))
    by (vm_compute; reflexivity).
  split; [split; [exact A1 | exact (T3 _ Server server_failure _ A1)]|].
  split.
  - split; [exact B1|]. split; [exact B2|].
    exact (T4 engine _ _ (fun _ => Some fenced_plan) _ _ fenced_plan
             B1 B2 eq_refl).
  - split; [exact C1|]. split; [exact C2|].
    exact (T5 engine _ _ (fun _ => Some fenced_plan)
             {| httpMethod := js "POST"; eventBody := None |} _ _ fenced_plan
             C1 C2 B1 C3 eq_refl).
Defined.




(** C3, as stated, fails: an object that parses but lacks [places] is
    returned as it is. *)
Lemma C3_missing_places_counterexample :
  pipeline engine Server itinerary_only
  = JObject [(js "itinerary", JString (js "Day 1"))]
  /\ is_itinerary_result (pipeline engine Server itinerary_only) = false
  /\ is_itinerary_result (pipeline engine Netlify itinerary_only) = false.
Proof. repeat split; vm_compute; reflexivity. Qed.

(** C3, amended. The fallback object has the ItineraryResult shape for
    every raw text, and a result without that shape is always a value that
    [JSON.parse] gave for one of the texts tried: the cascades return
    parsed values unchecked. *)
Theorem C3_shape_of_results ser d text :
  is_itinerary_result (fallback text) = true
  /\ (is_itinerary_result (pipeline ser d text) = false ->
      exists c, In c (parse_attempts (trace (cascade ser d text)))
                /\ JSON_parse c = Some (pipeline ser d text)).
Proof.
  split; [reflexivity|]. intros H.
  destruct (pipeline_cases ser d text) as [Hf|Hc]; auto.
  rewrite Hf in H. discriminate.
Qed.

Lemma C3_shape_of_results_witness :
  is_itinerary_result (pipeline engine Netlify itinerary_only) = false
  /\ exists c,
       In c (parse_attempts (trace (cascade engine Netlify itinerary_only)))
       /\ JSON_parse c = Some (pipeline engine Netlify itinerary_only).
Proof.
  assert (H : is_itinerary_result (pipeline engine Netlify itinerary_only)
              = false)
    by (vm_compute; reflexivity).
  split; [exact H|].
  exact (proj2 (C3_shape_of_results engine Netlify itinerary_only) H).
Defined.







(** C6, on the code. A quote that follows a backslash never toggles string
    mode, whether or not that backslash is itself escaped: after an opening
    quote and two backslashes the closing quote leaves the loop in string
    mode. On a text whose string value ends with an escaped backslash the
    brace scan therefore finds nothing, and the pipeline falls back although
    the object in the text is valid JSON. *)
Theorem C6_quote_after_backslash :
  (forall d b, scan_step c_dquote d b (Some c_backslash) = (d, b))
  /\ scan_state [c_dquote; c_backslash; c_backslash; c_dquote] 1 false None
     = (1%Z, true, Some c_dquote)
  /\ JSON_parse path_c_json = Some (result (js "Path C:" ++ [c_backslash]))
  /\ braceScan path_c = None
  /\ (forall ser d, pipeline ser d path_c = fallback path_c).
Proof.
  split; [|split; [|split; [|split]]].
  - intros d b. unfold scan_step. cbn. now destruct b.
  - reflexivity.
  - vm_compute. reflexivity.
  - vm_compute. reflexivity.
  - intros ser d. apply pipeline_no_candidate; vm_compute; reflexivity.
Qed.







(** C9, as stated, fails for the serverless function: a request that is
    not a POST is answered 405 before the provider is looked at. *)
Lemma C9_method_first_counterexample :
  handler engine lexeme_text never_zero None
    {| httpMethod := js "GET"; eventBody := None |}
  = ([], method_not_allowed)
  /\ status method_not_allowed = 405%nat.
Proof. split; reflexivity. Qed.

(** C9, amended. With no provider client, the handler of [server.js]
    answers every request whose body is a value other than [undefined] and
    [null], and the serverless function every POST request, with status 503
    and the service-not-configured error, and does so without any call: the
    provider is not invoked and nothing is parsed, extracted or sanitized.
    In [server.js] the destructuring of the body comes before the test of
    the client, so a request without a body is answered 500; the serverless
    function answers every request that is not a POST with 405, client or
    not. With a client, the first call of [server.js] is the one to the
    provider when the prompt can be built, and there is no call and the
    answer is 500 when it cannot. *)
Theorem C9_unconfigured_is_503 ser nts niz :
  (forall b,
      b <> JNull ->
      server_handler ser nts niz None (Some b) = ([], server_not_configured))
  /\ server_handler ser nts niz None None = ([], server_failure)
  /\ server_handler ser nts niz None (Some JNull) = ([], server_failure)
  /\ (forall event,
         httpMethod event = js "POST" ->
         handler ser nts niz None event = ([], function_not_configured))
  /\ (forall genAI event,
         httpMethod event <> js "POST" ->
         handler ser nts niz genAI event = ([], method_not_allowed))
  /\ status server_not_configured = 503%nat
  /\ status function_not_configured = 503%nat
  /\ status method_not_allowed = 405%nat
  /\ status server_failure = 500%nat
  /\ (forall model b prompt,
         b <> JNull ->
         server_prompt nts niz (fields_of b) = Some prompt ->
         exists rest,
           trace (server_handler ser nts niz (Some model) (Some b))
           = GenerateContent prompt :: rest)
  /\ (forall model b,
         server_prompt nts niz (fields_of b) = None ->
         server_handler ser nts niz (Some model) (Some b)
         = ([], server_failure)).
Proof.
  split; [|split; [|split; [|split; [|split; [|split; [|split; [|split;
    [|split; [|split]]]]]]]]]; try reflexivity.
  - intros b Hb. destruct b; try reflexivity. congruence.
  - intros event H. unfold handler. rewrite H. reflexivity.
  - intros genAI event H. unfold handler.
    destruct (str_eqb (httpMethod event) (js "POST")) eqn:E; [|reflexivity].
    apply str_eqb_eq in E. contradiction.
  - intros model b prompt Hb Hp. unfold server_handler. rewrite Hp.
    unfold generateContent, bindM, ret, trace.
    destruct (model prompt) as [text|].
    + destruct (respond ser Server server_failure text) as [t v].
      destruct b; try congruence; eexists; reflexivity.
    + destruct b; try congruence; eexists; reflexivity.
  - intros model b Hp. unfold server_handler. rewrite Hp.
    destruct b; reflexivity.
Qed.

Lemma C9_unconfigured_is_503_witness :
  (JObject [] <> JNull
   /\ server_handler engine lexeme_text never_zero None (Some (JObject []))
      = ([], server_not_configured))
  /\ (httpMethod {| httpMethod := js "POST"; eventBody := None |} = js "POST"
      /\ handler engine lexeme_text never_zero None
           {| httpMethod := js "POST"; eventBody := None |}
         = ([], function_not_configured))
  /\ (httpMethod {| httpMethod := js "GET"; eventBody := None |} <> js "POST"
      /\ handler engine lexeme_text never_zero
           (Some (fun _ => Some fenced_plan))
           {| httpMethod := js "GET"; eventBody := None |}
         = ([], method_not_allowed))
  /\ (server_prompt lexeme_text never_zero (fields_of (JObject []))
      = Some empty_request_prompt
      /\ exists rest,
           trace (server_handler engine lexeme_text never_zero
                    (Some (fun _ => Some fenced_plan)) (Some (JObject [])))
           = GenerateContent empty_request_prompt :: rest)
  /\ (server_prompt lexeme_text never_zero (fields_of destination_object)
      = None
      /\ server_handler engine lexeme_text never_zero
           (Some (fun _ => Some fenced_plan)) (Some destination_object)
         = ([], server_failure)).
Proof.
  destruct (C9_unconfigured_is_503 engine lexeme_text never_zero)
    as [T1 [_ [_ [T4 [T5 [_ [_ [_ [_ [T10 T11]]]]]]]]]].
  assert (A1 : JObject [] <> JNull) by discriminate.
  assert (B1 : httpMethod {| httpMethod := js "GET"; eventBody := None |}
               <> js "POST") by discriminate.
  assert (C1 : server_prompt lexeme_text never_zero (fields_of (JObject []))
               = Some empty_request_prompt)
    by (vm_compute; reflexivity).
  assert (D1 : server_prompt lexeme_text never_zero
                 (fields_of destination_object) = None)
    by (vm_compute; reflexivity).
  split; [split; [exact A1 | exact (T1 _ A1)]|].
  split; [split; [reflexivity|];
          exact (T4 {| httpMethod := js "POST"; eventBody := None |} eq_refl)|].
  split; [split; [exact B1 | exact (T5 _ _ B1)]|].
  split; [split; [exact C1 | exact (T10 _ _ _ A1 C1)]|].
  split; [exact D1 | exact (T11 _ _ D1)].
Defined.

(** C10. The two comment replacements look at no quotes. A block comment
    is deleted from its opening marker to the first closing marker. Two
    slashes that follow a character other than a colon and a backslash are
    deleted with the rest of their line, that character staying, wherever
    they stand: the text before them may hold any two slashes that the
    expression passes over, and the text from the line terminator on is
    treated in the same way; two slashes that open the text go with their
    line; two slashes that follow a colon or a backslash stay. So
    sanitization destroys a valid object whose string value is a
    protocol-relative URL, also after a URL with a scheme, and changes one
    whose string value holds a block comment. *)
Theorem C10_comments_stripped_inside_strings :
  (forall a m b,
      ~ occurs [c_slash; c_star] a -> ~ occurs [c_star; c_slash] m ->
      replace_global block_comment_at
        (a ++ [c_slash; c_star] ++ m ++ [c_star; c_slash] ++ b)
      = a ++ replace_global block_comment_at b)
  /\ (forall st a p l rest,
         slashes_protected st (a ++ [p; c_slash]) ->
         p <> c_colon -> p <> c_backslash ->
         Forall (fun c => is_line_terminator c = false) l ->
         rest = []
         \/ (exists t r, rest = t :: r /\ is_line_terminator t = true) ->
         replace_global_from line_comment_at st O
           (a ++ p :: [c_slash; c_slash] ++ l ++ rest)
         = a ++ p :: replace_global_from line_comment_at false O rest)
  /\ (forall l rest,
         Forall (fun c => is_line_terminator c = false) l ->
         rest = []
         \/ (exists t r, rest = t :: r /\ is_line_terminator t = true) ->
         replace_global line_comment_at ([c_slash; c_slash] ++ l ++ rest)
         = replace_global_from line_comment_at false O rest)
  /\ (forall st a,
         slashes_protected st a ->
         replace_global_from line_comment_at st O a = a)
  /\ (forall st a p,
         slashes_protected st a -> p <> c_slash ->
         slashes_protected st (a ++ [p; c_slash]))
  /\ (forall s,
         replace_global line_comment_at s
         = replace_global_from line_comment_at true O s)
  /\ (JSON_parse cdn_image
      = Some (JObject [(js "image", JString (js "//cdn.example.com/a.png"))])
      /\ sanitizeJsonString cdn_image = js "{" ++ q "image" ++ js ":" ++ dq
      /\ JSON_parse (sanitizeJsonString cdn_image) = None)
  /\ (JSON_parse url_then_cdn
      = Some (JObject [(js "site", JString (js "http://a.b/c"));
                       (js "image", JString (js "//cdn.example.com/a.png"))])
      /\ sanitizeJsonString url_then_cdn
         = js "{" ++ q "site" ++ js ":" ++ q "http://a.b/c" ++ js ","
             ++ q "image" ++ js ":" ++ dq
      /\ JSON_parse (sanitizeJsonString url_then_cdn) = None)
  /\ sanitizeJsonString two_comments
     = js "{ " ++ nl ++ q "a" ++ js ":1 " ++ nl ++ js "}"
  /\ (JSON_parse note_comment
      = Some (JObject [(js "note", JString (js "a /* b */ c"))])
      /\ JSON_parse (sanitizeJsonString note_comment)
         = Some (JObject [(js "note", JString (js "a  c"))])).
Proof.
  split; [|split; [|split; [|split; [|split; [|split; [|split; [|split;
    [|split]]]]]]]].
  - intros a m b Ha Hm.
    rewrite !(replace_global_flag _ _ block_comment_at_flag).
    now apply block_comment_removed.
  - intros st a p l rest Ha Hp1 Hp2 Hl Hr.
    now apply line_comment_removed.
  - apply line_comment_removed_at_start.
  - intros st a. apply line_comment_protected.
  - intros st a p Ha Hp. now apply slashes_protected_snoc.
  - reflexivity.
  - repeat split; vm_compute; reflexivity.
  - repeat split; vm_compute; reflexivity.
  - vm_compute. reflexivity.
  - repeat split; vm_compute; reflexivity.
Qed.

Lemma C10_comments_stripped_inside_strings_witness :
  (~ occurs [c_slash; c_star] [c_dquote]
   /\ ~ occurs [c_star; c_slash] (js " b ")
   /\ replace_global block_comment_at
        ([c_dquote] ++ [c_slash; c_star] ++ js " b " ++ [c_star; c_slash]
         ++ dq)
      = [c_dquote] ++ replace_global block_comment_at dq)
  /\ (slashes_protected true (js "s://h")
      /\ c_dquote <> c_slash
      /\ slashes_protected true (js "s://h" ++ [c_dquote; c_slash])
      /\ c_dquote <> c_colon /\ c_dquote <> c_backslash
      /\ Forall (fun c => is_line_terminator c = false) (js "cdn")
      /\ (nl = []
          \/ exists t r, nl = t :: r /\ is_line_terminator t = true)
      /\ replace_global_from line_comment_at true O
           (js "s://h" ++ c_dquote :: [c_slash; c_slash] ++ js "cdn"
              ++ nl)
         = js "s://h"
           ++ c_dquote :: replace_global_from line_comment_at false O nl
      /\ replace_global_from line_comment_at true O (js "s://h")
         = js "s://h")
  /\ (Forall (fun c => is_line_terminator c = false) (js "note")
      /\ replace_global line_comment_at ([c_slash; c_slash] ++ js "note" ++ [])
         = replace_global_from line_comment_at false O []).
Proof.
  destruct C10_comments_stripped_inside_strings
    as [T1 [T2 [T3 [T4 [T5 _]]]]].
  assert (A1 : ~ occurs [c_slash; c_star] [c_dquote])
    by (apply not_occurs_short; cbn; lia).
  assert (A2 : ~ occurs [c_star; c_slash] (js " b ")).
  { intros [pre [suf E]].
    destruct pre as [|x1 [|x2 [|x3 [|x4 pre]]]]; cbn in E; discriminate. }
  assert (B1 : slashes_protected true (js "s://h")).
  { split.
    - intros pre x suf E.
      destruct pre as [|x1 [|x2 [|x3 [|x4 [|x5 pre]]]]];
        cbn in E; try discriminate; try (destruct pre; discriminate).
      inversion E. now left.
    - intros _ suf E. discriminate. }
  assert (B2 : c_dquote <> c_slash) by discriminate.
  assert (B3 : c_dquote <> c_colon) by discriminate.
  assert (B4 : c_dquote <> c_backslash) by discriminate.
  assert (B5 : Forall (fun c => is_line_terminator c = false) (js "cdn"))
    by (repeat constructor).
  assert (B6 : nl = []
               \/ exists t r, nl = t :: r /\ is_line_terminator t = true)
    by (right; exists c_lf, []; split; reflexivity).
  assert (C1 : Forall (fun c => is_line_terminator c = false) (js "note"))
    by (repeat constructor).
  pose proof (T5 _ _ _ B1 B2) as B7.
  split; [|split].
  - repeat (split; [assumption|]). exact (T1 _ _ _ A1 A2).
  - repeat (split; [assumption|]).
    split; [exact (T2 _ _ _ _ _ B7 B3 B4 B5 B6) | exact (T4 _ _ B1)].
  - split; [assumption|]. exact (T3 _ _ C1 (or_introl eq_refl)).
Defined.

(* ================================================================== *)
(** * Further properties of the two deployments *)
(* ================================================================== *)

Lemma without_logs_app a b :
  without_logs (a ++ b) = without_logs a ++ without_logs b.
Proof.
  induction a as [|e a IH]; [reflexivity|].
  destruct e; cbn [app without_logs]; now rewrite IH.
Qed.

Lemma logged_app a b : logged (a ++ b) = logged a ++ logged b.
Proof.
  induction a as [|e a IH]; [reflexivity|].
  destruct e; cbn [app logged]; now rewrite IH.
Qed.

Lemma prompts_sent_app a b :
  prompts_sent (a ++ b) = prompts_sent a ++ prompts_sent b.
Proof.
  induction a as [|e a IH]; [reflexivity|].
  destruct e; cbn [app prompts_sent]; now rewrite IH.
Qed.

(** Case analysis along a cascade, on the extraction as the code has it. *)
Ltac cascade_run ser text :=
  unfold server_cascade, netlify_cascade, jsonParse, extractJson,
    sanitizeJson, appendLog, bindM, ret, trace, value;
  destruct (accepted ser (JSON_parse text)); cbn -[accepted]; auto;
  destruct (extractJsonFromText text) as [[|? ?]|]; cbn -[accepted]; auto;
  repeat match goal with
         | |- context [accepted ser (JSON_parse ?t)] =>
             destruct (accepted ser (JSON_parse t)); cbn -[accepted]; auto
         | |- context [outerBraces ?t] =>
             destruct (outerBraces t); cbn -[accepted]; auto
         end.

(** X1. The two deployments run the same cascade: for every text of the
    provider they return the same value after the same calls, and differ
    only in that the server writes log entries, which the function never
    does. *)
Theorem X1_deployments_agree ser text :
  pipeline ser Server text = pipeline ser Netlify text
  /\ without_logs (trace (server_cascade ser text))
     = trace (netlify_cascade ser text)
  /\ logged (trace (netlify_cascade ser text)) = [].
Proof.
  unfold pipeline. cbn [cascade].
  repeat split; cascade_run ser text.
Qed.

(** The entries the server writes to its log. *)
Lemma server_logged ser text :
  logged (trace (server_cascade ser text))
  = match snd (first_success ser (strategies text)) with
    | Some _ => []
    | None =>
        match extractJsonFromText text with
        | Some c =>
            [ExtractedParseFailure (slice 0 2000 text) (slice 0 2000 c)
               (slice 0 2000 (sanitizeJsonString c))]
        | None => []
        end
        ++ [JsonParseError (slice 0 2000 text)]
    end.
Proof.
  unfold strategies. cbn [first_success].
  rewrite <- extractJsonFromText_candidate.
  unfold server_cascade, jsonParse, extractJson, sanitizeJson, appendLog,
    bindM, ret, trace.
  destruct (accepted ser (JSON_parse text));
    cbn -[slice sanitizeJsonString accepted]; auto.
  destruct (extractJsonFromText text) as [c|] eqn:Ec;
    cbn -[slice sanitizeJsonString accepted]; auto.
  destruct c as [|x c].
  { rewrite extractJsonFromText_candidate in Ec.
    now apply candidate_nonempty in Ec. }
  remember (sanitizeJsonString (x :: c)) as sanitized.
  cbn -[slice accepted].
  destruct (accepted ser (JSON_parse sanitized)); cbn -[slice accepted]; auto.
  destruct (outerBraces sanitized) as [o|]; cbn -[slice accepted]; auto.
  destruct (accepted ser (JSON_parse o)); cbn -[slice accepted]; auto.
Qed.

(** X2. Where the server writes to its log: nothing when some text parsed
    to a value that was serialised; when every attempt failed, one entry
    for the extracted candidate, if there was one, and then one entry for
    the raw text. Each snippet is cut at 2000 characters. *)
Theorem X2_server_logs_on_fallback ser text :
  logged (trace (server_cascade ser text))
  = match snd (first_success ser (strategies text)) with
    | Some _ => []
    | None =>
        match extractJsonFromText text with
        | Some c =>
            [ExtractedParseFailure (slice 0 2000 text) (slice 0 2000 c)
               (slice 0 2000 (sanitizeJsonString c))]
        | None => []
        end
        ++ [JsonParseError (slice 0 2000 text)]
    end.
Proof. apply server_logged. Qed.

Lemma slice_0_length n s : (List.length (slice 0 n s) <= n)%nat.
Proof.
  unfold slice. rewrite Nat.sub_0_r. cbn [skipn]. apply firstn_le_length.
Qed.

Lemma slice_0_prefix n s : exists rest, s = slice 0 n s ++ rest.
Proof.
  unfold slice. rewrite Nat.sub_0_r. cbn [skipn].
  exists (skipn n s). symmetry. apply firstn_skipn.
Qed.

(** The entries the server writes, one by one. *)
Lemma server_log_entries ser text e :
  In e (logged (trace (server_cascade ser text))) ->
  e = JsonParseError (slice 0 2000 text)
  \/ exists c,
       extractJsonFromText text = Some c
       /\ e = ExtractedParseFailure (slice 0 2000 text) (slice 0 2000 c)
                (slice 0 2000 (sanitizeJsonString c)).
Proof.
  rewrite server_logged.
  destruct (snd (first_success ser (strategies text))); [intros []|].
  destruct (extractJsonFromText text) as [c|]; intros H;
    apply in_app_or in H; destruct H as [H|H].
  - destruct H as [<-|[]]. right. now exists c.
  - destruct H as [<-|[]]. now left.
  - destruct H.
  - destruct H as [<-|[]]. now left.
Qed.

(** X3. Every snippet the server logs is at most 2000 characters long and
    is the beginning of the raw text, of the extracted candidate or of the
    sanitized candidate. *)
Theorem X3_log_snippets_bounded ser text e s :
  In e (logged (trace (server_cascade ser text))) ->
  In s (snippets e) ->
  (List.length s <= 2000)%nat
  /\ exists full rest,
       full = s ++ rest
       /\ (full = text
           \/ exists c, extractJsonFromText text = Some c
                        /\ (full = c \/ full = sanitizeJsonString c)).
Proof.
  intros He Hs. apply server_log_entries in He.
  destruct He as [->|[c [Ec ->]]]; cbn [snippets] in Hs.
  - destruct Hs as [<-|[]].
    split; [apply slice_0_length|].
    destruct (slice_0_prefix 2000 text) as [rest E].
    exists text, rest. auto.
  - destruct Hs as [<-|[<-|[<-|[]]]]; (split; [apply slice_0_length|]).
    + destruct (slice_0_prefix 2000 text) as [rest E].
      exists text, rest. auto.
    + destruct (slice_0_prefix 2000 c) as [rest E].
      exists c, rest. split; auto. right. exists c. auto.
    + destruct (slice_0_prefix 2000 (sanitizeJsonString c)) as [rest E].
      exists (sanitizeJsonString c), rest. split; auto. right. exists c. auto.
Qed.

Lemma X3_log_snippets_bounded_witness :
  In (JsonParseError (js "Sorry"))
    (logged (trace (server_cascade engine (js "Sorry"))))
  /\ In (js "Sorry") (snippets (JsonParseError (js "Sorry")))
  /\ (List.length (js "Sorry") <= 2000)%nat.
Proof.
  assert (He : In (JsonParseError (js "Sorry"))
                 (logged (trace (server_cascade engine (js "Sorry")))))
    by (vm_compute; auto).
  assert (Hs : In (js "Sorry") (snippets (JsonParseError (js "Sorry"))))
    by (vm_compute; auto).
  split; [exact He|]. split; [exact Hs|].
  exact (proj1 (X3_log_snippets_bounded engine (js "Sorry") _ _ He Hs)).
Defined.

Lemma cascade_no_prompt ser d text :
  prompts_sent (trace (cascade ser d text)) = [].
Proof. destruct d; cbn [cascade]; cascade_run ser text. Qed.

Lemma respond_no_prompt ser d failure text :
  prompts_sent (trace (respond ser d failure text)) = [].
Proof. rewrite respond_trace. apply cascade_no_prompt. Qed.

(** The prompts of the handler of [server.js]. *)
Lemma server_prompts ser nts niz genAI reqBody :
  prompts_sent (trace (server_handler ser nts niz genAI reqBody))
  = match genAI, reqBody with
    | Some _, Some b =>
        match b with
        | JNull => []
        | _ =>
            match server_prompt nts niz (fields_of b) with
            | Some prompt => [prompt]
            | None => []
            end
        end
    | _, _ => []
    end.
Proof.
  assert (Hgo : forall model b,
             prompts_sent
               (trace
                  match server_prompt nts niz (fields_of b) with
                  | Some prompt =>
                      text <- generateContent model prompt ;;
                      match text with
                      | Some text => respond ser Server server_failure text
                      | None => ret server_failure
                      end
                  | None => ret server_failure
                  end)
             = match server_prompt nts niz (fields_of b) with
               | Some prompt => [prompt]
               | None => []
               end).
  { intros model b.
    destruct (server_prompt nts niz (fields_of b)) as [prompt|];
      [|reflexivity].
    unfold generateContent, bindM, ret, trace.
    destruct (model prompt) as [text|]; [|reflexivity].
    pose proof (respond_no_prompt ser Server server_failure text) as H.
    unfold trace in H.
    destruct (respond ser Server server_failure text) as [t v].
    cbn [fst] in *. cbn [app prompts_sent]. now rewrite H. }
  unfold server_handler.
  destruct reqBody as [b|]; [|destruct genAI; reflexivity].
  destruct genAI as [model|]; [|destruct b; reflexivity].
  destruct b; try reflexivity; apply Hgo.
Qed.

(** The prompts of the serverless function. *)
Lemma function_prompts ser nts niz genAI event :
  prompts_sent (trace (handler ser nts niz genAI event))
  = if str_eqb (httpMethod event) (js "POST") then
      match genAI with
      | Some _ =>
          match JSON_parse (match eventBody event with
                            | Some (c :: b) => c :: b
                            | _ => js "{}"
                            end) with
          | None | Some JNull => []
          | Some b =>
              match netlify_prompt nts niz (fields_of b) with
              | Some prompt => [prompt]
              | None => []
              end
          end
      | None => []
      end
    else [].
Proof.
  assert (Hgo : forall model b,
             prompts_sent
               (trace
                  match netlify_prompt nts niz (fields_of b) with
                  | Some prompt =>
                      text <- generateContent model prompt ;;
                      match text with
                      | Some text => respond ser Netlify function_failure text
                      | None => ret function_failure
                      end
                  | None => ret function_failure
                  end)
             = match netlify_prompt nts niz (fields_of b) with
               | Some prompt => [prompt]
               | None => []
               end).
  { intros model b.
    destruct (netlify_prompt nts niz (fields_of b)) as [prompt|];
      [|reflexivity].
    unfold generateContent, bindM, ret, trace.
    destruct (model prompt) as [text|]; [|reflexivity].
    pose proof (respond_no_prompt ser Netlify function_failure text) as H.
    unfold trace in H.
    destruct (respond ser Netlify function_failure text) as [t v].
    cbn [fst] in *. cbn [app prompts_sent]. now rewrite H. }
  unfold handler.
  destruct (str_eqb (httpMethod event) (js "POST")); [|reflexivity].
  cbn [negb]. destruct genAI as [model|]; [|reflexivity].
  unfold jsonParse, bindM.
  destruct (JSON_parse _) as [b|]; [|reflexivity].
  specialize (Hgo model b). unfold trace in *.
  assert (Hpre : forall e (m : M response),
             prompts_sent (fst (let '(t2, r) := m in ([JsonParse e] ++ t2, r)))
             = prompts_sent (fst m))
    by (intros e [t v]; reflexivity).
  destruct b; try reflexivity; rewrite Hpre; exact Hgo.
Qed.

(** X4. The provider is asked at most once for a request and never by the
    cascade: the server asks it exactly when the body of the request is a
    value other than [undefined] and [null], a client is configured and the
    prompt can be built; the function exactly when the request is a POST, a
    client is configured, the body parses to a value other than null and
    the prompt can be built. The one prompt is the template filled with the
    fields of the request. *)
Theorem X4_provider_asked_once ser nts niz :
  (forall d text, prompts_sent (trace (cascade ser d text)) = [])
  /\ (forall genAI reqBody,
         prompts_sent (trace (server_handler ser nts niz genAI reqBody))
         = match genAI, reqBody with
           | Some _, Some b =>
               match b with
               | JNull => []
               | _ =>
                   match server_prompt nts niz (fields_of b) with
                   | Some prompt => [prompt]
                   | None => []
                   end
               end
           | _, _ => []
           end)
  /\ (forall genAI event,
         prompts_sent (trace (handler ser nts niz genAI event))
         = if str_eqb (httpMethod event) (js "POST") then
             match genAI with
             | Some _ =>
                 match JSON_parse (match eventBody event with
                                   | Some (c :: b) => c :: b
                                   | _ => js "{}"
                                   end) with
                 | None | Some JNull => []
                 | Some b =>
                     match netlify_prompt nts niz (fields_of b) with
                     | Some prompt => [prompt]
                     | None => []
                     end
                 end
             | None => []
             end
           else []).
Proof.
  split; [apply cascade_no_prompt|]. split.
  - apply server_prompts.
  - apply function_prompts.
Qed.
(* ================================================================== *)
(** * Further properties of [extractJsonFromText] *)
(* ================================================================== *)

Lemma match_json_ci_split s r :
  match_json_ci s = Some r -> exists label, s = label ++ r.
Proof.
  unfold match_json_ci.
  destruct s as [|j [|s0 [|o [|n rest]]]]; try discriminate.
  destruct (_ && _); [|discriminate].
  intros H; injection H as <-. now exists [j; s0; o; n].
Qed.

Lemma match_json_ci_label label :
  match_json_ci label = Some [] -> forall r, match_json_ci (label ++ r) = Some r.
Proof.
  unfold match_json_ci.
  destruct label as [|j [|s0 [|o [|n rest]]]]; try discriminate.
  cbn [app]. destruct (_ && _); [|discriminate].
  intros H; injection H as ->. reflexivity.
Qed.

Lemma lazy_group_occurs s g :
  lazy_until_fence (skip_spaces s) = Some g -> occurs g s.
Proof.
  intros H. destruct (lazy_until_fence_split _ _ H) as [rest [Hs _]].
  destruct (skip_spaces_split s) as [ws [E _]].
  exists ws, rest. now rewrite <- Hs.
Qed.

Lemma occurs_app_l p a s : occurs p s -> occurs p (a ++ s).
Proof.
  intros [pre [suf ->]]. exists (a ++ pre), suf. now rewrite app_assoc.
Qed.

Lemma fencedJson_occurs s g : fencedJson s = Some g -> occurs g s.
Proof.
  unfold fencedJson. intros H.
  destruct (exec_first_split _ _ _ _ H) as [pre [suf [-> Hm]]].
  apply occurs_app_l. unfold fencedJson_at in Hm.
  destruct (strip_prefix fence suf) as [s1|] eqn:E1; [|discriminate].
  destruct (match_json_ci s1) as [s2|] eqn:E2; [|discriminate].
  apply strip_prefix_app in E1. subst suf.
  apply match_json_ci_split in E2. destruct E2 as [label ->].
  do 2 apply occurs_app_l. now apply lazy_group_occurs.
Qed.

Lemma fencedAny_occurs s g : fencedAny s = Some g -> occurs g s.
Proof.
  unfold fencedAny. intros H.
  destruct (exec_first_split _ _ _ _ H) as [pre [suf [-> Hm]]].
  apply occurs_app_l. unfold fencedAny_at in Hm.
  destruct (strip_prefix fence suf) as [s1|] eqn:E1; [|discriminate].
  apply strip_prefix_app in E1. subst suf.
  apply occurs_app_l. now apply lazy_group_occurs.
Qed.

Lemma braceScan_occurs s c : braceScan s = Some c -> occurs c s.
Proof.
  intros H.
  destruct (braceScan_shape _ _ H) as [p [pre [post [l' [-> [_ [-> _]]]]]]].
  exists p, post. app_norm.
Qed.

(** X5. What [extractJsonFromText] returns is never empty, neither starts
    nor ends with white space, and stands in the text as it is, in one
    piece. *)
Theorem X5_extraction_is_trimmed_piece text c :
  extractJsonFromText text = Some c ->
  c <> [] /\ trim c = c /\ occurs c text.
Proof.
  intros H. split; [|split].
  - rewrite extractJsonFromText_candidate in H.
    now apply candidate_nonempty in H.
  - rewrite extractJsonFromText_candidate in H.
    unfold candidate, interior in H.
    destruct (fencedJson text) as [[|x g]|] eqn:E1.
    2: { injection H as <-. now apply fencedJson_group in E1. }
    all: destruct (fencedAny text) as [[|y g]|] eqn:E2;
      try (injection H as <-; now apply fencedAny_group in E2).
    all: apply braceScan_shape in H;
      destruct H as [p [pre [post [l' [_ [_ [-> _]]]]]]];
      apply trim_id_ends; reflexivity.
  - rewrite extractJsonFromText_candidate in H.
    unfold candidate, interior in H.
    destruct (fencedJson text) as [[|x g]|] eqn:E1.
    2: { injection H as <-. now apply fencedJson_occurs. }
    all: destruct (fencedAny text) as [[|y g]|] eqn:E2;
      try (injection H as <-; now apply fencedAny_occurs).
    all: now apply braceScan_occurs.
Qed.

Lemma X5_extraction_is_trimmed_piece_witness :
  extractJsonFromText fenced_plan = Some (result_json (js "Day 1"))
  /\ occurs (result_json (js "Day 1")) fenced_plan.
Proof.
  assert (H : extractJsonFromText fenced_plan
              = Some (result_json (js "Day 1")))
    by (vm_compute; reflexivity).
  split; [exact H|].
  exact (proj2 (proj2 (X5_extraction_is_trimmed_piece _ _ H))).
Defined.

(* ------------------------------------------------------------------ *)
(** ** Fenced blocks *)

Lemma exec_first_step (A : Type) (m : jsstring -> option A) c s :
  m (c :: s) = None -> exec_first m (c :: s) = exec_first m s.
Proof. intros H. cbn [exec_first]. now rewrite H. Qed.

Lemma exec_first_found (A : Type) (m : jsstring -> option A) s r :
  m s = Some r -> exec_first m s = Some r.
Proof. intros H. destruct s; cbn [exec_first]; now rewrite H. Qed.

Lemma strip_fence_head c s : c <> c_backtick -> strip_prefix fence (c :: s) = None.
Proof.
  intros H. unfold fence. cbn [strip_prefix].
  destruct (N.eqb_spec c_backtick c) as [E|_]; [congruence | reflexivity].
Qed.

Lemma fencedJson_at_head s : strip_prefix fence s = None -> fencedJson_at s = None.
Proof. intros H. unfold fencedJson_at. now rewrite H. Qed.

Lemma fencedAny_at_head s : strip_prefix fence s = None -> fencedAny_at s = None.
Proof. intros H. unfold fencedAny_at. now rewrite H. Qed.

(** A search for a fence passes over a text without backticks. *)
Lemma exec_first_skip (A : Type) (m : jsstring -> option A) a s :
  (forall t, strip_prefix fence t = None -> m t = None) ->
  ~ In c_backtick a ->
  exec_first m (a ++ s) = exec_first m s.
Proof.
  intros Hm. induction a as [|c a IH]; intros Ha; [reflexivity|].
  cbn [app]. rewrite exec_first_step.
  - apply IH. intros H. apply Ha. now right.
  - apply Hm, strip_fence_head. intros ->. apply Ha. now left.
Qed.

Lemma closes_fence_false b rest :
  ~ In c_backtick b ->
  (exists x, In x b /\ is_space x = false) ->
  closes_fence (b ++ rest) = false.
Proof.
  induction b as [|c b IH]; intros Hb [x [Hx Hs]]; [destruct Hx|].
  cbn [app]. destruct (is_space c) eqn:Ec.
  - rewrite closes_fence_space by assumption. apply IH.
    + intros H. apply Hb. now right.
    + destruct Hx as [->|Hx]; [congruence | eauto].
  - unfold closes_fence. rewrite skip_spaces_nonspace by assumption.
    rewrite strip_fence_head; [reflexivity|].
    intros ->. apply Hb. now left.
Qed.

Lemma closes_fence_true ws post :
  Forall (fun c => is_space c = true) ws ->
  closes_fence (ws ++ fence ++ post) = true.
Proof.
  intros H. unfold closes_fence. rewrite skip_spaces_app_spaces by assumption.
  reflexivity.
Qed.

Lemma lazy_until_fence_closed s :
  closes_fence s = true -> lazy_until_fence s = Some [].
Proof. intros H. destruct s; cbn [lazy_until_fence]; now rewrite H. Qed.

(** The lazy group stops at the first closing fence: a text without
    backticks that does not end with white space is taken whole. *)
Lemma lazy_until_fence_body ws post : forall body,
  ~ In c_backtick body ->
  skip_spaces (rev body) = rev body ->
  Forall (fun c => is_space c = true) ws ->
  lazy_until_fence (body ++ ws ++ fence ++ post) = Some body.
Proof.
  intros body. induction body as [|c body IH]; intros Hb Hr Hws.
  - now apply lazy_until_fence_closed, closes_fence_true.
  - cbn [app lazy_until_fence].
    replace (closes_fence (c :: body ++ ws ++ fence ++ post)) with false.
    + rewrite IH; auto.
      * intros H. apply Hb. now right.
      * destruct body as [|y body]; [reflexivity|].
        cbn [rev] in Hr |- *.
        destruct (rev body ++ [y]) as [|z r] eqn:Ez.
        { destruct (rev body); discriminate. }
        cbn [app] in Hr. apply skip_spaces_head in Hr.
        now apply skip_spaces_nonspace.
    + symmetry.
      apply (closes_fence_false (c :: body) (ws ++ fence ++ post) Hb).
      destruct (rev (c :: body)) as [|z r] eqn:Ez.
      { apply (f_equal (@rev N)) in Ez. rewrite rev_involutive in Ez.
        discriminate. }
      exists z. split.
      * apply in_rev. rewrite Ez. now left.
      * now apply skip_spaces_head in Hr.
Qed.

Lemma trimmed_body_skip body rest :
  body <> [] -> trim body = body ->
  skip_spaces (body ++ rest) = body ++ rest.
Proof.
  intros Hn Ht. apply trim_eq_inv in Ht. destruct Ht as [H1 _].
  destruct body as [|c body]; [congruence|].
  apply skip_spaces_head in H1. cbn [app]. now apply skip_spaces_nonspace.
Qed.

(** The group of a fenced block whose interior is [body]. *)
Lemma fenced_interior ws1 body ws2 post :
  Forall (fun c => is_space c = true) ws1 ->
  Forall (fun c => is_space c = true) ws2 ->
  body <> [] -> trim body = body -> ~ In c_backtick body ->
  lazy_until_fence (skip_spaces (ws1 ++ body ++ ws2 ++ fence ++ post))
  = Some body.
Proof.
  intros H1 H2 Hn Ht Hb.
  rewrite skip_spaces_app_spaces by assumption.
  rewrite trimmed_body_skip by assumption.
  apply lazy_until_fence_body; auto.
  now apply trim_eq_inv in Ht.
Qed.

Lemma extract_interior text body :
  body <> [] -> trim body = body ->
  fencedJson text = Some body
  \/ (fencedJson text = None /\ fencedAny text = Some body) ->
  extractJsonFromText text = Some body.
Proof.
  intros Hn Ht H. unfold extractJsonFromText.
  destruct text as [|t text].
  { destruct H as [H|[_ H]]; unfold fencedJson, fencedAny in H;
      cbn in H; discriminate. }
  destruct body as [|c body]; [congruence|].
  destruct H as [->|[-> ->]]; now rewrite Ht.
Qed.

(** X6. A fence labelled json, in any case of its letters, whose interior
    holds no backtick: when no backtick comes before the fence, the
    interior without the white space around it is what the extraction
    returns, whatever follows the closing fence. If the whole text does not
    parse and the sanitized interior does, its value is the result, when it
    is serialised. *)
Theorem X6_labelled_fence_interior pre label ws1 body ws2 post :
  ~ In c_backtick pre ->
  match_json_ci label = Some [] ->
  Forall (fun c => is_space c = true) ws1 ->
  Forall (fun c => is_space c = true) ws2 ->
  body <> [] -> trim body = body -> ~ In c_backtick body ->
  extractJsonFromText
    (pre ++ fence ++ label ++ ws1 ++ body ++ ws2 ++ fence ++ post)
  = Some body
  /\ forall ser d v,
       JSON_parse
         (pre ++ fence ++ label ++ ws1 ++ body ++ ws2 ++ fence ++ post)
       = None ->
       JSON_parse (sanitizeJsonString body) = Some v ->
       ser v = true ->
       pipeline ser d
         (pre ++ fence ++ label ++ ws1 ++ body ++ ws2 ++ fence ++ post)
       = v.
Proof.
  intros Hpre Hl H1 H2 Hn Ht Hb.
  assert (E : extractJsonFromText
                (pre ++ fence ++ label ++ ws1 ++ body ++ ws2 ++ fence ++ post)
              = Some body).
  { apply extract_interior; auto. left. unfold fencedJson.
    rewrite exec_first_skip; [|exact fencedJson_at_head|exact Hpre].
    apply exec_first_found. unfold fencedJson_at.
    replace (strip_prefix fence
               (fence ++ label ++ ws1 ++ body ++ ws2 ++ fence ++ post))
      with (Some (label ++ ws1 ++ body ++ ws2 ++ fence ++ post))
      by (symmetry; now apply strip_prefix_app).
    rewrite (match_json_ci_label _ Hl).
    now apply fenced_interior. }
  split; [exact E|].
  intros ser d v Hd Hs Hser.
  exact (pipeline_candidate ser d _ body v (accepted_unparsed _ _ Hd) E Hs
           Hser).
Qed.

Lemma X6_labelled_fence_interior_witness :
  extractJsonFromText fenced_plan = Some (result_json (js "Day 1"))
  /\ pipeline engine Server fenced_plan = result (js "Day 1").
Proof.
  assert (A1 : ~ In c_backtick (js "Here is your plan:" ++ nl))
    by (apply not_in_indexOf; vm_compute; reflexivity).
  assert (A2 : match_json_ci (js "json") = Some []) by reflexivity.
  assert (A3 : Forall (fun c => is_space c = true) nl)
    by (repeat constructor).
  assert (A4 : result_json (js "Day 1") <> []) by discriminate.
  assert (A5 : trim (result_json (js "Day 1")) = result_json (js "Day 1"))
    by (vm_compute; reflexivity).
  assert (A6 : ~ In c_backtick (result_json (js "Day 1")))
    by (apply not_in_indexOf; vm_compute; reflexivity).
  assert (A7 : JSON_parse fenced_plan = None) by (vm_compute; reflexivity).
  assert (A8 : JSON_parse (sanitizeJsonString (result_json (js "Day 1")))
               = Some (result (js "Day 1")))
    by (vm_compute; reflexivity).
  pose proof (X6_labelled_fence_interior (js "Here is your plan:" ++ nl)
                (js "json") nl (result_json (js "Day 1")) nl nl
                A1 A2 A3 A3 A4 A5 A6) as [E P].
  split; [exact E|]. exact (P engine Server _ A7 A8 eq_refl).
Defined.

Lemma fence_needs_backticks s g :
  lazy_until_fence s = Some g -> (3 <= count_occ N.eq_dec s c_backtick)%nat.
Proof.
  intros H. destruct (lazy_until_fence_split _ _ H) as [rest [-> Hc]].
  unfold closes_fence in Hc.
  destruct (strip_prefix fence (skip_spaces rest)) as [r|] eqn:E;
    [|discriminate].
  apply strip_prefix_app in E.
  destruct (skip_spaces_split rest) as [ws [Hr _]].
  rewrite Hr, E, !count_occ_app. cbn. lia.
Qed.

Lemma count_skip_spaces s :
  (count_occ N.eq_dec (skip_spaces s) c_backtick
   <= count_occ N.eq_dec s c_backtick)%nat.
Proof.
  destruct (skip_spaces_split s) as [ws [Hr _]].
  rewrite Hr at 2. rewrite count_occ_app. lia.
Qed.

(** A text that holds at most three backticks has no fenced block: the
    opening and the closing fence take six. *)
Lemma few_backticks_no_fence s :
  (count_occ N.eq_dec s c_backtick <= 3)%nat ->
  fencedJson s = None /\ fencedAny s = None.
Proof.
  intros Hc. unfold fencedJson, fencedAny.
  split; apply exec_first_none; intros pre suf E;
    apply option_none_of_not_some; intros r H;
    unfold fencedJson_at, fencedAny_at in H;
    (destruct (strip_prefix fence suf) as [s1|] eqn:Es; [|discriminate]);
    apply strip_prefix_app in Es; subst suf s;
    rewrite !count_occ_app in Hc; cbn in Hc.
  - destruct (match_json_ci s1) as [s2|] eqn:E2; [|discriminate].
    apply match_json_ci_split in E2. destruct E2 as [label ->].
    apply fence_needs_backticks in H.
    pose proof (count_skip_spaces s2). rewrite count_occ_app in Hc. lia.
  - apply fence_needs_backticks in H.
    pose proof (count_skip_spaces s1). lia.
Qed.

Lemma count_none a : ~ In c_backtick a -> count_occ N.eq_dec a c_backtick = O.
Proof. apply count_occ_not_In. Qed.

Lemma not_backtick_space ws :
  Forall (fun c => is_space c = true) ws -> ~ In c_backtick ws.
Proof.
  intros H Hin. rewrite Forall_forall in H. apply H in Hin. discriminate.
Qed.

(** X7. A fenced block that carries no label, in a text whose only
    backticks are those of its two fences: the interior without the white
    space around it is what the extraction returns. If the whole text does
    not parse and the sanitized interior does, its value is the result,
    when it is serialised. *)
Theorem X7_unlabelled_fence_interior pre ws1 body ws2 post :
  ~ In c_backtick pre -> ~ In c_backtick post ->
  Forall (fun c => is_space c = true) ws1 ->
  Forall (fun c => is_space c = true) ws2 ->
  body <> [] -> trim body = body -> ~ In c_backtick body ->
  match_json_ci (ws1 ++ body ++ ws2 ++ fence) = None ->
  extractJsonFromText (pre ++ fence ++ ws1 ++ body ++ ws2 ++ fence ++ post)
  = Some body
  /\ forall ser d v,
       JSON_parse (pre ++ fence ++ ws1 ++ body ++ ws2 ++ fence ++ post)
       = None ->
       JSON_parse (sanitizeJsonString body) = Some v ->
       ser v = true ->
       pipeline ser d (pre ++ fence ++ ws1 ++ body ++ ws2 ++ fence ++ post)
       = v.
Proof.
  intros Hpre Hpost H1 H2 Hn Ht Hb Hl.
  pose proof (not_backtick_space _ H1) as B1.
  pose proof (not_backtick_space _ H2) as B2.
  assert (Hy : exists y Y, ws1 ++ body ++ ws2 ++ fence ++ post = y :: Y
                           /\ y <> c_backtick).
  { destruct ws1 as [|w ws1].
    - destruct body as [|b body]; [congruence|].
      exists b. eexists. split; [reflexivity|].
      intros ->. apply Hb. now left.
    - exists w. eexists. split; [reflexivity|].
      intros ->. apply B1. now left. }
  assert (Hj : match_json_ci (ws1 ++ body ++ ws2 ++ fence ++ post) = None).
  { revert Hl. unfold match_json_ci.
    replace (ws1 ++ body ++ ws2 ++ fence ++ post)
      with ((ws1 ++ body ++ ws2 ++ fence) ++ post) by app_norm.
    destruct (ws1 ++ body ++ ws2 ++ fence) as [|j [|s0 [|o [|n rest]]]] eqn:E;
      cbn [app].
    5: { destruct (_ && _); [discriminate | reflexivity]. }
    all: exfalso; apply (f_equal (@List.length N)) in E;
      rewrite !length_app in E; cbn [List.length fence] in E;
      destruct body; [congruence | cbn [List.length] in E; lia]. }
  assert (E : extractJsonFromText
                (pre ++ fence ++ ws1 ++ body ++ ws2 ++ fence ++ post)
              = Some body).
  { apply extract_interior; auto. right. split.
    - unfold fencedJson.
      rewrite exec_first_skip; [|exact fencedJson_at_head|exact Hpre].
      destruct Hy as [y [Y [EY Hy]]]. rewrite EY in *. unfold fence at 1.
      cbn [app].
      rewrite exec_first_step.
      2: { unfold fencedJson_at.
           change (strip_prefix fence
                     (c_backtick :: c_backtick :: c_backtick :: y :: Y))
             with (Some (y :: Y)).
           cbv beta iota. now rewrite Hj. }
      rewrite exec_first_step.
      2: { apply fencedJson_at_head. unfold fence. cbn [strip_prefix].
           rewrite !N.eqb_refl.
           destruct (N.eqb_spec c_backtick y); [congruence | reflexivity]. }
      rewrite exec_first_step.
      2: { apply fencedJson_at_head. unfold fence. cbn [strip_prefix].
           rewrite !N.eqb_refl.
           destruct (N.eqb_spec c_backtick y); [congruence | reflexivity]. }
      rewrite <- EY.
      replace (ws1 ++ body ++ ws2 ++ fence ++ post)
        with ((ws1 ++ body ++ ws2) ++ fence ++ post) by app_norm.
      rewrite exec_first_skip; [|exact fencedJson_at_head|].
      2: { rewrite !in_app_iff. tauto. }
      apply few_backticks_no_fence.
      rewrite count_occ_app, (count_none _ Hpost). cbn. lia.
    - unfold fencedAny.
      rewrite exec_first_skip; [|exact fencedAny_at_head|exact Hpre].
      apply exec_first_found. unfold fencedAny_at.
      replace (strip_prefix fence
                 (fence ++ ws1 ++ body ++ ws2 ++ fence ++ post))
        with (Some (ws1 ++ body ++ ws2 ++ fence ++ post))
        by (symmetry; now apply strip_prefix_app).
      now apply fenced_interior. }
  split; [exact E|].
  intros ser d v Hd Hs Hser.
  exact (pipeline_candidate ser d _ body v (accepted_unparsed _ _ Hd) E Hs
           Hser).
Qed.

Lemma X7_unlabelled_fence_interior_witness :
  extractJsonFromText
    (js "Plan:" ++ fence ++ nl ++ result_json (js "Day 1") ++ nl ++ fence
       ++ js " Enjoy!")
  = Some (result_json (js "Day 1"))
  /\ pipeline engine Netlify
       (js "Plan:" ++ fence ++ nl ++ result_json (js "Day 1") ++ nl ++ fence
          ++ js " Enjoy!")
     = result (js "Day 1").
Proof.
  assert (A1 : ~ In c_backtick (js "Plan:"))
    by (apply not_in_indexOf; vm_compute; reflexivity).
  assert (A2 : ~ In c_backtick (js " Enjoy!"))
    by (apply not_in_indexOf; vm_compute; reflexivity).
  assert (A3 : Forall (fun c => is_space c = true) nl)
    by (repeat constructor).
  assert (A4 : result_json (js "Day 1") <> []) by discriminate.
  assert (A5 : trim (result_json (js "Day 1")) = result_json (js "Day 1"))
    by (vm_compute; reflexivity).
  assert (A6 : ~ In c_backtick (result_json (js "Day 1")))
    by (apply not_in_indexOf; vm_compute; reflexivity).
  assert (A7 : match_json_ci (nl ++ result_json (js "Day 1") ++ nl ++ fence)
               = None) by reflexivity.
  assert (A8 : JSON_parse
                 (js "Plan:" ++ fence ++ nl ++ result_json (js "Day 1") ++ nl
                    ++ fence ++ js " Enjoy!") = None)
    by (vm_compute; reflexivity).
  assert (A9 : JSON_parse (sanitizeJsonString (result_json (js "Day 1")))
               = Some (result (js "Day 1")))
    by (vm_compute; reflexivity).
  pose proof (X7_unlabelled_fence_interior (js "Plan:") nl
                (result_json (js "Day 1")) nl (js " Enjoy!")
                A1 A2 A3 A3 A4 A5 A6 A7) as [E P].
  split; [exact E|]. exact (P engine Netlify _ A8 A9 eq_refl).
Defined.

(* ------------------------------------------------------------------ *)
(** ** Texts without a candidate *)

(** X8. A text with at most three backticks and no closing brace has no
    candidate: no fence can close and the brace scan never returns. Its
    result is its own value, when it parses and is serialised, or the
    fallback, and on the fallback the server logs one entry, that of the
    raw text. *)
Theorem X8_unclosed_object text :
  (count_occ N.eq_dec text c_backtick <= 3)%nat ->
  ~ In c_rbrace text ->
  extractJsonFromText text = None
  /\ (forall ser d,
         pipeline ser d text = match accepted ser (JSON_parse text) with
                               | Some v => v
                               | None => fallback text
                               end)
  /\ (forall ser,
         logged (trace (server_cascade ser text))
         = match accepted ser (JSON_parse text) with
           | Some _ => []
           | None => [JsonParseError (slice 0 2000 text)]
           end).
Proof.
  intros Hc Hr.
  assert (E : extractJsonFromText text = None).
  { rewrite extractJsonFromText_candidate. unfold candidate.
    destruct (few_backticks_no_fence _ Hc) as [-> ->]. cbn [interior].
    apply option_none_of_not_some. intros c H.
    destruct (braceScan_shape _ _ H) as [p [pre [post [l' [-> _]]]]].
    apply Hr. apply in_or_app. right. right. apply in_or_app. right.
    now left. }
  split; [exact E|]. split.
  - intros ser d. rewrite pipeline_steps, E. reflexivity.
  - intros ser.
    unfold server_cascade, jsonParse, extractJson, sanitizeJson, appendLog,
      bindM, ret, trace.
    rewrite E. destruct (accepted ser (JSON_parse text)); reflexivity.
Qed.

Lemma X8_unclosed_object_witness :
  extractJsonFromText (js "{" ++ q "itinerary" ++ js ": ") = None
  /\ pipeline engine Server (js "{" ++ q "itinerary" ++ js ": ")
     = fallback (js "{" ++ q "itinerary" ++ js ": ").
Proof.
  assert (A1 : (count_occ N.eq_dec (js "{" ++ q "itinerary" ++ js ": ")
                  c_backtick <= 3)%nat) by (vm_compute; lia).
  assert (A2 : ~ In c_rbrace (js "{" ++ q "itinerary" ++ js ": "))
    by (apply not_in_indexOf; vm_compute; reflexivity).
  pose proof (X8_unclosed_object _ A1 A2) as [E [P _]].
  split; [exact E|]. exact (P engine Server).
Defined.

(* ================================================================== *)
(** * Further properties of [sanitizeJsonString] *)
(* ================================================================== *)

Lemma subseq_refl s : subseq s s.
Proof. induction s; [apply subseq_nil | now apply subseq_keep]. Qed.

Lemma subseq_nil_l s : subseq [] s.
Proof. induction s; [apply subseq_nil | now apply subseq_skip]. Qed.

Lemma subseq_trans a b c : subseq a b -> subseq b c -> subseq a c.
Proof.
  intros Hab Hbc. revert a Hab.
  induction Hbc as [|b x c _ IH|x b c _ IH]; intros a Hab; auto.
  - apply subseq_skip. auto.
  - inversion Hab; subst; [apply subseq_skip | apply subseq_keep]; auto.
Qed.

Lemma subseq_app a b c d : subseq a b -> subseq c d -> subseq (a ++ c) (b ++ d).
Proof.
  intros Hab Hcd.
  induction Hab; cbn [app]; auto;
    [now apply subseq_skip | now apply subseq_keep].
Qed.

Lemma subseq_app_r a b : subseq b (a ++ b).
Proof.
  induction a; cbn [app]; [apply subseq_refl | now apply subseq_skip].
Qed.

Lemma subseq_rev a b : subseq a b -> subseq (rev a) (rev b).
Proof.
  induction 1 as [|a c b _ IH|c a b _ IH]; cbn [rev].
  - apply subseq_nil.
  - rewrite <- (app_nil_r (rev a)). apply subseq_app; auto.
    apply subseq_nil_l.
  - apply subseq_app; auto. apply subseq_refl.
Qed.

Lemma subseq_map (f : N -> N) a b : subseq a b -> subseq (map f a) (map f b).
Proof.
  induction 1; cbn [map];
    [apply subseq_nil | now apply subseq_skip | now apply subseq_keep].
Qed.

Lemma subseq_length a b : subseq a b -> (List.length a <= List.length b)%nat.
Proof. induction 1; cbn [List.length]; lia. Qed.

Lemma subseq_incl a b : subseq a b -> incl a b.
Proof.
  induction 1 as [|a c b _ IH|c a b _ IH]; intros x Hx; auto.
  - right. auto.
  - destruct Hx as [->|Hx]; [now left | right; auto].
Qed.

Lemma skip_spaces_subseq s : subseq (skip_spaces s) s.
Proof.
  destruct (skip_spaces_split s) as [pre [H _]].
  rewrite H at 2. apply subseq_app_r.
Qed.

Lemma trim_subseq s : subseq (trim s) s.
Proof.
  unfold trim, trim_end, trim_start.
  apply subseq_trans with (skip_spaces s); [|apply skip_spaces_subseq].
  rewrite <- (rev_involutive (skip_spaces s)) at 2.
  apply subseq_rev, skip_spaces_subseq.
Qed.

(** Trimming a trimmed text changes nothing. *)
Lemma trim_trim s : trim (trim s) = trim s.
Proof.
  unfold trim, trim_end, trim_start.
  destruct (skip_spaces s) as [|c t] eqn:Es; [reflexivity|].
  apply skip_spaces_head in Es.
  destruct (skip_spaces (rev (c :: t))) as [|z u] eqn:Eu; [reflexivity|].
  pose proof (skip_spaces_head _ _ _ Eu) as Hz.
  destruct (skip_spaces_split (rev (c :: t))) as [ws [E Hws]].
  rewrite Eu in E.
  apply (f_equal (@rev N)) in E. rewrite rev_involutive, rev_app_distr in E.
  cbn [rev] in E |- *.
  destruct (rev u) as [|x r] eqn:Er.
  - cbn [app] in E |- *. injection E as <- _.
    cbn [skip_spaces rev app]. rewrite Es. cbn [rev app skip_spaces].
    now rewrite Es.
  - cbn [app] in E. injection E as <- _.
    cbn [app]. rewrite skip_spaces_nonspace by assumption.
    change (c :: r ++ [z]) with ((c :: r) ++ [z]).
    rewrite rev_app_distr. cbn [rev app].
    rewrite skip_spaces_nonspace by assumption.
    cbn [rev]. rewrite rev_app_distr, rev_involutive. reflexivity.
Qed.

Section Deleting.

Variable m : bool -> jsstring -> option (jsstring * jsstring).
Hypothesis Hshrink : shrinking m.
Hypothesis Hdel : deleting m.

Lemma replace_global_subseq :
  forall s st, subseq (replace_global_from m st O s) s.
Proof.
  intros s.
  induction s as [s IH] using (well_founded_induction
                                 (Wf_nat.well_founded_ltof _ (@List.length N))).
  intros st. destruct s as [|c s]; [apply subseq_nil|].
  destruct (m st (c :: s)) as [[repl rest]|] eqn:Hm.
  - rewrite (replace_global_match _ Hshrink _ _ _ _ Hm).
    destruct (Hshrink _ _ _ _ Hm) as [pre [Hne Hs]].
    destruct (Hdel _ _ _ _ Hm) as [matched [Hs' Hsub]].
    rewrite Hs'. apply subseq_app; auto. apply IH.
    unfold Wf_nat.ltof. rewrite Hs, length_app.
    destruct pre; [congruence | cbn [List.length]; lia].
  - rewrite (replace_global_nomatch _ _ _ _ Hm).
    apply subseq_keep. apply IH. unfold Wf_nat.ltof. cbn [List.length]. lia.
Qed.

End Deleting.

Lemma fence_at_deleting : deleting fence_at.
Proof.
  intros st s repl rest. unfold fence_at.
  destruct (strip_prefix fence s) eqn:E; [|discriminate].
  intros H; injection H as <- <-. apply strip_prefix_app in E.
  exists fence. split; [exact E | apply subseq_nil_l].
Qed.

Lemma block_comment_at_deleting : deleting block_comment_at.
Proof.
  intros st s repl rest. unfold block_comment_at.
  destruct (strip_prefix [c_slash; c_star] s) as [s1|] eqn:E; [|discriminate].
  destruct (after_first [c_star; c_slash] s1) as [r|] eqn:E2; [|discriminate].
  intros H; injection H as <- <-.
  apply strip_prefix_app in E. apply after_first_split in E2.
  destruct E2 as [pre ->]. subst s.
  exists ([c_slash; c_star] ++ pre ++ [c_star; c_slash]).
  split; [app_norm | apply subseq_nil_l].
Qed.

Lemma line_comment_at_deleting : deleting line_comment_at.
Proof.
  intros st s repl rest. unfold line_comment_at.
  destruct (if st then strip_prefix [c_slash; c_slash] s else None)
    as [s1|] eqn:E.
  - intros H; injection H as <- <-.
    destruct st; [|discriminate]. apply strip_prefix_app in E. subst s.
    destruct (skip_line_split s1) as [l [Hl _]].
    exists ([c_slash; c_slash] ++ l).
    split; [rewrite Hl at 1; app_norm | apply subseq_nil_l].
  - destruct s as [|c s]; [discriminate|].
    destruct (_ || _); [discriminate|].
    destruct (strip_prefix [c_slash; c_slash] s) as [s1|] eqn:E2;
      [|discriminate].
    intros H; injection H as <- <-.
    apply strip_prefix_app in E2. subst s.
    destruct (skip_line_split s1) as [l [Hl _]].
    exists (c :: [c_slash; c_slash] ++ l).
    split; [rewrite Hl at 1; app_norm|].
    apply subseq_keep. apply subseq_nil_l.
Qed.

Lemma trailing_comma_at_deleting : deleting trailing_comma_at.
Proof.
  intros st s repl rest. unfold trailing_comma_at.
  destruct s as [|c s]; [discriminate|].
  destruct (c =? c_comma)%N; [|discriminate].
  destruct (skip_spaces s) as [|x r] eqn:E; [discriminate|].
  destruct (_ || _); [|discriminate].
  intros H; injection H as <- <-.
  destruct (skip_spaces_split s) as [ws [Hs _]]. rewrite E in Hs.
  exists (c :: ws ++ [x]). split; [rewrite Hs; app_norm|].
  apply subseq_skip. rewrite <- (app_nil_l [x]) at 1.
  apply subseq_app; [apply subseq_nil_l | apply subseq_refl].
Qed.

Lemma replace_first_fence_hint_subseq s :
  subseq (replace_first fence_hint_at s) s.
Proof.
  induction s as [|c s IH]; cbn [replace_first].
  - destruct (fence_hint_at []) as [[repl rest]|] eqn:E; [|apply subseq_nil].
    unfold fence_hint_at in E. cbn in E. discriminate.
  - destruct (fence_hint_at (c :: s)) as [[repl rest]|] eqn:E;
      [|apply subseq_keep; exact IH].
    unfold fence_hint_at in E.
    destruct (strip_prefix fence (c :: s)) as [s1|] eqn:E1; [|discriminate].
    destruct (match_json_ci (skip_spaces s1)) as [r|] eqn:E2; [|discriminate].
    injection E as <- <-.
    apply strip_prefix_app in E1. rewrite E1.
    apply subseq_app; [apply subseq_refl|].
    apply subseq_trans with (skip_spaces s1); [|apply skip_spaces_subseq].
    unfold match_json_ci in E2.
    destruct (skip_spaces s1) as [|j [|s0 [|o [|n r']]]]; try discriminate.
    destruct (_ && _); [|discriminate]. injection E2 as ->.
    do 4 apply subseq_skip. apply subseq_refl.
Qed.

(** X9. Sanitization only takes characters away and straightens curly
    quotes: the sanitized text is the candidate, its curly quotes
    straightened, with some characters left out. It is therefore never
    longer than the candidate, and it neither starts nor ends with white
    space. *)
Theorem X9_sanitization_only_deletes s :
  subseq (sanitizeJsonString s) (map straighten s)
  /\ (List.length (sanitizeJsonString s) <= List.length s)%nat
  /\ trim (sanitizeJsonString s) = sanitizeJsonString s.
Proof.
  assert (H : subseq (sanitizeJsonString s) (map straighten s)
              /\ trim (sanitizeJsonString s) = sanitizeJsonString s).
  { unfold sanitizeJsonString. destruct s as [|c s].
    { split; [apply subseq_nil | reflexivity]. }
    split; [|apply trim_trim].
    eapply subseq_trans; [apply trim_subseq|].
    eapply subseq_trans;
      [apply (replace_global_subseq _ trailing_comma_at_shrinking
                trailing_comma_at_deleting)|].
    eapply subseq_trans;
      [apply (replace_global_subseq _ line_comment_at_shrinking
                line_comment_at_deleting)|].
    eapply subseq_trans;
      [apply (replace_global_subseq _ block_comment_at_shrinking
                block_comment_at_deleting)|].
    apply subseq_map.
    eapply subseq_trans;
      [apply (replace_global_subseq _ fence_at_shrinking fence_at_deleting)|].
    eapply subseq_trans; [apply replace_first_fence_hint_subseq|].
    apply trim_subseq. }
  destruct H as [H1 H2]. split; [exact H1|]. split; [|exact H2].
  apply subseq_length in H1. now rewrite length_map in H1.
Qed.

(* ------------------------------------------------------------------ *)
(** ** The retry on the outer braces *)

Lemma lastIndexOf_None c s : lastIndexOf c s = None <-> ~ In c s.
Proof.
  induction s as [|x s IH]; cbn [lastIndexOf In]; [tauto|].
  destruct (lastIndexOf c s) as [i|].
  - split; [discriminate|]. intros H. exfalso. apply H. right.
    destruct (in_dec N.eq_dec c s) as [Hin|Hn]; auto.
    apply IH in Hn. discriminate.
  - destruct (N.eqb_spec x c) as [->|Hx].
    + split; [discriminate | intros H; exfalso; apply H; now left].
    + split; auto. intros _ [H|H]; [congruence | now apply IH in H].
Qed.

Lemma lastIndexOf_Some c s i :
  lastIndexOf c s = Some i ->
  exists pre post,
    s = pre ++ c :: post /\ List.length pre = i /\ ~ In c post.
Proof.
  revert i. induction s as [|x s IH]; intros i; cbn [lastIndexOf];
    [discriminate|].
  destruct (lastIndexOf c s) as [j|] eqn:E.
  - intros H; injection H as <-.
    destruct (IH _ eq_refl) as [pre [post [-> [Hl Hp]]]].
    exists (x :: pre), post. cbn [List.length app]. auto.
  - destruct (N.eqb_spec x c) as [->|Hx]; [|discriminate].
    intros H; injection H as <-.
    exists [], s. repeat split. now apply lastIndexOf_None.
Qed.

Lemma lastIndexOf_last c pre post :
  ~ In c post -> lastIndexOf c (pre ++ c :: post) = Some (List.length pre).
Proof.
  intros Hp. induction pre as [|x pre IH]; cbn [app lastIndexOf List.length].
  - apply lastIndexOf_None in Hp. rewrite Hp. now rewrite N.eqb_refl.
  - now rewrite IH.
Qed.

(** X10. The retry takes the sanitized text from its first opening brace to
    its last closing brace, both included, when that closing brace comes
    after that opening brace; in every other text there is no retry. *)
Theorem X10_outer_braces sanitized candidate :
  outerBraces sanitized = Some candidate
  <-> exists before inner after,
        sanitized = before ++ candidate ++ after
        /\ candidate = c_lbrace :: inner ++ [c_rbrace]
        /\ ~ In c_lbrace before /\ ~ In c_rbrace after.
Proof.
  assert (Hsl : forall p inner post,
             slice (List.length p) (List.length (p ++ c_lbrace :: inner) + 1)
               (p ++ c_lbrace :: inner ++ c_rbrace :: post)
             = c_lbrace :: inner ++ [c_rbrace]).
  { intros p inner post. unfold slice. rewrite skipn_length_app.
    replace (List.length (p ++ c_lbrace :: inner) + 1 - List.length p)%nat
      with (List.length (c_lbrace :: inner ++ [c_rbrace]))
      by (rewrite length_app; cbn [List.length]; rewrite length_app;
          cbn [List.length]; lia).
    replace (c_lbrace :: inner ++ c_rbrace :: post)
      with ((c_lbrace :: inner ++ [c_rbrace]) ++ post) by app_norm.
    apply firstn_length_app. }
  unfold outerBraces. split.
  - destruct (indexOf c_lbrace sanitized) as [first|] eqn:Ef; [|discriminate].
    destruct (indexOf_Some _ _ _ Ef) as [p [rest [Es [Hlen Hp]]]].
    destruct (lastIndexOf c_rbrace sanitized) as [last|] eqn:El;
      [|discriminate].
    destruct (lastIndexOf_Some _ _ _ El) as [pre [post [Es' [Hlen' Hpost]]]].
    destruct (first <? last)%nat eqn:Elt; [|discriminate].
    apply Nat.ltb_lt in Elt. intros H; injection H as <-.
    assert (Hx : exists inner, rest = inner ++ c_rbrace :: post
                               /\ pre = p ++ c_lbrace :: inner).
    { rewrite Es in Es'. subst first last. clear Ef El.
      apply app_eq_app in Es'. destruct Es' as [l [[E1 E2]|[E1 E2]]].
      - exfalso. apply (f_equal (@List.length N)) in E1.
        rewrite length_app in E1. lia.
      - destruct l as [|x l].
        + exfalso. apply (f_equal (@List.length N)) in E1.
          rewrite length_app in E1. cbn [List.length] in E1. lia.
        + cbn [app] in E2. injection E2 as <- ->. exists l. auto. }
    destruct Hx as [inner [-> ->]].
    assert (Hc : slice first (last + 1) sanitized
                 = c_lbrace :: inner ++ [c_rbrace])
      by (rewrite Es, <- Hlen, <- Hlen'; apply Hsl).
    rewrite Hc. exists p, inner, post.
    split; [rewrite Es; app_norm|]. split; [reflexivity|]. split; assumption.
  - intros [before [inner [after [Es [-> [Hb Ha]]]]]].
    assert (Es' : sanitized = before ++ c_lbrace :: inner ++ c_rbrace :: after)
      by (rewrite Es; app_norm).
    replace (indexOf c_lbrace sanitized) with (Some (List.length before))
      by (rewrite Es'; symmetry; now apply indexOf_first).
    replace (lastIndexOf c_rbrace sanitized)
      with (Some (List.length (before ++ c_lbrace :: inner))).
    2: { rewrite Es'.
         replace (before ++ c_lbrace :: inner ++ c_rbrace :: after)
           with ((before ++ c_lbrace :: inner) ++ c_rbrace :: after)
           by app_norm.
         symmetry. now apply lastIndexOf_last. }
    replace (List.length before <? List.length (before ++ c_lbrace :: inner))%nat
      with true
      by (symmetry; apply Nat.ltb_lt; rewrite length_app;
          cbn [List.length]; lia).
    rewrite Es'. now rewrite Hsl.
Qed.

Lemma X10_outer_braces_witness :
  outerBraces (js "So: {'a': 1} and } more") = Some (js "{'a': 1} and }")
  /\ exists before inner after,
       js "So: {'a': 1} and } more"
       = before ++ js "{'a': 1} and }" ++ after
       /\ js "{'a': 1} and }" = c_lbrace :: inner ++ [c_rbrace]
       /\ ~ In c_lbrace before /\ ~ In c_rbrace after.
Proof.
  assert (H : outerBraces (js "So: {'a': 1} and } more")
              = Some (js "{'a': 1} and }")) by reflexivity.
  split; [exact H|].
  exact (proj1 (X10_outer_braces _ _) H).
Defined.

(* ================================================================== *)
(** * [JSON.stringify] followed by [JSON.parse] *)
(* ================================================================== *)

Lemma hex_val_hexdigit d : (d < 16)%N -> hex_val (hexdigit d) = Some d.
Proof.
  intros Hd. unfold hexdigit, hex_val.
  destruct (N.ltb_spec d 10).
  - replace ((48 <=? 48 + d) && (48 + d <=? 57))%N with true.
    + f_equal. lia.
    + symmetry. apply andb_true_intro. split; apply N.leb_le; lia.
  - replace ((48 <=? 87 + d) && (87 + d <=? 57))%N with false.
    + replace ((97 <=? 87 + d) && (87 + d <=? 102))%N with true.
      * f_equal. lia.
      * symmetry. apply andb_true_intro. split; apply N.leb_le; lia.
    + symmetry. apply andb_false_intro2. apply N.leb_gt. lia.
Qed.

Lemma hex4_unicode_escape c rest :
  (c < 65536)%N ->
  exists h1 h2 h3 h4,
    unicode_escape c ++ rest = c_backslash :: 117%N :: h1 :: h2 :: h3 :: h4 :: rest
    /\ hex4 h1 h2 h3 h4 = Some c.
Proof.
  intros Hc. unfold unicode_escape.
  exists (hexdigit (c / 4096)), (hexdigit ((c / 256) mod 16)),
    (hexdigit ((c / 16) mod 16)), (hexdigit (c mod 16)).
  split; [reflexivity|]. unfold hex4.
  assert (H0 : (c / 4096 < 16)%N) by (apply N.Div0.div_lt_upper_bound; lia).
  assert (H1 : ((c / 256) mod 16 < 16)%N) by (apply N.mod_lt; lia).
  assert (H2 : ((c / 16) mod 16 < 16)%N) by (apply N.mod_lt; lia).
  assert (H3 : (c mod 16 < 16)%N) by (apply N.mod_lt; lia).
  rewrite !hex_val_hexdigit by assumption. f_equal.
  pose proof (N.Div0.div_mod c 16) as E1.
  pose proof (N.Div0.div_mod (c / 16) 16) as E2.
  pose proof (N.Div0.div_mod (c / 256) 16) as E3.
  rewrite N.Div0.div_div in E2. change (16 * 16)%N with 256%N in E2.
  rewrite N.Div0.div_div in E3. change (256 * 16)%N with 4096%N in E3.
  lia.
Qed.

Lemma short_escape_cases c e :
  short_escape c = Some e ->
  e <> 117%N /\ unescape e = Some c.
Proof.
  unfold short_escape.
  repeat match goal with
         | |- context [(c =? ?k)%N] =>
             destruct (N.eqb_spec c k) as [->|?];
             [intros H; injection H as <-; split; [discriminate|reflexivity]|]
         end.
  discriminate.
Qed.

Lemma short_escape_none c :
  short_escape c = None -> c <> 34%N /\ c <> 92%N.
Proof.
  unfold short_escape.
  repeat match goal with
         | |- context [(c =? ?k)%N] =>
             destruct (N.eqb_spec c k) as [->|?]; [discriminate|]
         end.
  auto.
Qed.

(** A character that the parser takes as it stands. *)
Lemma parse_string_chars_plain c s :
  c <> 34%N -> c <> 92%N -> (32 <= c)%N ->
  parse_string_chars (c :: s)
  = match parse_string_chars s with
    | Some (str, rest) => Some (c :: str, rest)
    | None => None
    end.
Proof.
  intros H1 H2 H3. cbn [parse_string_chars].
  destruct (N.eqb_spec c 34); [congruence|].
  destruct (N.eqb_spec c 92); [congruence|].
  destruct (N.ltb_spec c 32); [lia | reflexivity].
Qed.

Lemma parse_string_chars_unicode c s :
  (c < 65536)%N ->
  parse_string_chars (unicode_escape c ++ s)
  = match parse_string_chars s with
    | Some (str, rest) => Some (c :: str, rest)
    | None => None
    end.
Proof.
  intros Hc. destruct (hex4_unicode_escape c s Hc) as [h1 [h2 [h3 [h4 [E H]]]]].
  rewrite E. cbn [parse_string_chars].
  change (c_backslash =? 34)%N with false.
  change (c_backslash =? 92)%N with true.
  change (117 =? 117)%N with true. cbv iota. now rewrite H.
Qed.

(** The text between the quotes that [JSON.stringify] writes for a string
    is read back by the parser as that string. *)
Lemma parse_quote_chars rest : forall n s,
  (List.length s <= n)%nat ->
  parse_string_chars (quote_chars s ++ c_dquote :: rest) = Some (s, rest).
Proof.
  induction n as [|n IH]; intros s Hn.
  { destruct s; [reflexivity | cbn in Hn; lia]. }
  destruct s as [|c s]; [reflexivity|].
  cbn [List.length] in Hn. cbn [quote_chars].
  destruct (short_escape c) as [e|] eqn:Ee.
  { apply short_escape_cases in Ee. destruct Ee as [He Hu].
    cbn [app parse_string_chars].
    change (c_backslash =? 34)%N with false.
    change (c_backslash =? 92)%N with true. cbv iota.
    destruct (N.eqb_spec e 117); [congruence|].
    rewrite Hu, IH by lia. reflexivity. }
  apply short_escape_none in Ee. destruct Ee as [Hq Hb].
  destruct (N.ltb_spec c 32) as [Hlt|Hge].
  { rewrite <- app_assoc, parse_string_chars_unicode by lia.
    now rewrite IH by lia. }
  unfold is_high_surrogate, is_low_surrogate.
  destruct (N.leb_spec 55296 c) as [Hh1|Hh1]; cbn [andb].
  - destruct (N.leb_spec c 56319) as [Hh2|Hh2].
    + (* a high surrogate *)
      destruct s as [|d s].
      * cbn [app]. rewrite <- app_nil_r with (l := unicode_escape c) at 1.
        rewrite <- app_assoc, parse_string_chars_unicode by lia.
        reflexivity.
      * destruct (N.leb_spec 56320 d) as [Hl1|Hl1]; cbn [andb].
        -- destruct (N.leb_spec d 57343) as [Hl2|Hl2].
           ++ cbn [app List.length] in *.
              rewrite parse_string_chars_plain by lia.
              rewrite parse_string_chars_plain by lia.
              now rewrite IH by lia.
           ++ rewrite <- app_assoc, parse_string_chars_unicode by lia.
              now rewrite IH by (cbn [List.length] in *; lia).
        -- rewrite <- app_assoc, parse_string_chars_unicode by lia.
           now rewrite IH by (cbn [List.length] in *; lia).
    + destruct (N.leb_spec 56320 c) as [Hl1|Hl1]; cbn [andb]; [|lia].
      destruct (N.leb_spec c 57343) as [Hl2|Hl2].
      * rewrite <- app_assoc, parse_string_chars_unicode by lia.
        now rewrite IH by lia.
      * cbn [app]. rewrite parse_string_chars_plain by lia.
        now rewrite IH by lia.
  - destruct (N.leb_spec 56320 c) as [Hl1|Hl1]; cbn [andb]; [lia|].
    cbn [app]. rewrite parse_string_chars_plain by lia.
    now rewrite IH by lia.
Qed.

Lemma parse_quote s rest :
  parse_string_chars (quote_chars s ++ c_dquote :: rest) = Some (s, rest).
Proof. now apply (parse_quote_chars rest (List.length s)). Qed.

Lemma quote_app s rest :
  quote s ++ rest = c_dquote :: quote_chars s ++ c_dquote :: rest.
Proof. unfold quote. app_norm. Qed.

(* ------------------------------------------------------------------ *)
(** ** Values *)

Lemma json_induction (P : json -> Prop) :
  P JNull -> (forall b, P (JBool b)) -> (forall l, P (JNumber l)) ->
  (forall s, P (JString s)) ->
  (forall l, Forall P l -> P (JArray l)) ->
  (forall o, Forall (fun kv => P (snd kv)) o -> P (JObject o)) ->
  forall v, P v.
Proof.
  intros HN HB HNum HS HA HO. fix IH 1.
  intros [|b|l|s|l|o]; [exact HN | apply HB | apply HNum | apply HS | |].
  - apply HA. induction l as [|x l IHl]; constructor; [apply IH | exact IHl].
  - apply HO. induction o as [|[k x] o IHo]; constructor;
      [apply IH | exact IHo].
Qed.

Lemma number_free_array l : number_free (JArray l) <-> Forall number_free l.
Proof.
  cbn [number_free]. induction l as [|x l IH]; [split; auto|].
  rewrite Forall_cons_iff. tauto.
Qed.

Lemma number_free_object o :
  number_free (JObject o) <-> Forall (fun kv => number_free (snd kv)) o.
Proof.
  cbn [number_free]. induction o as [|[k x] o IH]; [split; auto|].
  rewrite Forall_cons_iff. cbn [snd]. tauto.
Qed.

Lemma canonical_array l : canonical (JArray l) <-> Forall canonical l.
Proof.
  cbn [canonical]. induction l as [|x l IH]; [split; auto|].
  rewrite Forall_cons_iff. tauto.
Qed.

Lemma canonical_object o :
  canonical (JObject o)
  <-> obj_build o = o /\ Forall (fun kv => canonical (snd kv)) o.
Proof.
  cbn [canonical].
  assert (H : (fix all (o : props) : Prop :=
                 match o with
                 | [] => True
                 | (_, x) :: o' => canonical x /\ all o'
                 end) o
              <-> Forall (fun kv => canonical (snd kv)) o).
  { induction o as [|[k x] o IH]; [split; auto|].
    rewrite Forall_cons_iff. cbn [snd]. tauto. }
  tauto.
Qed.

Section RoundTrip.

Variable number_to_json : jsstring -> jsstring.

Notation stringify := (JSON_stringify number_to_json).
Notation member := (member_text number_to_json).
Notation reads := (reads_back number_to_json).

Lemma stringify_array l :
  stringify (JArray l)
  = c_lbracket :: join_commas (map stringify l) ++ [c_rbracket].
Proof.
  cbn [JSON_stringify]. reflexivity.
Qed.

Lemma stringify_object o :
  stringify (JObject o)
  = c_lbrace :: join_commas (map member o) ++ [c_rbrace].
Proof.
  cbn [JSON_stringify]. do 3 f_equal.
  induction o as [|[k x] o IH]; cbn [map]; [reflexivity|].
  unfold member_text at 1. cbn [fst snd]. f_equal. exact IH.
Qed.

Lemma stringify_head v :
  number_free v -> exists c r, stringify v = c :: r /\ opens_value c.
Proof.
  destruct v as [|[|]|l|s|l|o]; intros Hv.
  - exists 110%N. eexists. split; [reflexivity|]. repeat split; discriminate.
  - exists 116%N. eexists. split; [reflexivity|]. repeat split; discriminate.
  - exists 102%N. eexists. split; [reflexivity|]. repeat split; discriminate.
  - destruct Hv.
  - exists c_dquote. eexists. split; [reflexivity|].
    repeat split; discriminate.
  - rewrite stringify_array. exists c_lbracket. eexists.
    split; [reflexivity|]. repeat split; discriminate.
  - rewrite stringify_object. exists c_lbrace. eexists.
    split; [reflexivity|]. repeat split; discriminate.
Qed.

Lemma skip_ws_opens c r : is_json_ws c = false -> skip_ws (c :: r) = c :: r.
Proof. intros H. cbn [skip_ws]. now rewrite H. Qed.

Lemma reads_back_elements l :
  Forall number_free l -> Forall reads l -> l <> [] ->
  forall rest,
    exists n, forall m, (n <= m)%nat ->
      parse_elements m (join_commas (map stringify l) ++ c_rbracket :: rest)
      = Ok (l, rest).
Proof.
  intros Hnf Hrb. induction l as [|x l IH]; intros Hne rest; [congruence|].
  inversion Hnf as [|? ? Hx Hl]; subst. inversion Hrb as [|? ? Rx Rl]; subst.
  destruct l as [|y l].
  - cbn [map join_commas].
    destruct (Rx (c_rbracket :: rest)) as [n Hn].
    exists (S n). intros m Hm. destruct m as [|m]; [lia|].
    cbn [parse_elements]. rewrite Hn by lia. cbn [bind].
    reflexivity.
  - destruct (IH Hl Rl ltac:(discriminate) rest) as [n2 Hn2].
    set (tail := join_commas (map stringify (y :: l))) in *.
    destruct (Rx (c_comma :: tail ++ c_rbracket :: rest)) as [n1 Hn1].
    exists (S (Nat.max n1 n2)). intros m Hm. destruct m as [|m]; [lia|].
    cbn [parse_elements].
    replace (join_commas (map stringify (x :: y :: l))
               ++ c_rbracket :: rest)
      with (stringify x ++ c_comma :: tail ++ c_rbracket :: rest)
      by (cbn [map join_commas]; app_norm).
    rewrite Hn1 by lia. cbn [bind].
    change (skip_ws (c_comma :: tail ++ c_rbracket :: rest))
      with (c_comma :: tail ++ c_rbracket :: rest).
    cbv iota. change (c_comma =? 44)%N with true. cbv iota.
    inversion Hl as [|? ? Hy _]; subst.
    destruct (stringify_head y Hy) as [c [r [Ey [Hws _]]]].
    assert (Et : exists r', tail = c :: r').
    { unfold tail. cbn [map join_commas]. rewrite Ey.
      destruct (map stringify l); eexists; reflexivity. }
    destruct Et as [r' Et]. rewrite Et at 1. cbn [app].
    rewrite skip_ws_opens by assumption.
    change (c :: r' ++ c_rbracket :: rest)
      with ((c :: r') ++ c_rbracket :: rest).
    rewrite <- Et, Hn2 by lia. reflexivity.
Qed.

Lemma reads_back_members o :
  Forall (fun kv => number_free (snd kv)) o ->
  Forall (fun kv => reads (snd kv)) o -> o <> [] ->
  forall rest acc,
    exists n, forall m, (n <= m)%nat ->
      parse_members m (join_commas (map member o) ++ c_rbrace :: rest)
        acc
      = Ok (fold_left (fun a kv => obj_set (fst kv) (snd kv) a) o acc, rest).
Proof.
  intros Hnf Hrb. induction o as [|[k x] o IH]; intros Hne rest acc;
    [congruence|].
  inversion Hnf as [|? ? Hx Hl]; subst. inversion Hrb as [|? ? Rx Rl]; subst.
  cbn [snd] in Hx, Rx.
  destruct (stringify_head x Hx) as [c [r [Ex [Hws _]]]].
  destruct o as [|[k2 y] o].
  - cbn [map join_commas fold_left fst snd]. unfold member_text.
    cbn [fst snd].
    destruct (Rx (c_rbrace :: rest)) as [n Hn].
    exists (S n). intros m Hm. destruct m as [|m]; [lia|].
    rewrite <- app_assoc, quote_app. cbn [parse_members].
    change (c_dquote =? 34)%N with true. cbv iota.
    rewrite parse_quote.
    cbn [app].
    change (skip_ws (c_colon :: stringify x ++ c_rbrace :: rest))
      with (c_colon :: stringify x ++ c_rbrace :: rest).
    cbv iota. change (c_colon =? 58)%N with true. cbv iota.
    rewrite Ex at 1. cbn [app]. rewrite skip_ws_opens by assumption.
    change (c :: r ++ c_rbrace :: rest) with ((c :: r) ++ c_rbrace :: rest).
    rewrite <- Ex, Hn by lia. cbn [bind]. reflexivity.
  - set (tail := join_commas (map member ((k2, y) :: o))) in *.
    destruct (Rx (c_comma :: tail ++ c_rbrace :: rest)) as [n1 Hn1].
    destruct (IH Hl Rl ltac:(discriminate) rest (obj_set k x acc))
      as [n2 Hn2].
    exists (S (Nat.max n1 n2)). intros m Hm. destruct m as [|m]; [lia|].
    replace (join_commas (map member ((k, x) :: (k2, y) :: o))
               ++ c_rbrace :: rest)
      with (quote k ++ c_colon :: stringify x
              ++ c_comma :: tail ++ c_rbrace :: rest)
      by (cbn [map join_commas]; unfold member_text at 1; cbn [fst snd];
          app_norm).
    rewrite quote_app. cbn [parse_members].
    change (c_dquote =? 34)%N with true. cbv iota.
    rewrite parse_quote.
    cbn [app].
    change (skip_ws (c_colon :: stringify x
                       ++ c_comma :: tail ++ c_rbrace :: rest))
      with (c_colon :: stringify x ++ c_comma :: tail ++ c_rbrace :: rest).
    cbv iota. change (c_colon =? 58)%N with true. cbv iota.
    rewrite Ex at 1. cbn [app]. rewrite skip_ws_opens by assumption.
    change (c :: r ++ c_comma :: tail ++ c_rbrace :: rest)
      with ((c :: r) ++ c_comma :: tail ++ c_rbrace :: rest).
    rewrite <- Ex, Hn1 by lia. cbn [bind].
    change (skip_ws (c_comma :: tail ++ c_rbrace :: rest))
      with (c_comma :: tail ++ c_rbrace :: rest).
    cbv iota. change (c_comma =? 44)%N with true. cbv iota.
    assert (Et : exists t', tail = c_dquote :: t').
    { unfold tail. cbn [map join_commas].
      destruct (map member o); unfold member_text, quote; cbn [fst snd app];
        eexists; reflexivity. }
    destruct Et as [t' Et].
    assert (Es : skip_ws (tail ++ c_rbrace :: rest)
                 = tail ++ c_rbrace :: rest)
      by (rewrite Et; reflexivity).
    rewrite Es, Hn2 by lia. reflexivity.
Qed.

Lemma reads_back_all v : number_free v -> canonical v -> reads v.
Proof.
  induction v as [|b|l|s|l IH|o IH] using json_induction; intros Hnf Hc rest.
  - exists 1%nat. intros [|m] Hm; [lia | reflexivity].
  - exists 1%nat. intros [|m] Hm; [lia | destruct b; reflexivity].
  - destruct Hnf.
  - exists 1%nat. intros [|m] Hm; [lia|].
    cbn [JSON_stringify]. rewrite quote_app. cbn [parse_value].
    change (c_dquote =? 123)%N with false.
    change (c_dquote =? 91)%N with false. cbv iota.
    cbn [parse_scalar]. change (c_dquote =? 34)%N with true. cbv iota.
    now rewrite parse_quote.
  - apply number_free_array in Hnf. apply canonical_array in Hc.
    assert (Hrb : Forall reads l).
    { rewrite Forall_forall in *. intros x Hx. apply IH; auto. }
    rewrite stringify_array. destruct l as [|x l].
    + exists 1%nat. intros [|m] Hm; [lia | reflexivity].
    + destruct (reads_back_elements (x :: l) Hnf Hrb ltac:(discriminate) rest)
        as [n Hn].
      exists (S n). intros [|m] Hm; [lia|].
      inversion Hnf as [|? ? Hx _]; subst.
      destruct (stringify_head x Hx) as [c [r [Ex [Hws [H93 _]]]]].
      assert (Et : exists r', join_commas (map stringify (x :: l)) = c :: r').
      { cbn [map join_commas]. rewrite Ex.
        destruct (map stringify l); eexists; reflexivity. }
      destruct Et as [r' Et].
      replace ((c_lbracket :: join_commas (map stringify (x :: l))
                  ++ [c_rbracket]) ++ rest)
        with (c_lbracket :: join_commas (map stringify (x :: l))
                ++ c_rbracket :: rest) by app_norm.
      cbn [parse_value].
      change (c_lbracket =? 123)%N with false.
      change (c_lbracket =? 91)%N with true. cbv iota.
      assert (Es : skip_ws (join_commas (map stringify (x :: l))
                              ++ c_rbracket :: rest)
                   = c :: r' ++ c_rbracket :: rest)
        by (rewrite Et; cbn [app]; now apply skip_ws_opens).
      rewrite Es. cbv beta iota.
      destruct (N.eqb_spec c 93); [congruence|].
      change (c :: r' ++ c_rbracket :: rest)
        with ((c :: r') ++ c_rbracket :: rest).
      rewrite <- Et, Hn by lia. reflexivity.
  - apply number_free_object in Hnf. apply canonical_object in Hc.
    destruct Hc as [Hb Hc].
    assert (Hrb : Forall (fun kv => reads (snd kv)) o).
    { rewrite Forall_forall in *. intros x Hx. apply IH; auto. }
    rewrite stringify_object. destruct o as [|[k x] o].
    + exists 1%nat. intros [|m] Hm; [lia | reflexivity].
    + destruct (reads_back_members ((k, x) :: o) Hnf Hrb ltac:(discriminate)
                  rest []) as [n Hn].
      exists (S n). intros [|m] Hm; [lia|].
      replace ((c_lbrace :: join_commas (map member ((k, x) :: o))
                  ++ [c_rbrace]) ++ rest)
        with (c_lbrace :: join_commas (map member ((k, x) :: o))
                ++ c_rbrace :: rest) by app_norm.
      assert (Et : exists r',
                 join_commas (map member ((k, x) :: o)) = c_dquote :: r').
      { cbn [map join_commas].
        destruct (map member o); unfold member_text, quote;
          cbn [fst snd app]; eexists; reflexivity. }
      destruct Et as [r' Et].
      cbn [parse_value].
      change (c_lbrace =? 123)%N with true. cbv iota.
      assert (Es : skip_ws (join_commas (map member ((k, x) :: o))
                              ++ c_rbrace :: rest)
                   = c_dquote :: r' ++ c_rbrace :: rest)
        by (rewrite Et; reflexivity).
      rewrite Es. cbv beta iota.
      change (c_dquote =? 125)%N with false. cbv iota.
      change (c_dquote :: r' ++ c_rbrace :: rest)
        with ((c_dquote :: r') ++ c_rbrace :: rest).
      rewrite <- Et, Hn by lia. cbn [bind].
      unfold obj_build in Hb. now rewrite Hb.
Qed.

Lemma stringify_parse v :
  number_free v -> canonical v -> JSON_parse (stringify v) = Some v.
Proof.
  intros Hnf Hc. destruct (reads_back_all v Hnf Hc []) as [n Hn].
  rewrite app_nil_r in Hn.
  destruct (stringify_head v Hnf) as [c [r [E [Hws _]]]].
  unfold JSON_parse.
  destruct (parse_value_fuel (stringify v)
              (Nat.max n (parse_fuel (stringify v)))) as [_ Hf]; [lia|].
  assert (Es : skip_ws (stringify v) = stringify v)
    by (rewrite E; now apply skip_ws_opens).
  rewrite <- Hf, Es, Hn by lia. reflexivity.
Qed.

End RoundTrip.

(** X11. Writing a value with [JSON.stringify] and reading the text with
    [JSON.parse] gives the value back, for a value that holds no number and
    whose objects list their properties in the order in which an object
    enumerates them. Strings come back character by character, escapes,
    control characters and lone surrogates included. *)
Theorem X11_stringify_then_parse number_to_json v :
  number_free v -> canonical v ->
  JSON_parse (JSON_stringify number_to_json v) = Some v.
Proof. apply stringify_parse. Qed.

Lemma X11_stringify_then_parse_witness :
  number_free (JArray [JString [c_dquote; c_backslash; 7%N; 55357%N];
                       JObject [(js "a", JNull)]])
  /\ JSON_parse
       (JSON_stringify lexeme_text
          (JArray [JString [c_dquote; c_backslash; 7%N; 55357%N];
                   JObject [(js "a", JNull)]]))
     = Some (JArray [JString [c_dquote; c_backslash; 7%N; 55357%N];
                     JObject [(js "a", JNull)]]).
Proof.
  assert (H1 : number_free
                 (JArray [JString [c_dquote; c_backslash; 7%N; 55357%N];
                          JObject [(js "a", JNull)]]))
    by (cbn; tauto).
  assert (H2 : canonical
                 (JArray [JString [c_dquote; c_backslash; 7%N; 55357%N];
                          JObject [(js "a", JNull)]]))
    by (cbn; repeat split; reflexivity).
  split; [exact H1|].
  exact (X11_stringify_then_parse lexeme_text _ H1 H2).
Defined.

(** X12. The fallback survives the response: whatever the raw text holds,
    the body that a handler writes for the fallback object, when the
    serialisation returns, parses, on the side of the client, to the object
    with that raw text as its itinerary and no places. *)
Theorem X12_fallback_survives_response number_to_json text :
  JSON_parse (response_text number_to_json
                {| status := 200; body := fallback text |})
  = Some (fallback text)
  /\ obj_get (js "itinerary") [(js "itinerary", JString text);
                               (js "places", JArray [])]
     = Some (JString text).
Proof.
  split; [|reflexivity].
  unfold response_text. cbn [body].
  apply stringify_parse; cbn; repeat split; reflexivity.
Qed.

Lemma frontend_prompt nts niz f :
  exists prompt,
    netlify_prompt nts niz (fields_of (JObject (request_object f)))
    = Some prompt.
Proof.
  unfold netlify_prompt.
  assert (E : exists t,
             substitutions nts niz
               (fields_of (JObject (request_object f))) = Some t).
  { unfold substitutions, or_default, interpolate, fields_of, request_object.
    cbn [obj_get].
    repeat match goal with
           | |- context [str_eqb ?a ?b] =>
               let r := eval vm_compute in (str_eqb a b) in
               change (str_eqb a b) with r; cbv iota
           end.
    cbn [to_string].
    destruct (truthy niz (JString (startCity f))); eexists; reflexivity. }
  destruct E as [[[[[a b] c] d] e] ->]. eexists. reflexivity.
Qed.

(** X13. The request of the frontend. The body that the submit listener
    serialises parses, in the function, to the object with the five fields
    of the form, the two dates joined into one; with a client configured
    the one prompt sent is the template filled with those fields, and the
    listener takes the answer as a success exactly when the provider gave a
    text and the result of the pipeline was serialised. *)
Theorem X13_frontend_request number_to_json ser nts niz model f :
  JSON_parse (JSON_stringify number_to_json (JObject (request_object f)))
  = Some (JObject (request_object f))
  /\ exists prompt,
       netlify_prompt nts niz (fields_of (JObject (request_object f)))
       = Some prompt
       /\ prompts_sent
            (trace (handler ser nts niz (Some model)
                      (request_event number_to_json f)))
          = [prompt]
       /\ response_ok
            (value (handler ser nts niz (Some model)
                      (request_event number_to_json f)))
          = match model prompt with
            | Some text => ser (pipeline ser Netlify text)
            | None => false
            end.
Proof.
  assert (E : JSON_parse
                (JSON_stringify number_to_json (JObject (request_object f)))
              = Some (JObject (request_object f))).
  { apply stringify_parse; cbn; repeat split; reflexivity. }
  split; [exact E|].
  destruct (frontend_prompt nts niz f) as [prompt Ep].
  exists prompt. split; [exact Ep|].
  assert (Er : match eventBody (request_event number_to_json f) with
               | Some (c :: b) => c :: b
               | _ => js "{}"
               end
               = JSON_stringify number_to_json (JObject (request_object f))).
  { unfold request_event. cbn [eventBody]. rewrite stringify_object.
    reflexivity. }
  split.
  - rewrite function_prompts, Er, E, Ep. reflexivity.
  - destruct (model prompt) as [text|] eqn:Em.
    + assert (Eb : JSON_parse
                     match eventBody (request_event number_to_json f) with
                     | Some (c :: b) => c :: b
                     | _ => js "{}"
                     end = Some (JObject (request_object f)))
        by (rewrite Er; exact E).
      destruct (handler_text ser nts niz model
                  (request_event number_to_json f)
                  (JObject (request_object f)) prompt text
                  eq_refl Eb ltac:(discriminate) Ep Em) as [Hv _].
      unfold provider in *. rewrite Hv, respond_value.
      destruct (ser (pipeline ser Netlify text)); reflexivity.
    + unfold handler. cbn [httpMethod request_event].
      change (negb (str_eqb (js "POST") (js "POST"))) with false.
      cbv iota. unfold jsonParse, generateContent, bindM, ret, value.
      fold (request_event number_to_json f).
      rewrite Er, E, Ep, Em. reflexivity.
Qed.
(* ================================================================== *)
(** * The objects that [JSON.parse] builds *)
(* ================================================================== *)

(* ------------------------------------------------------------------ *)
(** ** Array indices *)

Local Open Scope N_scope.

Lemma digits_value_acc ds : forall a,
  fold_left (fun a c => a * 10 + (c - 48)) ds a
  = a * 10 ^ N.of_nat (List.length ds) + digits_value ds.
Proof.
  unfold digits_value.
  induction ds as [|d ds IH]; intros a.
  - cbn. lia.
  - cbn [fold_left List.length]. rewrite IH, (IH (0 * 10 + (d - 48))).
    rewrite Nat2N.inj_succ, N.pow_succ_r'. lia.
Qed.

Lemma digits_value_cons d ds :
  digits_value (d :: ds)
  = (d - 48) * 10 ^ N.of_nat (List.length ds) + digits_value ds.
Proof.
  unfold digits_value at 1. cbn [fold_left]. rewrite digits_value_acc. lia.
Qed.

Lemma is_digit_range c : is_digit c = true -> 48 <= c <= 57.
Proof.
  unfold is_digit. intros H. apply andb_prop in H. destruct H as [H1 H2].
  apply N.leb_le in H1, H2. lia.
Qed.

Lemma digits_value_bound ds :
  forallb is_digit ds = true ->
  digits_value ds < 10 ^ N.of_nat (List.length ds).
Proof.
  induction ds as [|d ds IH]; intros H.
  - cbn. lia.
  - cbn [forallb] in H. apply andb_prop in H. destruct H as [Hd Hds].
    apply is_digit_range in Hd. specialize (IH Hds).
    rewrite digits_value_cons. cbn [List.length].
    rewrite Nat2N.inj_succ, N.pow_succ_r'. nia.
Qed.

Lemma digits_value_same_length : forall a b,
  List.length a = List.length b ->
  forallb is_digit a = true -> forallb is_digit b = true ->
  digits_value a = digits_value b -> a = b.
Proof.
  induction a as [|x a IH]; intros [|y b] Hl Ha Hb Hv;
    try discriminate; auto.
  cbn [List.length] in Hl. injection Hl as Hl.
  cbn [forallb] in Ha, Hb.
  apply andb_prop in Ha, Hb. destruct Ha as [Hx Ha], Hb as [Hy Hb].
  pose proof (digits_value_bound a Ha) as Ba.
  pose proof (digits_value_bound b Hb) as Bb.
  apply is_digit_range in Hx, Hy.
  rewrite !digits_value_cons, Hl in Hv. rewrite Hl in Ba.
  set (p := 10 ^ N.of_nat (List.length b)) in *.
  assert (x = y) by nia. subst y.
  f_equal. apply IH; auto. lia.
Qed.

Lemma digits_value_lower d ds :
  forallb is_digit (d :: ds) = true -> d <> 48 ->
  10 ^ N.of_nat (List.length ds) <= digits_value (d :: ds).
Proof.
  intros H Hd. cbn [forallb] in H. apply andb_prop in H.
  destruct H as [Hx _]. apply is_digit_range in Hx.
  rewrite digits_value_cons. nia.
Qed.

(** The text of an array index is fixed by its value. *)
Lemma array_index_inj k k' i :
  array_index k = Some i -> array_index k' = Some i -> k = k'.
Proof.
  assert (Hlen : forall d ds e es,
             forallb is_digit (d :: ds) = true ->
             forallb is_digit (e :: es) = true ->
             (negb (e =? 48) || match es with [] => true | _ => false end)
             = true ->
             (List.length ds < List.length es)%nat ->
             digits_value (d :: ds) <> digits_value (e :: es)).
  { intros d ds e es Hd He Hz Hl Hv.
    destruct es as [|e2 es]; [cbn in Hl; lia|].
    rewrite orb_false_r in Hz. apply negb_true_iff, N.eqb_neq in Hz.
    pose proof (digits_value_bound _ Hd) as B1.
    pose proof (digits_value_lower _ _ He Hz) as B2.
    assert (10 ^ N.of_nat (List.length (d :: ds))
            <= 10 ^ N.of_nat (List.length (e2 :: es)))
      by (apply N.pow_le_mono_r; cbn [List.length] in *; lia).
    lia. }
  unfold array_index.
  destruct k as [|d ds]; [discriminate|].
  destruct k' as [|e es]; [discriminate|].
  destruct (forallb is_digit (d :: ds)) eqn:Hd; [|discriminate].
  destruct (forallb is_digit (e :: es)) eqn:He; [|discriminate].
  cbn [andb].
  destruct (negb (d =? 48) || match ds with [] => true | _ => false end)
    eqn:Zd; [|discriminate].
  destruct (negb (e =? 48) || match es with [] => true | _ => false end)
    eqn:Ze; [|discriminate].
  cbn [andb].
  destruct (_ && _); [|discriminate]. intros H1; injection H1 as H1.
  destruct (_ && _); [|discriminate]. intros H2; injection H2 as H2.
  destruct (Nat.lt_trichotomy (List.length ds) (List.length es))
    as [Hl|[Hl|Hl]].
  - exfalso. apply (Hlen d ds e es); auto. congruence.
  - apply digits_value_same_length; auto.
    + cbn [List.length]. congruence.
    + congruence.
  - exfalso. apply (Hlen e es d ds); auto. congruence.
Qed.

Local Close Scope N_scope.

(* ------------------------------------------------------------------ *)
(** ** The order of the properties *)

Lemma has_key_In k o : has_key k o = true <-> In k (map fst o).
Proof.
  induction o as [|[k' v] o IH]; cbn [has_key map fst In].
  - split; [discriminate | tauto].
  - rewrite orb_true_iff, IH, str_eqb_eq. split; intros [H|H]; auto.
Qed.

Lemma has_key_false k o : has_key k o = false <-> ~ In k (map fst o).
Proof.
  rewrite <- has_key_In. destruct (has_key k o); split; congruence.
Qed.

Lemma replace_key_keys k v o : map fst (replace_key k v o) = map fst o.
Proof.
  induction o as [|[k' v'] o IH]; cbn [replace_key map fst]; auto.
  destruct (str_eqb k k'); cbn [map fst]; congruence.
Qed.

Lemma replace_key_values k v o x :
  In x (map snd (replace_key k v o)) -> x = v \/ In x (map snd o).
Proof.
  induction o as [|[k' v'] o IH]; cbn [replace_key map snd In]; auto.
  destruct (str_eqb k k'); cbn [map snd In]; intros [H|H]; auto.
  apply IH in H. tauto.
Qed.

Lemma insert_index_In i k v o x :
  In x (insert_index i k v o) <-> x = (k, v) \/ In x o.
Proof.
  induction o as [|[k' v'] o IH]; cbn [insert_index In].
  - intuition.
  - destruct (array_index k') as [j|].
    + destruct (j <? i)%N; cbn [In]; [rewrite IH|]; intuition.
    + cbn [In]. intuition.
Qed.

Lemma in_order_app_none ks k :
  in_order ks -> array_index k = None -> in_order (ks ++ [k]).
Proof.
  intros H Hk. induction ks as [|x ks IH]; cbn [app in_order].
  - rewrite Hk. auto.
  - cbn [in_order] in H. destruct H as [H1 H2]. split; auto.
    destruct (array_index x) as [i|].
    + apply Forall_app. split; auto. constructor; auto.
      unfold index_after. now rewrite Hk.
    + apply Forall_app. split; auto.
Qed.

Lemma insert_index_in_order i k v : forall o,
  array_index k = Some i ->
  in_order (map fst o) ->
  ~ In k (map fst o) ->
  in_order (map fst (insert_index i k v o)).
Proof.
  intros o Hk. induction o as [|[k' v'] o IH]; intros Ho Hn.
  - cbn [insert_index map fst in_order]. rewrite Hk. auto.
  - cbn [map fst in_order] in Ho. destruct Ho as [H1 H2].
    assert (Hn' : ~ In k (map fst o))
      by (intros H; apply Hn; right; exact H).
    assert (Hkk : k' <> k) by (intros H; apply Hn; left; exact H).
    cbn [insert_index].
    destruct (array_index k') as [j|] eqn:Ej.
    + destruct (N.ltb_spec j i) as [Hlt|Hge].
      * cbn [map fst in_order]. rewrite Ej. split; [|now apply IH].
        rewrite Forall_forall in *. intros x Hx.
        apply in_map_iff in Hx. destruct Hx as [[kx vx] [<- Hx]].
        apply insert_index_In in Hx. destruct Hx as [Hx|Hx].
        -- injection Hx as -> ->. cbn [fst]. unfold index_after.
           now rewrite Hk.
        -- apply H1. apply in_map_iff. exists (kx, vx). auto.
      * assert (Hne : i <> j).
        { intros ->. apply Hkk. now apply (array_index_inj k' k j). }
        cbn [map fst in_order]. rewrite Hk, Ej. split; [|split; auto].
        constructor.
        -- unfold index_after. rewrite Ej. lia.
        -- rewrite Forall_forall in *. intros x Hx. specialize (H1 x Hx).
           unfold index_after in *.
           destruct (array_index x); auto. lia.
    + cbn [map fst in_order]. rewrite Hk, Ej. split; [|split; auto].
      constructor.
      * unfold index_after. now rewrite Ej.
      * rewrite Forall_forall in *. intros x Hx. specialize (H1 x Hx).
        unfold index_after. now rewrite H1.
Qed.

Lemma insert_index_keys i k v o x :
  In x (map fst (insert_index i k v o)) <-> x = k \/ In x (map fst o).
Proof.
  rewrite !in_map_iff. split.
  - intros [[kx vx] [<- H]]. apply insert_index_In in H.
    destruct H as [H|H]; [injection H as -> ->; now left|].
    right. exists (kx, vx). auto.
  - intros [->|[[kx vx] [<- H]]].
    + exists (k, v). split; auto. apply insert_index_In. now left.
    + exists (kx, vx). split; auto. apply insert_index_In. now right.
Qed.

Lemma insert_index_NoDup i k v : forall o,
  NoDup (map fst o) -> ~ In k (map fst o) ->
  NoDup (map fst (insert_index i k v o)).
Proof.
  induction o as [|[k' v'] o IH]; intros Ho Hn.
  - cbn. constructor; auto.
  - cbn [map fst] in Ho. inversion Ho as [|? ? Hk' Ho']; subst.
    cbn [insert_index].
    destruct (array_index k') as [j|];
      [destruct (j <? i)%N|]; cbn [map fst];
      try (constructor; [exact Hn | exact Ho]).
    constructor.
    + rewrite insert_index_keys. intros [->|H]; [|auto].
      apply Hn. now left.
    + apply IH; auto. intros H. apply Hn. now right.
Qed.

(** [CreateDataProperty] keeps the order of enumeration. *)
Lemma obj_set_enumerated k v o : enumerated o -> enumerated (obj_set k v o).
Proof.
  intros [Hd Ho]. unfold obj_set.
  destruct (has_key k o) eqn:Hk.
  - unfold enumerated. now rewrite replace_key_keys.
  - apply has_key_false in Hk.
    destruct (array_index k) as [i|] eqn:Ek.
    + split; [now apply insert_index_NoDup | now apply insert_index_in_order].
    + unfold enumerated. rewrite map_app. cbn [map fst]. split.
      * apply NoDup_app; auto.
        -- constructor; [intros [] | constructor].
        -- intros x Hx [<-|[]]. auto.
      * now apply in_order_app_none.
Qed.

Lemma obj_set_values k v o x :
  In x (map snd (obj_set k v o)) -> x = v \/ In x (map snd o).
Proof.
  unfold obj_set. destruct (has_key k o).
  - apply replace_key_values.
  - destruct (array_index k) as [i|].
    + rewrite in_map_iff. intros [[kx vx] [<- H]].
      apply insert_index_In in H. destruct H as [H|H].
      * injection H as -> ->. now left.
      * right. apply in_map_iff. exists (kx, vx). auto.
    + rewrite map_app, in_app_iff. cbn. intros [H|[H|[]]]; auto.
Qed.

Lemma insert_index_end i k v : forall o,
  Forall (fun kv => match array_index (fst kv) with
                    | Some j => (j < i)%N
                    | None => False
                    end) o ->
  insert_index i k v o = o ++ [(k, v)].
Proof.
  induction o as [|[k' v'] o IH]; intros H; [reflexivity|].
  inversion H as [|? ? H1 H2]; subst. cbn [fst] in H1.
  cbn [insert_index app]. destruct (array_index k') as [j|]; [|destruct H1].
  destruct (N.ltb_spec j i); [|lia]. now rewrite IH.
Qed.

Lemma in_order_prefix a : forall b, in_order (a ++ b) -> in_order a.
Proof.
  induction a as [|x a IH]; intros b H; cbn [app in_order] in *; auto.
  destruct H as [H1 H2]. split; [|eauto].
  destruct (array_index x); apply Forall_app in H1; tauto.
Qed.

Lemma in_order_before a k b :
  in_order (a ++ k :: b) ->
  Forall (fun x => match array_index x, array_index k with
                   | Some i, Some j => (i < j)%N
                   | Some _, None => True
                   | None, Some _ => False
                   | None, None => True
                   end) a.
Proof.
  induction a as [|x a IH]; intros H; [constructor|].
  cbn [app in_order] in H. destruct H as [H1 H2].
  constructor; [|auto].
  destruct (array_index x) as [i|].
  - apply Forall_app in H1. destruct H1 as [_ H1].
    inversion H1 as [|? ? Hk _]; subst. unfold index_after in Hk.
    destruct (array_index k); auto.
  - apply Forall_app in H1. destruct H1 as [_ H1].
    inversion H1 as [|? ? Hk _]; subst. now rewrite Hk.
Qed.

(** Defining the properties of an enumeration one after the other gives
    the enumeration. *)
Lemma obj_build_from s : forall acc,
  enumerated (acc ++ s) ->
  fold_left (fun a kv => obj_set (fst kv) (snd kv) a) s acc = acc ++ s.
Proof.
  induction s as [|[k v] s IH]; intros acc H.
  - cbn. now rewrite app_nil_r.
  - cbn [fold_left fst snd].
    assert (E : obj_set k v acc = acc ++ [(k, v)]).
    { destruct H as [Hd Ho]. rewrite map_app in Hd, Ho. cbn [map fst] in *.
      unfold obj_set.
      replace (has_key k acc) with false.
      2: { symmetry. apply has_key_false. intros Hin.
           apply NoDup_remove_2 in Hd. apply Hd. apply in_or_app. now left. }
      destruct (array_index k) as [i|] eqn:Ek; [|reflexivity].
      apply insert_index_end. apply in_order_before in Ho.
      rewrite Ek in Ho. rewrite Forall_forall in *.
      intros [kx vx] Hx. cbn [fst].
      specialize (Ho kx (in_map fst _ _ Hx)). cbn [fst] in Ho.
      destruct (array_index kx); auto. }
    rewrite E, IH.
    + now rewrite <- app_assoc.
    + now rewrite <- app_assoc.
Qed.

Lemma enumerated_obj_build o : enumerated o -> obj_build o = o.
Proof. intros H. unfold obj_build. now rewrite obj_build_from. Qed.

(* ------------------------------------------------------------------ *)
(** ** What the parser builds *)

Lemma canonical_scalar s v rest : parse_scalar s = Some (v, rest) -> canonical v.
Proof.
  unfold parse_scalar. destruct s as [|c s]; [discriminate|].
  destruct (c =? 34)%N.
  { destruct (parse_string_chars s) as [[str r]|]; [|discriminate].
    intros H; injection H as <- _. exact I. }
  destruct (_ || _).
  { destruct (parse_number (c :: s)) as [[l r]|]; [|discriminate].
    intros H; injection H as <- _. exact I. }
  destruct (strip_prefix (js "true") (c :: s));
    [intros H; injection H as <- _; exact I|].
  destruct (strip_prefix (js "false") (c :: s));
    [intros H; injection H as <- _; exact I|].
  destruct (strip_prefix (js "null") (c :: s));
    [intros H; injection H as <- _; exact I | discriminate].
Qed.

Lemma canonical_object_intro o :
  enumerated o -> Forall canonical (map snd o) -> canonical (JObject o).
Proof.
  intros He Hv. apply (proj2 (canonical_object o)). split.
  - now apply enumerated_obj_build.
  - rewrite Forall_forall in *. intros kv Hkv. apply Hv. now apply in_map.
Qed.

Lemma parse_canonical n :
  (forall s v rest, parse_value n s = Ok (v, rest) -> canonical v)
  /\ (forall s vs rest, parse_elements n s = Ok (vs, rest) ->
                        Forall canonical vs)
  /\ (forall s acc o rest,
         parse_members n s acc = Ok (o, rest) ->
         enumerated acc -> Forall canonical (map snd acc) ->
         enumerated o /\ Forall canonical (map snd o)).
Proof.
  induction n as [|n [IHv [IHe IHm]]];
    [repeat split; intros; cbn in *; discriminate|].
  split; [|split].
  - intros s v rest. cbn [parse_value].
    destruct s as [|c s]; [discriminate|].
    destruct (c =? 123)%N.
    { destruct (skip_ws s) as [|x r] eqn:E; [discriminate|]. rewrite <- E.
      destruct (x =? 125)%N.
      - intros H; injection H as <- _.
        apply (proj2 (canonical_object [])). split; [reflexivity | constructor].
      - intros H. apply bind_Ok in H. destruct H as [[o r'] [Hm H]].
        injection H as <- _.
        apply IHm in Hm; [|split; constructor|constructor].
        destruct Hm as [He Hv]. now apply canonical_object_intro. }
    destruct (c =? 91)%N.
    { destruct (skip_ws s) as [|x r] eqn:E; [discriminate|]. rewrite <- E.
      destruct (x =? 93)%N.
      - intros H; injection H as <- _. apply (proj2 (canonical_array [])). constructor.
      - intros H. apply bind_Ok in H. destruct H as [[vs r'] [Hm H]].
        injection H as <- _. apply (proj2 (canonical_array _)).
        eapply IHe; eauto. }
    destruct (parse_scalar (c :: s)) as [[w r]|] eqn:E; [|discriminate].
    intros H; injection H as <- _. eapply canonical_scalar; eauto.
  - intros s vs rest. cbn [parse_elements]. intros H.
    apply bind_Ok in H. destruct H as [[v r1] [Hv H]].
    apply IHv in Hv.
    destruct (skip_ws r1) as [|x r2]; [discriminate|].
    destruct (x =? 44)%N.
    + apply bind_Ok in H. destruct H as [[vs' r3] [He H]].
      injection H as <- _. constructor; auto. eapply IHe; eauto.
    + destruct (x =? 93)%N; [|discriminate].
      injection H as <- _. constructor; auto.
  - intros s acc o rest. cbn [parse_members].
    destruct s as [|c s]; [discriminate|].
    destruct (c =? 34)%N; [|discriminate].
    destruct (parse_string_chars s) as [[k r1]|]; [|discriminate].
    destruct (skip_ws r1) as [|y r2]; [discriminate|].
    destruct (y =? 58)%N; [|discriminate].
    intros H Hacc Hvals.
    apply bind_Ok in H. destruct H as [[v r3] [Hv H]].
    apply IHv in Hv.
    assert (Hacc' : enumerated (obj_set k v acc))
      by now apply obj_set_enumerated.
    assert (Hvals' : Forall canonical (map snd (obj_set k v acc))).
    { rewrite Forall_forall in *. intros x Hx.
      apply obj_set_values in Hx. destruct Hx as [->|Hx]; auto. }
    destruct (skip_ws r3) as [|x r4]; [discriminate|].
    destruct (x =? 44)%N.
    + eapply IHm; eauto.
    + destruct (x =? 125)%N; [|discriminate].
      injection H as <- _. auto.
Qed.

Lemma JSON_parse_canonical text v : JSON_parse text = Some v -> canonical v.
Proof.
  unfold JSON_parse.
  destruct (parse_value _ _) as [| |[w rest]] eqn:E; try discriminate.
  destruct (skip_ws rest); [|discriminate].
  intros H; injection H as <-.
  eapply (proj1 (parse_canonical _)); eauto.
Qed.

(** X14. The values that [JSON.parse] builds, and so the results of the
    pipeline, list the properties of every object in the order of
    enumeration, without a key twice. The function hands them to
    [JSON.stringify]: when the result holds no number, the body it writes,
    when the serialisation returns, parses back, on the side of the client,
    to that result. *)
Theorem X14_results_survive_response :
  (forall text v, JSON_parse text = Some v -> canonical v)
  /\ (forall ser d text, canonical (pipeline ser d text))
  /\ (forall number_to_json ser d text,
         number_free (pipeline ser d text) ->
         JSON_parse (response_text number_to_json
                       {| status := 200; body := pipeline ser d text |})
         = Some (pipeline ser d text)).
Proof.
  assert (Hp : forall ser d text, canonical (pipeline ser d text)).
  { intros ser d text. destruct (pipeline_cases ser d text) as [->|[c [_ H]]].
    - cbn. repeat split; reflexivity.
    - eapply JSON_parse_canonical; eauto. }
  split; [exact JSON_parse_canonical|]. split; [exact Hp|].
  intros ntj ser d text Hn. unfold response_text. cbn [body].
  apply stringify_parse; auto.
Qed.

Lemma X14_results_survive_response_witness :
  number_free (pipeline engine Netlify fenced_plan)
  /\ JSON_parse (response_text lexeme_text
                   {| status := 200;
                      body := pipeline engine Netlify fenced_plan |})
     = Some (pipeline engine Netlify fenced_plan).
Proof.
  assert (H : number_free (pipeline engine Netlify fenced_plan))
    by (vm_compute; tauto).
  split; [exact H|].
  exact (proj2 (proj2 X14_results_survive_response) lexeme_text engine Netlify
           fenced_plan H).
Defined.
(* ================================================================== *)
(** * The prompts *)
(* ================================================================== *)

Lemma occurs_concat_at n (l : list jsstring) a b c r a1 a2 :
  skipn n l = a :: b :: c :: r -> a = a1 ++ a2 ->
  occurs (a2 ++ b ++ c) (concat l).
Proof.
  intros Hl ->. exists (concat (firstn n l) ++ a1), (concat r).
  rewrite <- (firstn_skipn n l) at 1. rewrite concat_app, Hl.
  cbn [concat]. app_norm.
Qed.

Lemma some_eq (A : Type) (a b : A) : Some a = Some b -> a = b.
Proof. congruence. Qed.

Section PromptLines.

Variable number_to_string : jsstring -> jsstring.
Variable number_is_zero : jsstring -> bool.
Variable field : string -> option json.

(** The two lines of a prompt that was built, in terms of the
    substitutions. *)
Lemma server_prompt_lines prompt :
  server_prompt number_to_string number_is_zero field = Some prompt ->
  exists startCity destination,
    or_default number_to_string number_is_zero
      (field "startCity"%string) (js "Not specified") = Some startCity
    /\ interpolate number_to_string (field "destination"%string)
       = Some destination
    /\ occurs (js "Start City: " ++ startCity ++ nl) prompt
    /\ occurs (js "Destination: " ++ destination ++ nl) prompt.
Proof.
  unfold server_prompt, substitutions.
  destruct (or_default _ _ _ _) as [a|]; [|discriminate].
  destruct (interpolate _ (field "destination"%string)) as [b|];
    [|discriminate].
  destruct (interpolate _ (field "dates"%string)) as [c|]; [|discriminate].
  destruct (interpolate _ (field "interests"%string)) as [d|];
    [|discriminate].
  destruct (interpolate _ (field "style"%string)) as [e|]; [|discriminate].
  intros H. apply some_eq in H. subst prompt. exists a, b.
  split; [reflexivity|]. split; [reflexivity|]. split.
  - eapply (occurs_concat_at 9 _ _ _ _ _ (js "      ") (js "Start City: "));
      reflexivity.
  - eapply (occurs_concat_at 12 _ _ _ _ _ (js "      ") (js "Destination: "));
      reflexivity.
Qed.

Lemma netlify_prompt_lines prompt :
  netlify_prompt number_to_string number_is_zero field = Some prompt ->
  exists startCity destination,
    or_default number_to_string number_is_zero
      (field "startCity"%string) (js "Not specified") = Some startCity
    /\ interpolate number_to_string (field "destination"%string)
       = Some destination
    /\ occurs (js "Start City: " ++ startCity ++ nl) prompt
    /\ occurs (js "Destination: " ++ destination ++ nl) prompt.
Proof.
  unfold netlify_prompt, substitutions.
  destruct (or_default _ _ _ _) as [a|]; [|discriminate].
  destruct (interpolate _ (field "destination"%string)) as [b|];
    [|discriminate].
  destruct (interpolate _ (field "dates"%string)) as [c|]; [|discriminate].
  destruct (interpolate _ (field "interests"%string)) as [d|];
    [|discriminate].
  destruct (interpolate _ (field "style"%string)) as [e|]; [|discriminate].
  intros H. apply some_eq in H. subst prompt. exists a, b.
  split; [reflexivity|]. split; [reflexivity|]. split.
  - eapply (occurs_concat_at 4 _ _ _ _ _ [] (js "Start City: ")); reflexivity.
  - eapply (occurs_concat_at 7 _ _ _ _ _ [] (js "Destination: ")); reflexivity.
Qed.

(** Both prompts are built, or neither is. *)
Lemma prompts_built :
  (exists p, server_prompt number_to_string number_is_zero field = Some p)
  <-> (exists p, netlify_prompt number_to_string number_is_zero field
                 = Some p).
Proof.
  unfold server_prompt, netlify_prompt.
  destruct (substitutions _ _ _) as [[[[[a b] c] d] e]|].
  - split; intros _; eexists; reflexivity.
  - split; intros [p H]; discriminate.
Qed.

End PromptLines.

(** X15. The handlers do not check the fields of a request. In a prompt
    that a handler sends to the provider, a start city that is missing or
    empty is written as Not specified; a destination that is missing is
    written as the word undefined, and one that is a string is copied as it
    is, up to the end of its line. The two prompts have these lines alike,
    and one is built exactly when the other is; none is built for a field
    that is an object with a property [toString]. *)
Theorem X15_fields_in_prompt nts niz field :
  (forall prompt,
      server_prompt nts niz field = Some prompt
      \/ netlify_prompt nts niz field = Some prompt ->
      (field "startCity"%string = None
       \/ field "startCity"%string = Some (JString []) ->
       occurs (js "Start City: Not specified" ++ nl) prompt)
      /\ (field "destination"%string = None ->
          occurs (js "Destination: undefined" ++ nl) prompt)
      /\ (forall d,
             field "destination"%string = Some (JString d) ->
             occurs (js "Destination: " ++ d ++ nl) prompt))
  /\ ((exists p, server_prompt nts niz field = Some p)
      <-> (exists p, netlify_prompt nts niz field = Some p))
  /\ (forall o,
         field "destination"%string = Some (JObject o) ->
         has_key (js "toString") o = true ->
         server_prompt nts niz field = None
         /\ netlify_prompt nts niz field = None).
Proof.
  split; [|split].
  - intros prompt H.
    assert (L : exists startCity destination,
               or_default nts niz (field "startCity"%string)
                 (js "Not specified") = Some startCity
               /\ interpolate nts (field "destination"%string)
                  = Some destination
               /\ occurs (js "Start City: " ++ startCity ++ nl) prompt
               /\ occurs (js "Destination: " ++ destination ++ nl) prompt).
    { destruct H as [H|H];
        [now apply server_prompt_lines | now apply netlify_prompt_lines]. }
    destruct L as [a [b [Ea [Eb [Oa Ob]]]]].
    split; [|split].
    + intros [H1|H1]; rewrite H1 in Ea; cbn in Ea; injection Ea as <-;
        exact Oa.
    + intros H1. rewrite H1 in Eb. cbn in Eb. injection Eb as <-. exact Ob.
    + intros d H1. rewrite H1 in Eb. cbn in Eb. injection Eb as <-. exact Ob.
  - apply prompts_built.
  - intros o Ho Hk.
    unfold server_prompt, netlify_prompt, substitutions.
    rewrite Ho. cbn [interpolate to_string]. rewrite Hk.
    destruct (or_default _ _ _ _); split; reflexivity.
Qed.

Lemma X15_fields_in_prompt_witness :
  fields_of (JObject [(js "style", JString (js "relaxed"))])
    "destination"%string = None
  /\ netlify_prompt lexeme_text never_zero
       (fields_of (JObject [(js "style", JString (js "relaxed"))]))
     = Some (match netlify_prompt lexeme_text never_zero
                     (fields_of (JObject [(js "style",
                                           JString (js "relaxed"))])) with
             | Some prompt => prompt
             | None => []
             end)
  /\ occurs (js "Destination: undefined" ++ nl)
       (match netlify_prompt lexeme_text never_zero
                (fields_of (JObject [(js "style",
                                      JString (js "relaxed"))])) with
        | Some prompt => prompt
        | None => []
        end).
Proof.
  assert (H : fields_of (JObject [(js "style", JString (js "relaxed"))])
                "destination"%string = None)
    by reflexivity.
  assert (Hp : netlify_prompt lexeme_text never_zero
                 (fields_of (JObject [(js "style", JString (js "relaxed"))]))
               = Some (match netlify_prompt lexeme_text never_zero
                               (fields_of (JObject [(js "style",
                                                     JString (js "relaxed"))]))
                       with
                       | Some prompt => prompt
                       | None => []
                       end))
    by (vm_compute; reflexivity).
  split; [exact H|]. split; [exact Hp|].
  destruct (proj1 (X15_fields_in_prompt lexeme_text never_zero
                     (fields_of (JObject [(js "style",
                                           JString (js "relaxed"))])))
              _ (or_intror Hp)) as [_ [D _]].
  exact (D H).
Defined.
